(** * FinShare OCR service: receipt text extraction

    A shallow embedding of [ocr-service/main.py]: the regular expressions
    the field extractor is written with (parsed from their source text and
    run by a backtracking matcher that follows Python's [re]), the string
    helpers it calls, [parse_receipt_text], [extract_text], [deskew_image]
    and the endpoints [/scan] and [/scan/base64].

    Conventions.
    - A Python [str] is a list of characters; a character is a code point
      below 256 (the type [ascii] read as Latin-1), and the character
      classes below are Python's on that range.
    - A Python [float] is the rational it denotes ([Finite q]), an infinity or
      a NaN. The float read from a decimal text is the rational the text
      denotes: the rounding to a double, and the infinity Python gives for
      a text beyond the range of a double, are not modelled there.
    - The angles of the skew corrector are numpy's single-precision floats
      (an operation on an [np.float32] and a Python number stays in single
      precision, as numpy 2 has it): every operation rounds to the nearest
      float, ties to even.
    - An exception is a value of [exc]; library calls (PIL, OpenCV,
      Tesseract) are the fields of an interface, each free to raise. *)

From Stdlib Require Import List String Ascii Bool Arith NArith ZArith QArith Qabs Qround Qpower DecimalString Lia Lqa.
Import ListNotations.

Set Implicit Arguments.

Local Close Scope Q_scope.
Local Open Scope nat_scope.
Local Open Scope list_scope.

(** ** Characters and strings *)

Definition str := list ascii.

(** A string literal of the source. *)
Definition lit (s : string) : str := list_ascii_of_string s.
Arguments lit s%_string.

Definition code (c : ascii) : N := N_of_ascii c.

Definition in_range (lo hi : N) (c : ascii) : bool :=
  (lo <=? code c)%N && (code c <=? hi)%N.

(** [\d]: the decimal digits. *)
Definition is_digit (c : ascii) : bool := in_range 48 57 c.

(** [\s] and [str.strip()]: Python's Unicode white space below 256. *)
Definition is_space (c : ascii) : bool :=
  in_range 9 13 c || in_range 28 32 c || (code c =? 133)%N || (code c =? 160)%N.

(** [str.isalpha] below 256. *)
Definition is_alpha (c : ascii) : bool :=
  in_range 65 90 c || in_range 97 122 c
  || (code c =? 170)%N || (code c =? 181)%N || (code c =? 186)%N
  || in_range 192 214 c || in_range 216 246 c || in_range 248 255 c.

(** The characters with a numeric value that are not letters: the digits,
    the superscripts 1, 2, 3 and the fractions. *)
Definition is_numeric (c : ascii) : bool :=
  is_digit c || in_range 178 179 c || (code c =? 185)%N || in_range 188 190 c.

(** [\w]: alphanumeric or the underscore. *)
Definition is_word (c : ascii) : bool :=
  is_alpha c || is_numeric c || (code c =? 95)%N.

(** What [str.isdigit] accepts in one character: digits and superscripts. *)
Definition is_py_digit (c : ascii) : bool :=
  is_digit c || in_range 178 179 c || (code c =? 185)%N.

(** Simple lower-casing, as [re.IGNORECASE] folds a character. *)
Definition to_lower (c : ascii) : ascii :=
  if in_range 65 90 c || in_range 192 214 c || in_range 216 222 c
  then ascii_of_N (code c + 32) else c.

Definition chr_eq (ic : bool) (p x : ascii) : bool :=
  if ic then Ascii.eqb (to_lower p) (to_lower x) else Ascii.eqb p x.

Definition newline : ascii := ascii_of_N 10.

Definition str_eqb (a b : str) : bool :=
  if list_eq_dec ascii_dec a b then true else false.

(** ** Regular expressions *)

Inductive cclass : Type := CDigit | CSpace | CWord.

Inductive setitem : Type :=
| SChar (c : ascii)
| SClass (k : cclass).

Inductive re : Type :=
| Empty
| Chr (c : ascii)
| Dot
| Cls (k : cclass)
| CSet (neg : bool) (items : list setitem)
| Bol
| Eol
| Cat (r1 r2 : re)
| Alt (r1 r2 : re)
| Rep (lo : nat) (hi : option nat) (greedy : bool) (r : re)
| Grp (n : nat) (r : re).

Definition in_class (k : cclass) (x : ascii) : bool :=
  match k with
  | CDigit => is_digit x
  | CSpace => is_space x
  | CWord => is_word x
  end.

Definition in_item (ic : bool) (x : ascii) (i : setitem) : bool :=
  match i with
  | SChar c => chr_eq ic c x
  | SClass k => in_class k x
  end.

Definition in_set (ic neg : bool) (items : list setitem) (x : ascii) : bool :=
  xorb neg (existsb (in_item ic x) items).

(** *** The pattern parser

    The subset of Python's pattern syntax the service uses: literals,
    [.], [^], [$], the escapes [\d \s \w] and escaped punctuation, sets
    without ranges, capturing groups, alternation, and the quantifiers
    [* + ? {m} {m,} {m,n}] with an optional lazy [?]. Anything else is
    refused ([None]). *)

Definition is_ascii_alnum (c : ascii) : bool :=
  in_range 48 57 c || in_range 65 90 c || in_range 97 122 c.

Definition parse_escape (c : ascii) : option re :=
  if Ascii.eqb c "d" then Some (Cls CDigit)
  else if Ascii.eqb c "s" then Some (Cls CSpace)
  else if Ascii.eqb c "w" then Some (Cls CWord)
  else if is_ascii_alnum c then None
  else Some (Chr c).

Definition parse_set_escape (c : ascii) : option setitem :=
  if Ascii.eqb c "d" then Some (SClass CDigit)
  else if Ascii.eqb c "s" then Some (SClass CSpace)
  else if Ascii.eqb c "w" then Some (SClass CWord)
  else if is_ascii_alnum c then None
  else Some (SChar c).

(** The items of a set, up to the closing bracket. A hyphen is a literal
    when it is the first or the last item; a range is refused. *)
Fixpoint parse_set_items (first : bool) (s : str) : option (list setitem * str) :=
  match s with
  | [] => None
  | "]"%char :: s' => if first then None else Some ([], s')
  | "\"%char :: c :: s' =>
      match parse_set_escape c, parse_set_items false s' with
      | Some i, Some (its, r) => Some (i :: its, r)
      | _, _ => None
      end
  | "\"%char :: [] => None
  | c :: s' =>
      match s' with
      | "-"%char :: "]"%char :: _ =>
          match parse_set_items false s' with
          | Some (its, r) => Some (SChar c :: its, r)
          | None => None
          end
      | "-"%char :: _ => if Ascii.eqb c "-" then
                           match parse_set_items false s' with
                           | Some (its, r) => Some (SChar c :: its, r)
                           | None => None
                           end
                         else None
      | _ =>
          match parse_set_items false s' with
          | Some (its, r) => Some (SChar c :: its, r)
          | None => None
          end
      end
  end.

Definition digit_val (c : ascii) : nat := N.to_nat (code c - 48).

Fixpoint parse_nat_acc (acc : nat) (s : str) : nat * str :=
  match s with
  | c :: s' => if is_digit c then parse_nat_acc (10 * acc + digit_val c) s' else (acc, s)
  | [] => (acc, s)
  end.

(** A number of at least one digit. *)
Definition parse_nat (s : str) : option (nat * str) :=
  match s with
  | c :: _ => if is_digit c then Some (parse_nat_acc 0 s) else None
  | [] => None
  end.

(** The bounds of a quantifier at the head of [s], if one is there. *)
Definition parse_bounds (s : str) : option (nat * option nat * str) :=
  match s with
  | "*"%char :: r => Some (0, None, r)
  | "+"%char :: r => Some (1, None, r)
  | "?"%char :: r => Some (0, Some 1, r)
  | "{"%char :: r =>
      match parse_nat r with
      | Some (m, "}"%char :: r') => Some (m, Some m, r')
      | Some (m, ","%char :: "}"%char :: r') => Some (m, None, r')
      | Some (m, ","%char :: r') =>
          match parse_nat r' with
          | Some (n, "}"%char :: r'') => Some (m, Some n, r'')
          | _ => None
          end
      | _ => None
      end
  | _ => None
  end.

(** An atom followed by its quantifier, if any. *)
Definition quantify (a : re) (s : str) : re * str :=
  match parse_bounds s with
  | Some (lo, hi, "?"%char :: r) => (Rep lo hi false a, r)
  | Some (lo, hi, r) => (Rep lo hi true a, r)
  | None => (a, s)
  end.

Definition cat (a b : re) : re :=
  match b with
  | Empty => a
  | _ => Cat a b
  end.

(** [parse_alt fuel s g]: an alternation at the head of [s], with [g] the
    number of the next group to open; returns the expression, the rest of
    the pattern and the next group number. *)
Fixpoint parse_alt (fuel : nat) (s : str) (g : nat) {struct fuel}
  : option (re * str * nat) :=
  match fuel with
  | O => None
  | S f =>
      match parse_seq f s g with
      | Some (a, "|"%char :: r, g') =>
          match parse_alt f r g' with
          | Some (b, r', g'') => Some (Alt a b, r', g'')
          | None => None
          end
      | other => other
      end
  end
with parse_seq (fuel : nat) (s : str) (g : nat) {struct fuel}
  : option (re * str * nat) :=
  match fuel with
  | O => None
  | S f =>
      match s with
      | [] => Some (Empty, s, g)
      | "|"%char :: _ => Some (Empty, s, g)
      | ")"%char :: _ => Some (Empty, s, g)
      | _ =>
          match parse_atom f s g with
          | Some (a, r, g') =>
              let (qa, r') := quantify a r in
              match parse_seq f r' g' with
              | Some (b, r'', g'') => Some (cat qa b, r'', g'')
              | None => None
              end
          | None => None
          end
      end
  end
with parse_atom (fuel : nat) (s : str) (g : nat) {struct fuel}
  : option (re * str * nat) :=
  match fuel with
  | O => None
  | S f =>
      match s with
      | [] => None
      | "("%char :: "?"%char :: _ => None
      | "("%char :: r =>
          match parse_alt f r (S g) with
          | Some (a, ")"%char :: r', g') => Some (Grp g a, r', g')
          | _ => None
          end
      | "["%char :: "^"%char :: r =>
          match parse_set_items true r with
          | Some (its, r') => Some (CSet true its, r', g)
          | None => None
          end
      | "["%char :: r =>
          match parse_set_items true r with
          | Some (its, r') => Some (CSet false its, r', g)
          | None => None
          end
      | "\"%char :: c :: r =>
          match parse_escape c with
          | Some a => Some (a, r, g)
          | None => None
          end
      | "\"%char :: [] => None
      | "."%char :: r => Some (Dot, r, g)
      | "^"%char :: r => Some (Bol, r, g)
      | "$"%char :: r => Some (Eol, r, g)
      | "*"%char :: _ => None
      | "+"%char :: _ => None
      | "?"%char :: _ => None
      | c :: r => Some (Chr c, r, g)
      end
  end.

(** [re.compile] on the supported syntax. *)
Definition re_parse (pattern : string) : option re :=
  let s := list_ascii_of_string pattern in
  match parse_alt (4 * List.length s + 4) s 1 with
  | Some (r, [], _) => Some r
  | _ => None
  end.

(** An expression that matches nothing stands for a refused pattern; every
    pattern of the service parses ([patterns_parse] below). *)
Definition re_compile (pattern : string) : re :=
  match re_parse pattern with
  | Some r => r
  | None => CSet false []
  end.

(** *** The matcher *)

(** A state of a match attempt: the attempt began at position [origin] of
    the subject and has consumed [pos] characters, [rest] is ahead, and
    [caps] are the groups closed so far, the latest binding first. The
    state an attempt ends in is the match: it starts at [origin] and ends
    at [m_end]. *)
Record mstate : Type := MState {
  origin : nat;
  pos : nat;
  rest : str;
  caps : list (nat * str)
}.

Definition m_end (m : mstate) : nat := origin m + pos m.

Definition advance (st : mstate) : mstate :=
  MState (origin st) (S (pos st)) (tl (rest st)) (caps st).

Definition set_cap (n : nat) (s : str) (st : mstate) : mstate :=
  MState (origin st) (pos st) (rest st) ((n, s) :: caps st).

Fixpoint assoc (n : nat) (l : list (nat * str)) : option str :=
  match l with
  | [] => None
  | (m, s) :: l' => if Nat.eqb n m then Some s else assoc n l'
  end.

(** [match.group(n)] for a group that took part in the match. *)
Definition group (m : mstate) (n : nat) : option str := assoc n (caps m).

Definition orelse {A : Type} (a b : option A) : option A :=
  match a with
  | Some _ => a
  | None => b
  end.

Definition one_char (p : ascii -> bool) (k : mstate -> option mstate)
  (st : mstate) : option mstate :=
  match rest st with
  | x :: _ => if p x then k (advance st) else None
  | [] => None
  end.

Definition hi_pred (hi : option nat) : option nat :=
  match hi with
  | Some n => Some (Nat.pred n)
  | None => None
  end.

Definition hi_open (hi : option nat) : bool :=
  match hi with
  | Some O => false
  | _ => true
  end.

(** A repeat of [step] between [lo] and [hi] times: a greedy one tries one
    more round before it tries to stop, a lazy one the other way round.
    [fuel] bounds the rounds; [rmatch] gives one per character ahead and
    one per compulsory round. *)
Fixpoint rep_loop (step : (mstate -> option mstate) -> mstate -> option mstate)
  (greedy : bool) (k : mstate -> option mstate)
  (fuel lo : nat) (hi : option nat) (st : mstate) : option mstate :=
  match fuel with
  | O => None
  | S f =>
      let more :=
        if hi_open hi
        then step (rep_loop step greedy k f (Nat.pred lo) (hi_pred hi)) st
        else None in
      let stop := if Nat.eqb lo 0 then k st else None in
      if greedy then orelse more stop else orelse stop more
  end.

(** [rmatch ic r k st]: match [r] at [st] and hand the state reached to the
    continuation [k]; an alternative that fails is backtracked over in
    Python's order. [ic] is [re.IGNORECASE]. *)
Fixpoint rmatch (ic : bool) (r : re) (k : mstate -> option mstate)
  (st : mstate) {struct r} : option mstate :=
  match r with
  | Empty => k st
  | Chr c => one_char (chr_eq ic c) k st
  | Dot => one_char (fun x => negb (Ascii.eqb x newline)) k st
  | Cls c => one_char (in_class c) k st
  | CSet neg items => one_char (in_set ic neg items) k st
  | Bol => if Nat.eqb (origin st + pos st) 0 then k st else None
  | Eol =>
      match rest st with
      | [] => k st
      | [x] => if Ascii.eqb x newline then k st else None
      | _ => None
      end
  | Cat r1 r2 => rmatch ic r1 (rmatch ic r2 k) st
  | Alt r1 r2 => orelse (rmatch ic r1 k st) (rmatch ic r2 k st)
  | Rep lo hi greedy r' =>
      rep_loop (rmatch ic r') greedy k (S (List.length (rest st) + lo)) lo hi st
  | Grp n r' =>
      rmatch ic r'
        (fun st' => k (set_cap n (firstn (pos st' - pos st) (rest st)) st')) st
  end.

Definition match_at (ic : bool) (r : re) (p : nat) (s : str) : option mstate :=
  rmatch ic r (@Some mstate) (MState p 0 s []).

(** [re.match]: at the beginning of the subject only. *)
Definition re_match (ic : bool) (r : re) (s : str) : option mstate :=
  match_at ic r 0 s.

(** The leftmost match starting at position [p] or later, [s] being the
    subject from [p] on. *)
Fixpoint search_from (ic : bool) (r : re) (p : nat) (s : str) : option mstate :=
  match match_at ic r p s with
  | Some m => Some m
  | None =>
      match s with
      | [] => None
      | _ :: s' => search_from ic r (S p) s'
      end
  end.

(** [re.search]. *)
Definition re_search (ic : bool) (r : re) (s : str) : option mstate :=
  search_from ic r 0 s.

Definition found (m : option mstate) : bool :=
  match m with
  | Some _ => true
  | None => false
  end.

(** *** What a successful match went through

    [Steps ic r a b]: the expression [r] can take the matcher from the
    state [a] to the state [b]. The matcher only ever answers with a state
    it reached this way ([rmatch_sound]). *)

(** The test of an expression that consumes exactly one character. *)
Definition char_test (ic : bool) (r : re) : option (ascii -> bool) :=
  match r with
  | Chr c => Some (chr_eq ic c)
  | Dot => Some (fun x => negb (Ascii.eqb x newline))
  | Cls k => Some (in_class k)
  | CSet neg items => Some (in_set ic neg items)
  | _ => None
  end.

Inductive Steps (ic : bool) : re -> mstate -> mstate -> Prop :=
| St_Empty : forall a, Steps ic Empty a a
| St_Char : forall r p a x xs,
    char_test ic r = Some p -> rest a = x :: xs -> p x = true ->
    Steps ic r a (advance a)
| St_Bol : forall a, origin a + pos a = 0 -> Steps ic Bol a a
| St_Eol : forall a, rest a = [] \/ rest a = [newline] -> Steps ic Eol a a
| St_Cat : forall r1 r2 a b c,
    Steps ic r1 a b -> Steps ic r2 b c -> Steps ic (Cat r1 r2) a c
| St_AltL : forall r1 r2 a b, Steps ic r1 a b -> Steps ic (Alt r1 r2) a b
| St_AltR : forall r1 r2 a b, Steps ic r2 a b -> Steps ic (Alt r1 r2) a b
| St_RepStop : forall hi g r a, Steps ic (Rep 0 hi g r) a a
| St_RepMore : forall lo hi g r a b c,
    hi_open hi = true -> Steps ic r a b ->
    Steps ic (Rep (Nat.pred lo) (hi_pred hi) g r) b c ->
    Steps ic (Rep lo hi g r) a c
| St_Grp : forall n r a b,
    Steps ic r a b ->
    Steps ic (Grp n r) a (set_cap n (firstn (pos b - pos a) (rest a)) b).

(** [b] is [a] after the characters [s]. *)
Definition consumed (a : mstate) (s : str) (b : mstate) : Prop :=
  rest a = s ++ rest b /\ pos b = pos a + List.length s.

(** ** Python's string helpers *)

Fixpoint lstrip_by (p : ascii -> bool) (s : str) : str :=
  match s with
  | c :: s' => if p c then lstrip_by p s' else s
  | [] => []
  end.

Definition strip_by (p : ascii -> bool) (s : str) : str :=
  rev (lstrip_by p (rev (lstrip_by p s))).

(** [s.strip()] *)
Definition strip (s : str) : str := strip_by is_space s.

(** [s.split(sep)] for a separator of one character. *)
Fixpoint split (sep : ascii) (s : str) : list str :=
  match s with
  | [] => [[]]
  | c :: s' =>
      if Ascii.eqb c sep then [] :: split sep s'
      else match split sep s' with
           | l :: ls => (c :: l) :: ls
           | [] => [[c]]
           end
  end.

(** [s.replace(c, '')] for one character [c]. *)
Definition remove_char (c : ascii) (s : str) : str :=
  filter (fun x => negb (Ascii.eqb x c)) s.

(** [s.isdigit()] *)
Definition isdigit (s : str) : bool :=
  match s with
  | [] => false
  | _ => forallb is_py_digit s
  end.

(** ** Exceptions *)

Inductive exn : Type :=
| ValueError (msg : string)
| TypeError (msg : string)
| AttributeError (msg : string)
| HTTPException (status_code : nat) (detail : string)
| LibraryError (msg : string).

(** [str(e)] *)
Definition exn_str (e : exn) : string :=
  match e with
  | ValueError m | TypeError m | AttributeError m | LibraryError m => m
  | HTTPException _ d => d
  end.

Inductive exc (A : Type) : Type :=
| Ok (a : A)
| Raise (e : exn).

Arguments Ok {A} a.
Arguments Raise {A} e.

Definition bind {A B : Type} (m : exc A) (f : A -> exc B) : exc B :=
  match m with
  | Ok a => f a
  | Raise e => Raise e
  end.

Notation "x <- m ;; k" := (bind m (fun x => k))
  (at level 61, m at next level, right associativity).

(** ** Floats *)

Inductive pyfloat : Type :=
| Finite (q : Q)
| Infinity (negative : bool)
| NaN.

(** [x > y] and [x < y] on floats; a NaN compares false with everything. *)
Definition Qltb (a b : Q) : bool := negb (Qle_bool b a).

Definition float_lt (x y : pyfloat) : bool :=
  match x, y with
  | NaN, _ | _, NaN => false
  | Finite a, Finite b => Qltb a b
  | Finite _, Infinity neg => negb neg
  | Infinity neg, Finite _ => neg
  | Infinity a, Infinity b => a && negb b
  end.

Definition float_gt (x y : pyfloat) : bool := float_lt y x.

(** The float a decimal literal denotes: [m] times ten to the [e]. *)
Definition decimal (m e : Z) : Q :=
  Qred (if (0 <=? e)%Z then inject_Z (m * 10 ^ e)
        else Qmake m (Z.to_pos (10 ^ (- e)))).

(** The float of a decimal constant of the text, [fl 5.75]. *)
Definition fl (q : Q) : pyfloat := Finite (Qred q).

(** *** [float(s)]

    As CPython reads a [str]: white space and digits are brought to ASCII
    and anything else above it to [?]; ASCII white space is stripped at both
    ends; single underscores between digits are dropped; what is left must
    be an infinity, a NaN or a decimal constant with an optional exponent. *)

Definition to_ascii (c : ascii) : ascii :=
  if (code c <? 127)%N then c
  else if is_space c then " "%char else "?"%char.

(** C's [isspace] in the C locale. *)
Definition c_isspace (c : ascii) : bool :=
  in_range 9 13 c || (code c =? 32)%N.

Definition is_underscore (c : ascii) : bool := Ascii.eqb c "_".

Fixpoint drop_underscores (prev : ascii) (s : str) : option str :=
  match s with
  | [] => if is_underscore prev then None else Some []
  | c :: s' =>
      if is_underscore c then
        if is_digit prev then drop_underscores c s' else None
      else if is_underscore prev && negb (is_digit c) then None
      else option_map (cons c) (drop_underscores c s')
  end.

Definition parse_sign (s : str) : bool * str :=
  match s with
  | "-"%char :: r => (true, r)
  | "+"%char :: r => (false, r)
  | _ => (false, s)
  end.

Fixpoint span_digits (s : str) : str * str :=
  match s with
  | c :: s' =>
      if is_digit c then let (d, r) := span_digits s' in (c :: d, r)
      else ([], s)
  | [] => ([], [])
  end.

Fixpoint digits_value (acc : Z) (s : str) : Z :=
  match s with
  | c :: s' => digits_value (10 * acc + Z.of_N (code c - 48)) s'
  | [] => acc
  end.

Definition is_nil {A : Type} (l : list A) : bool :=
  match l with
  | [] => true
  | _ => false
  end.

Definition signed (neg : bool) (z : Z) : Z := if neg then (- z)%Z else z.

(** [inf], [infinity] or [nan] in any letter case. *)
Definition parse_inf_or_nan (neg : bool) (s : str) : option pyfloat :=
  let l := map to_lower s in
  if str_eqb l (lit "inf") || str_eqb l (lit "infinity") then Some (Infinity neg)
  else if str_eqb l (lit "nan") then Some NaN
  else None.

(** A decimal constant: digits with an optional point, at least one digit
    in all, and an optional exponent of at least one digit. *)
Definition parse_decimal (neg : bool) (s : str) : option pyfloat :=
  let (ip, r1) := span_digits s in
  let (fp, r2) := match r1 with
                  | "."%char :: r => span_digits r
                  | _ => ([], r1)
                  end in
  if is_nil ip && is_nil fp then None
  else
    let m := signed neg (digits_value 0 (ip ++ fp)) in
    let sc := (- Z.of_nat (List.length fp))%Z in
    match r2 with
    | [] => Some (Finite (decimal m sc))
    | e :: r3 =>
        if Ascii.eqb (to_lower e) "e" then
          let (eneg, r4) := parse_sign r3 in
          let (ep, r5) := span_digits r4 in
          if is_nil ep || negb (is_nil r5) then None
          else Some (Finite (decimal m (signed eneg (digits_value 0 ep) + sc)))
        else None
    end.

Definition float_of_ascii (s : str) : option pyfloat :=
  let (neg, r) := parse_sign s in
  match parse_inf_or_nan neg r with
  | Some v => Some v
  | None => parse_decimal neg r
  end.

Definition float_of_str (s : str) : exc pyfloat :=
  match drop_underscores zero (strip_by c_isspace (map to_ascii s)) with
  | Some t =>
      match float_of_ascii t with
      | Some v => Ok v
      | None => Raise (ValueError "could not convert string to float")
      end
  | None => Raise (ValueError "could not convert string to float")
  end.

(** [float(x)] for [x] a string or [None]. *)
Definition py_float (x : option str) : exc pyfloat :=
  match x with
  | Some s => float_of_str s
  | None => Raise (TypeError "float() argument must be a string or a real number")
  end.

(** [x.strip()] for [x] a string or [None]. *)
Definition py_strip (x : option str) : exc str :=
  match x with
  | Some s => Ok (strip s)
  | None => Raise (AttributeError "'NoneType' object has no attribute 'strip'")
  end.

(** ** The field extractor *)

(** An entry of [result["items"]]. *)
Record item : Type := Item {
  item_description : str;
  item_amount : pyfloat
}.

(** The dictionary [parse_receipt_text] returns. *)
Record fields : Type := Fields {
  f_merchant : option str;
  f_date : option str;
  f_total : option pyfloat;
  f_subtotal : option pyfloat;
  f_tax : option pyfloat;
  f_tip : option pyfloat;
  f_items : list item
}.

(** The patterns, as the source spells them. *)

Definition phone_pattern : string := "\d{3}[-.\s]?\d{3}[-.\s]?\d{4}".
Definition address_pattern : string := "\d+\s+\w+\s+(st|street|ave|road|rd|blvd)".

Definition date_patterns : list string :=
  [ "(\d{1,2}[/-]\d{1,2}[/-]\d{2,4})";
    "(\d{4}[/-]\d{1,2}[/-]\d{1,2})";
    "(\w{3}\s+\d{1,2},?\s+\d{4})";
    "(\d{1,2}\s+\w{3}\s+\d{4})" ]%string.

Definition total_patterns : list string :=
  [ "total[:\s]*\$?(\d+\.?\d*)";
    "grand\s*total[:\s]*\$?(\d+\.?\d*)";
    "amount\s*due[:\s]*\$?(\d+\.?\d*)";
    "balance[:\s]*\$?(\d+\.?\d*)" ]%string.

Definition subtotal_pattern : string := "sub\s*total[:\s]*\$?(\d+\.?\d*)".

Definition tax_patterns : list string :=
  [ "tax[:\s]*\$?(\d+\.?\d*)";
    "sales\s*tax[:\s]*\$?(\d+\.?\d*)";
    "vat[:\s]*\$?(\d+\.?\d*)" ]%string.

Definition tip_pattern : string := "tip[:\s]*\$?(\d+\.?\d*)".

Definition item_pattern : string := "^(.+?)\s+\$?(\d+\.\d{2})\s*$".

Definition skip_pattern : string :=
  "(total|tax|tip|subtotal|balance|change|cash|credit|visa|mastercard)".

(** The compiled patterns. *)

Definition phone_re : re := Eval vm_compute in re_compile phone_pattern.
Definition address_re : re := Eval vm_compute in re_compile address_pattern.
Definition date_res : list re := Eval vm_compute in map re_compile date_patterns.
Definition total_res : list re := Eval vm_compute in map re_compile total_patterns.
Definition subtotal_re : re := Eval vm_compute in re_compile subtotal_pattern.
Definition tax_res : list re := Eval vm_compute in map re_compile tax_patterns.
Definition tip_re : re := Eval vm_compute in re_compile tip_pattern.
Definition item_re : re := Eval vm_compute in re_compile item_pattern.
Definition skip_re : re := Eval vm_compute in re_compile skip_pattern.

(** [lines = text.strip().split('\n')], then every line stripped and the
    empty ones dropped. *)
Definition text_lines (text : str) : list str :=
  filter (fun l => negb (is_nil l)) (map strip (split newline (strip text))).

(** The test a line passes to be the merchant. *)
Definition merchant_line (line : str) : bool :=
  negb (found (re_search false phone_re line))
  && negb (found (re_search true address_re line))
  && ((2 <? List.length line) && negb (isdigit (remove_char " " line))).

(** [for line in lines[:5]: ... break] *)
Fixpoint first_merchant (lines : list str) : option str :=
  match lines with
  | [] => None
  | line :: lines' =>
      if merchant_line line then Some line else first_merchant lines'
  end.

(** [for pattern in date_patterns: ... break] *)
Fixpoint first_date (patterns : list re) (text : str) : option str :=
  match patterns with
  | [] => None
  | p :: patterns' =>
      match re_search true p text with
      | Some m => group m 1
      | None => first_date patterns' text
      end
  end.

(** [try: float(match.group(1)) except ValueError: pass]: the amount, or
    nothing when the capture does not read as a float. *)
Definition try_float (m : mstate) : exc (option pyfloat) :=
  match py_float (group m 1) with
  | Ok v => Ok (Some v)
  | Raise (ValueError _) => Ok None
  | Raise e => Raise e
  end.

(** A priority chain of amount patterns: the first pattern that matches
    and whose capture reads as a float sets the field. *)
Fixpoint first_amount (patterns : list re) (text : str) : exc (option pyfloat) :=
  match patterns with
  | [] => Ok None
  | p :: patterns' =>
      match re_search true p text with
      | Some m =>
          v <- try_float m ;;
          match v with
          | Some x => Ok (Some x)
          | None => first_amount patterns' text
          end
      | None => first_amount patterns' text
      end
  end.

(** A single amount pattern. *)
Definition one_amount (p : re) (text : str) : exc (option pyfloat) :=
  match re_search true p text with
  | Some m => try_float m
  | None => Ok None
  end.

(** The guard on a candidate item. *)
Definition item_ok (item_name : str) (item_price : pyfloat) : bool :=
  (2 <? List.length item_name)
  && float_gt item_price (fl 0) && float_lt item_price (fl 10000).

(** The body of the loop over the lines, [acc] being [result["items"]]. *)
Definition item_step (acc : list item) (line : str) : exc (list item) :=
  if found (re_search true skip_re line) then Ok acc
  else
    match re_match false item_re line with
    | Some m =>
        item_name <- py_strip (group m 1) ;;
        item_price <- py_float (group m 2) ;;
        if item_ok item_name item_price
        then Ok (acc ++ [Item item_name item_price])
        else Ok acc
    | None => Ok acc
    end.

Fixpoint collect_items (acc : list item) (lines : list str) : exc (list item) :=
  match lines with
  | [] => Ok acc
  | line :: lines' =>
      acc' <- item_step acc line ;;
      collect_items acc' lines'
  end.

Definition parse_receipt_text (text : str) : exc fields :=
  let lines := text_lines text in
  let merchant := first_merchant (firstn 5 lines) in
  let date := first_date date_res text in
  total <- first_amount total_res text ;;
  subtotal <- one_amount subtotal_re text ;;
  tax <- first_amount tax_res text ;;
  tip <- one_amount tip_re text ;;
  items <- collect_items [] lines ;;
  Ok (Fields merchant date total subtotal tax tip items).

(** ** The image pipeline and the endpoint *)

Definition bytes := list Byte.byte.

(** The calls into PIL, numpy, OpenCV and Tesseract. Each may raise. *)
Class OCRLib : Type := {
  Image : Type;
  Array : Type;
  (* Image.open(io.BytesIO(contents)) *)
  image_open : bytes -> exc Image;
  (* image.mode *)
  image_mode : Image -> string;
  (* image.convert(mode) *)
  image_convert : Image -> string -> exc Image;
  (* np.array(image) *)
  np_array : Image -> exc Array;
  (* len(img_array.shape) *)
  shape_len : Array -> nat;
  (* cv2.cvtColor(img_array, cv2.COLOR_RGB2GRAY) *)
  cvtColor_rgb2gray : Array -> exc Array;
  (* cv2.fastNlMeansDenoising(gray, None, h, templateWindowSize, searchWindowSize) *)
  fastNlMeansDenoising : Array -> Z -> Z -> Z -> exc Array;
  (* cv2.createCLAHE(clipLimit, tileGridSize).apply(denoised) *)
  clahe_apply : Q -> Z * Z -> Array -> exc Array;
  (* cv2.threshold(enhanced, thresh, maxval, THRESH_BINARY + THRESH_OTSU)[1] *)
  threshold_otsu : Array -> Z -> Z -> exc Array;
  (* Image.fromarray(binary) *)
  image_fromarray : Array -> exc Image;
  (* cv2.Canny(img_array, threshold1, threshold2, apertureSize) *)
  Canny : Array -> Z -> Z -> Z -> exc Array;
  (* cv2.HoughLines(edges, rho, theta, threshold): None, or (rho, theta) pairs *)
  HoughLines : Array -> Q -> Q -> Z -> exc (option (list (Q * Q)));
  (* image.rotate(angle, fillcolor, expand) *)
  image_rotate : Image -> Q -> Z -> bool -> exc Image;
  (* [int(c) for c in pytesseract.image_to_data(image)['conf']] *)
  image_to_data_conf : Image -> exc (list Z);
  (* pytesseract.image_to_string(image) *)
  image_to_string : Image -> exc str
}.

(** ** Single and double precision

    A float that is neither an infinity nor a NaN is the rational it
    stands for; an operation on floats is the operation on rationals
    followed by the rounding to the nearest float, ties to even. The
    exponent is not bounded: the angles of the skew corrector are far from
    the ends of the range. *)

(** The exponent of a positive rational: [2 ^ e <= q < 2 ^ (e + 1)]. *)
Definition Qlog2 (q : Q) : Z :=
  let e := (Z.log2 (Qnum q) - Z.log2 (Zpos (Qden q)))%Z in
  if Qle_bool (2 ^ e) q then e else (e - 1)%Z.

(** The nearest integer, the even one of two that are equally near. *)
Definition Qround_even (q : Q) : Z :=
  let f := Qfloor q in
  match (q - inject_Z f ?= 1 # 2)%Q with
  | Lt => f
  | Gt => (f + 1)%Z
  | Eq => if Z.even f then f else (f + 1)%Z
  end.

(** The nearest number with [prec] significant bits, ties to even. *)
Definition round_pos (prec : Z) (q : Q) : Q :=
  if Qle_bool q 0 then 0%Q
  else let u := (2 ^ (Qlog2 q - prec + 1))%Q in
       (inject_Z (Qround_even (q / u)) * u)%Q.

Definition round_to (prec : Z) (q : Q) : Q :=
  if Qle_bool 0 q then round_pos prec q else (- round_pos prec (- q))%Q.

(** [np.float32] and the Python float. *)
Definition f32 : Q -> Q := round_to 24.
Definition f64 : Q -> Q := round_to 53.

(** [np.pi], the double nearest to pi. *)
Definition np_pi : Q := (884279719003555 # 281474976710656)%Q.

(** [x + y] on two [np.float32]. *)
Definition fadd32 (x y : Q) : Q := f32 (x + y).

(** [np.add.reduce] on a [float32] array of fewer than sixteen elements,
    from zero: one element after the other when they are fewer than eight,
    else the first eight added in pairs and the others after them. The
    skew corrector passes at most ten. *)
Definition np_sum (l : list Q) : Q :=
  match l with
  | a0 :: a1 :: a2 :: a3 :: a4 :: a5 :: a6 :: a7 :: l' =>
      fold_left fadd32 l'
        (fadd32 (fadd32 (fadd32 a0 a1) (fadd32 a2 a3))
                (fadd32 (fadd32 a4 a5) (fadd32 a6 a7)))
  | _ => fold_left fadd32 l 0%Q
  end.

(** [np.mean(angles)] on a list of [np.float32]: the sum in single
    precision, divided by the count in double precision and converted
    back. *)
Definition np_mean (l : list Q) : Q :=
  f32 (f64 (np_sum l / inject_Z (Z.of_nat (List.length l)))).

(** [angle = (theta * 180 / np.pi) - 90] for [theta] an [np.float32]:
    [180], [np.pi] and [90] are Python numbers, which are converted to
    single precision, and every operation rounds to single precision. *)
Definition line_angle (line : Q * Q) : Q :=
  f32 (f32 (f32 (snd line * 180) / f32 np_pi) - 90).

(** The angles the loop over [lines[:10]] appends. *)
Definition candidate_angles (lines : list (Q * Q)) : list Q :=
  filter (fun angle => Qltb (Qabs angle) (45 # 1)%Q)
         (map line_angle (firstn 10 lines)).

(** [sum(confidences)] over integers. *)
Definition Zsum (l : list Z) : Z := fold_right Z.add 0%Z l.

(** The confidence [extract_text] returns for the token confidences
    [conf]. *)
Definition scalar_confidence (conf : list Z) : Q :=
  let confidences := filter (fun c => (0 <? c)%Z) conf in
  let avg_confidence :=
    if negb (is_nil confidences)
    then (inject_Z (Zsum confidences)
          / inject_Z (Z.of_nat (List.length confidences)))%Q
    else (0 # 1)%Q in
  (avg_confidence / (100 # 1)%Q)%Q.

(** [ReceiptItem], [ReceiptData], [OCRResponse] *)

Record ReceiptItem : Type := {
  description : str;
  amount : option pyfloat
}.

Record ReceiptData : Type := {
  merchant : option str;
  date : option str;
  total : option pyfloat;
  subtotal : option pyfloat;
  tax : option pyfloat;
  tip : option pyfloat;
  items : list ReceiptItem;
  raw_text : str;
  confidence : Q
}.

Record OCRResponse : Type := {
  success : bool;
  job_id : string;
  data : option ReceiptData;
  error : option string
}.

(** The upload as the endpoint sees it; [file_read] is what
    [await file.read()] gives. *)
Record UploadFile : Type := {
  content_type : string;
  filename : string;
  file_read : exc bytes
}.

Definition allowed_types : list string :=
  [ "image/jpeg"; "image/png"; "image/webp"; "image/jpg" ]%string.

Definition invalid_type_detail : string :=
  "Invalid file type. Allowed: image/jpeg, image/png, image/webp, image/jpg".

Definition mem_string (x : string) (l : list string) : bool :=
  existsb (String.eqb x) l.

Section Pipeline.

Context {L : OCRLib}.

Definition preprocess_image (image : Image) : exc Image :=
  img_array <- np_array image ;;
  gray <- (if Nat.eqb (shape_len img_array) 3
           then cvtColor_rgb2gray img_array
           else Ok img_array) ;;
  denoised <- fastNlMeansDenoising gray 10 7 21 ;;
  enhanced <- clahe_apply (2 # 1)%Q (8, 8)%Z denoised ;;
  binary <- threshold_otsu enhanced 0 255 ;;
  image_fromarray binary.

Definition deskew_image (image : Image) : exc Image :=
  img_array <- np_array image ;;
  edges <- Canny img_array 50 150 3 ;;
  lines <- HoughLines edges (1 # 1)%Q (np_pi / (180 # 1)%Q)%Q 200 ;;
  match lines with
  | Some lines =>
      let angles := candidate_angles lines in
      if negb (is_nil angles) then
        let avg_angle := np_mean angles in
        if Qltb (1 # 2)%Q (Qabs avg_angle)
        then image_rotate image avg_angle 255 true
        else Ok image
      else Ok image
  | None => Ok image
  end.

Definition extract_text (image : Image) : exc (str * Q) :=
  conf <- image_to_data_conf image ;;
  text <- image_to_string image ;;
  Ok (text, scalar_confidence conf).

(** The [ReceiptItem] built from an entry of [parsed_data[items]]. *)
Definition receipt_item (i : item) : ReceiptItem :=
  {| description := item_description i; amount := Some (item_amount i) |}.

(** The body of the [try] block, from the bytes read to the record. *)
Definition scan_body (contents : exc bytes) : exc ReceiptData :=
  contents <- contents ;;
  image <- image_open contents ;;
  image <- (if mem_string (image_mode image) ["RGBA"; "P"]%string
            then image_convert image "RGB"
            else Ok image) ;;
  processed <- preprocess_image image ;;
  processed <- deskew_image processed ;;
  tc <- extract_text processed ;;
  let (raw_text, confidence) := (tc : str * Q) in
  parsed_data <- parse_receipt_text raw_text ;;
  Ok {| merchant := f_merchant parsed_data;
        date := f_date parsed_data;
        total := f_total parsed_data;
        subtotal := f_subtotal parsed_data;
        tax := f_tax parsed_data;
        tip := f_tip parsed_data;
        items := map receipt_item (f_items parsed_data);
        raw_text := raw_text;
        confidence := confidence |}.

(** [try: ... return OCRResponse(success=True, ...)
     except Exception as e: return OCRResponse(success=False, ...)] *)
Definition scan (job_id : string) (contents : exc bytes) : OCRResponse :=
  match scan_body contents with
  | Ok receipt_data =>
      {| success := true; job_id := job_id;
         data := Some receipt_data; error := None |}
  | Raise e =>
      {| success := false; job_id := job_id;
         data := None; error := Some (exn_str e) |}
  end.

(** [POST /scan]; [job_id] is the token [uuid.uuid4()] drew. *)
Definition scan_receipt (job_id : string) (file : UploadFile) : exc OCRResponse :=
  if negb (mem_string (content_type file) allowed_types)
  then Raise (HTTPException 400 invalid_type_detail)
  else Ok (scan job_id (file_read file)).

End Pipeline.

(** ** Notions the statements below use *)

(** The text of an amount as the patterns capture it: digits, then
    possibly a point and more digits. *)
Definition amount_text (s : str) : Prop :=
  exists d1 d2,
    d1 <> [] /\ forallb is_digit d1 = true /\ forallb is_digit d2 = true /\
    (s = d1 \/ s = d1 ++ "."%char :: d2).

(** The first pattern of a priority chain that matches somewhere in the
    text, with its match. *)
Fixpoint first_match (patterns : list re) (text : str) : option mstate :=
  match patterns with
  | [] => None
  | p :: patterns' =>
      match re_search true p text with
      | Some m => Some m
      | None => first_match patterns' text
      end
  end.

(** The last expression of a sequence. *)
Fixpoint last_of (r : re) : re :=
  match r with
  | Cat _ r2 => last_of r2
  | _ => r
  end.

(** What the amount group of the keyword patterns holds, and what the
    amount group of the item pattern holds. *)
Definition amount_re : re :=
  Cat (Rep 1 None true (Cls CDigit))
      (Cat (Rep 0 (Some 1) true (Chr ".")) (Rep 0 None true (Cls CDigit))).

Definition price_re : re :=
  Cat (Rep 1 None true (Cls CDigit))
      (Cat (Chr ".") (Rep 2 (Some 2) true (Cls CDigit))).

(** The characters of an amount. *)
Definition plain (c : ascii) : bool := is_digit c || Ascii.eqb c ".".

(** The float a match captured in its first group, when it reads as one. *)
Definition capture_value (m : mstate) : option pyfloat :=
  match group m 1 with
  | Some s => match float_of_str s with
              | Ok v => Some v
              | Raise _ => None
              end
  | None => None
  end.

(** The value a priority chain of amount patterns gives a field: that of
    the first pattern that matches. *)
Definition chain_value (patterns : list re) (text : str) : option pyfloat :=
  match first_match patterns text with
  | Some m => capture_value m
  | None => None
  end.

(** The candidate item of a line: the description, trimmed, and the
    amount, when the line holds none of the summary keywords and ends in
    an amount. *)
Definition candidate (line : str) : option (str * Q) :=
  if found (re_search true skip_re line) then None
  else
    match re_match false item_re line with
    | Some m =>
        match group m 1, group m 2 with
        | Some d, Some p =>
            match float_of_str p with
            | Ok (Finite q) => Some (strip d, q)
            | _ => None
            end
        | _, _ => None
        end
    | None => None
    end.

(** The guard on a candidate, in the words of the specification. *)
Definition accepted (c : str * Q) : Prop :=
  2 < List.length (fst c) /\ (0 < snd c)%Q /\ (snd c < 10000)%Q.

(** What a line contributes to the items. *)
Definition line_items (line : str) : list item :=
  match candidate line with
  | Some (d, q) => if item_ok d (Finite q) then [Item d (Finite q)] else []
  | None => []
  end.

(** The mean of the positive entries of a list of confidences, over a
    hundred, in the words of the specification. *)
Definition positive_mean (conf : list Z) : Q :=
  let positive := filter (fun c => (0 <? c)%Z) conf in
  (inject_Z (Zsum positive) / inject_Z (Z.of_nat (List.length positive)))%Q.

Definition conf_in_range (c : Z) : Prop := (-1 <= c <= 100)%Z.

(** Lines joined by newlines. *)
Fixpoint unlines (l : list string) : str :=
  match l with
  | [] => []
  | [x] => lit x
  | x :: l' => lit x ++ newline :: unlines l'
  end.

(** The receipt of the specification's example. *)
Definition joes_diner : str :=
  unlines [ "Joe's Diner"; "123 Main St"; "555-123-4567"; "Coffee 3.50";
            "Bagel 2.25"; "Subtotal 5.75"; "Tax 0.50"; "Total: $6.25" ]%string.

(** A library for examples: every call returns, the line detector finds
    [lines], and the recogniser reads [text] with token confidences
    [conf]. An image is the number of times it was rotated. *)
Definition example_lib (lines : option (list (Q * Q))) (conf : list Z)
  (text : str) : OCRLib := {|
  Image := nat;
  Array := nat;
  image_open := fun _ => Ok 0;
  image_mode := fun _ => "RGB"%string;
  image_convert := fun i _ => Ok i;
  np_array := fun i => Ok i;
  shape_len := fun _ => 2;
  cvtColor_rgb2gray := fun a => Ok a;
  fastNlMeansDenoising := fun a _ _ _ => Ok a;
  clahe_apply := fun _ _ a => Ok a;
  threshold_otsu := fun a _ _ => Ok a;
  image_fromarray := fun a => Ok a;
  Canny := fun a _ _ _ => Ok a;
  HoughLines := fun _ _ _ _ => Ok lines;
  image_rotate := fun i _ _ _ => Ok (S i);
  image_to_data_conf := fun _ => Ok conf;
  image_to_string := fun _ => Ok text
|}.

(** A library whose decoder refuses the bytes. *)
Definition broken_lib : OCRLib := {|
  Image := nat;
  Array := nat;
  image_open := fun _ => Raise (LibraryError "cannot identify image file");
  image_mode := fun _ => "RGB"%string;
  image_convert := fun i _ => Ok i;
  np_array := fun i => Ok i;
  shape_len := fun _ => 2;
  cvtColor_rgb2gray := fun a => Ok a;
  fastNlMeansDenoising := fun a _ _ _ => Ok a;
  clahe_apply := fun _ _ a => Ok a;
  threshold_otsu := fun a _ _ => Ok a;
  image_fromarray := fun a => Ok a;
  Canny := fun a _ _ _ => Ok a;
  HoughLines := fun _ _ _ _ => Ok None;
  image_rotate := fun i _ _ _ => Ok (S i);
  image_to_data_conf := fun _ => Ok [];
  image_to_string := fun _ => Ok []
|}.

(** The candidate angles of what the line detector returned. *)
Definition detected_angles (lines : option (list (Q * Q))) : list Q :=
  match lines with
  | Some ls => candidate_angles ls
  | None => []
  end.

(** [np.float32(math.radians(d))] *)
Definition degrees (d : Z) : Q := f32 (f64 (inject_Z d * f64 (np_pi / 180))).

(** Detections for the examples: a line one degree off, lines whose
    angles cancel out, and four lines whose mean angle is half a degree
    off but for the rounding. A line is [(rho, theta)], [theta] in
    radians. *)
Definition tilted_lines : list (Q * Q) := [ (10, degrees 91)%Q ].
Definition level_lines : list (Q * Q) :=
  [ (10, degrees 91)%Q; (20, degrees 89)%Q; (30, 0)%Q ].
Definition half_degree_lines : list (Q * Q) :=
  [ (10, degrees 86)%Q; (20, degrees 88)%Q; (30, degrees 90)%Q;
    (40, degrees 94)%Q ].

(** The record the assembler builds from the recognised text and the
    confidence. *)
Definition assemble (text : str) (conf : Q) (f : fields) : ReceiptData :=
  {| merchant := f_merchant f;
     date := f_date f;
     total := f_total f;
     subtotal := f_subtotal f;
     tax := f_tax f;
     tip := f_tip f;
     items := map receipt_item (f_items f);
     raw_text := text;
     confidence := conf |}.

(** Every stage of a scan returned: the bytes [b] were read and decoded
    to [img], [img'] is the image in RGB, [p1] the normalized and [p2] the
    deskewed image, on which the recogniser returned [conf] and [text],
    and the extractor returned [f]. *)
Definition stages_returned (L : OCRLib) (contents : exc bytes)
  (text : str) (conf : list Z) (f : fields) : Prop :=
  exists b img img' p1 p2,
    contents = Ok b /\
    image_open b = Ok img /\
    (if mem_string (image_mode img) ["RGBA"; "P"]%string
     then image_convert img "RGB" else Ok img) = Ok img' /\
    preprocess_image img' = Ok p1 /\
    deskew_image p1 = Ok p2 /\
    image_to_data_conf p2 = Ok conf /\
    image_to_string p2 = Ok text /\
    parse_receipt_text text = Ok f.

(** An upload for the examples. *)
Definition example_upload (type : string) : UploadFile :=
  {| content_type := type; filename := "receipt"; file_read := Ok [] |}.

(** The first pattern of the total, the one of the keyword [total]. *)
Definition total_re : re := nth 0 total_res Empty.

(** The texts of the tie-break example: [Total: 10.00] after [pre], then
    [mid], then [Grand Total: 12.00] and [post]. *)
Definition tie_break_text (pre mid post : str) : str :=
  pre ++ lit "Total: 10.00" ++ mid ++ lit "Grand Total: 12.00" ++ post.

(** A field follows from a priority chain: it holds the value captured by
    the first pattern that matches, and nothing when none matches. *)
Definition set_by_first_match (field : option pyfloat) (patterns : list re)
  (text : str) : Prop :=
  match first_match patterns text with
  | Some m => exists s v, group m 1 = Some s /\ amount_text s /\
                          float_of_str s = Ok v /\ field = Some v
  | None => field = None
  end.

(** The pattern [p] at rank [i] of a chain is the first that matches
    [text], and [m] is its match. *)
Definition first_at (patterns : list re) (text : str) (i : nat) (p : re)
  (m : mstate) : Prop :=
  nth_error patterns i = Some p /\
  re_search true p text = Some m /\
  forall j q, j < i -> nth_error patterns j = Some q ->
              re_search true q text = None.

Definition found_re (r : option re) : bool :=
  match r with
  | Some _ => true
  | None => false
  end.

(** An expression whose repeats are all of one-character expressions, as
    in every pattern of the service. *)
Definition is_char (ic : bool) (r : re) : bool :=
  match char_test ic r with
  | Some _ => true
  | None => false
  end.

Fixpoint simple (ic : bool) (r : re) : bool :=
  match r with
  | Cat r1 r2 | Alt r1 r2 => simple ic r1 && simple ic r2
  | Rep _ _ _ r' => is_char ic r'
  | Grp _ r' => simple ic r'
  | _ => true
  end.

(** The compiled patterns of the service. *)
Definition all_res : list re :=
  [phone_re; address_re] ++ date_res ++ total_res ++ [subtotal_re]
  ++ tax_res ++ [tip_re; item_re; skip_re].

(** The keyword [total], in any letter case, starts the text [s]. *)
Definition total_keyword_at (s : str) : Prop :=
  map to_lower (firstn 5 s) = lit "total".

(** The third date pattern, the one with the month name first. *)
Definition month_first_re : re := nth 2 date_res Empty.

(** The text [t] does not begin with a character that passes [p]. *)
Definition head_fails (p : ascii -> bool) (t : str) : Prop :=
  match t with
  | x :: _ => p x = false
  | [] => True
  end.

(** The number [n] of rounds of a repeat is within its upper bound. *)
Definition within (n : nat) (hi : option nat) : Prop :=
  match hi with
  | Some h => n <= h
  | None => True
  end.

(** The continuation [k] answers at the state [st]. *)
Definition answers (k : mstate -> option mstate) (st : mstate) : Prop :=
  k st <> None.

(** The patterns of the four amount fields. *)
Definition amount_res : list re :=
  total_res ++ [subtotal_re] ++ tax_res ++ [tip_re].

(** ** Notions of the further properties *)

(** The arithmetic mean, in the words of the specification. *)
Definition Qsum (l : list Q) : Q := fold_left Qplus l 0%Q.
Definition Qmean (l : list Q) : Q :=
  (Qsum l / inject_Z (Z.of_nat (List.length l)))%Q.

(** The number of elements, as a rational. *)
Definition count (l : list Q) : Q := inject_Z (Z.of_nat (List.length l)).

(** The largest [np.float32] below 45. *)
Definition below_45 : Q := (11796479 # 262144)%Q.

(** A field that is unset or holds an amount that is not negative and
    not a NaN. *)
Definition not_negative (v : option pyfloat) : Prop :=
  match v with
  | None => True
  | Some (Finite q) => (0 <= q)%Q
  | Some (Infinity negative) => negative = false
  | Some NaN => False
  end.

(** [d.get(key, default)] on a dictionary given by its lookup. *)
Definition dict_get (d : string -> option str) (key : string) (default : str) : str :=
  match d key with
  | Some v => v
  | None => default
  end.

(** [base64.b64decode] *)

(** The value of a character of the base64 alphabet. *)
Definition b64_value (c : ascii) : option N :=
  if in_range 65 90 c then Some (code c - 65)%N
  else if in_range 97 122 c then Some (code c - 71)%N
  else if in_range 48 57 c then Some (code c + 4)%N
  else if (code c =? 43)%N then Some 62%N
  else if (code c =? 47)%N then Some 63%N
  else None.

Definition byte_of_N (n : N) : Byte.byte :=
  match Byte.of_N n with
  | Some b => b
  | None => Byte.x00
  end.

Definition decimal_of_nat (n : nat) : string :=
  NilEmpty.string_of_uint (Nat.to_uint n).

(** [binascii.a2b_base64] without strict mode. [quad_pos] counts the data
    characters of the current group of four, [leftchar] holds the bits not
    yet written, [pads] the padding characters seen since the last data
    character and [out] the bytes written, last first. *)
Fixpoint a2b_base64 (s : str) (quad_pos : nat) (leftchar : N) (pads : nat)
  (out : list Byte.byte) : exc bytes :=
  match s with
  | [] =>
      match quad_pos with
      | 0 => Ok (rev out)
      | 1 => Raise (ValueError
               ("Invalid base64-encoded string: number of data characters ("
                ++ decimal_of_nat (List.length out / 3 * 4 + 1)
                ++ ") cannot be 1 more than a multiple of 4"))
      | _ => Raise (ValueError "Incorrect padding")
      end
  | c :: s' =>
      if Ascii.eqb c "=" then
        if (2 <=? quad_pos) && (4 <=? quad_pos + S pads) then Ok (rev out)
        else a2b_base64 s' quad_pos leftchar
               (if 2 <=? quad_pos then S pads else pads) out
      else
        match b64_value c with
        | None => a2b_base64 s' quad_pos leftchar pads out
        | Some v =>
            match quad_pos with
            | 0 => a2b_base64 s' 1 v 0 out
            | 1 => a2b_base64 s' 2 (v mod 16)%N 0
                     (byte_of_N (leftchar * 4 + v / 16)%N :: out)
            | 2 => a2b_base64 s' 3 (v mod 4)%N 0
                     (byte_of_N (leftchar * 16 + v / 4)%N :: out)
            | _ => a2b_base64 s' 0 0%N 0
                     (byte_of_N (leftchar * 64 + v)%N :: out)
            end
        end
  end.

(** [base64.b64decode(s)] for a string [s]: the string is encoded in
    ASCII, which fails on any other character, and decoded. *)
Definition b64decode (s : str) : exc bytes :=
  if forallb (fun c => (code c <? 128)%N) s
  then a2b_base64 s 0 0%N 0 []
  else Raise (ValueError "string argument should contain only ASCII characters").

(** The body of the [try] block of [POST /scan/base64], from the request
    body to the record: a dictionary of strings, in which the empty string
    stands for a missing entry [image]. *)
Definition scan_body_base64 {L : OCRLib} (image_data : string -> option str)
  : exc ReceiptData :=
  image_bytes <- b64decode (dict_get image_data "image" []) ;;
  image <- image_open image_bytes ;;
  image <- (if mem_string (image_mode image) ["RGBA"; "P"]%string
            then image_convert image "RGB"
            else Ok image) ;;
  processed <- preprocess_image image ;;
  processed <- deskew_image processed ;;
  tc <- extract_text processed ;;
  let (raw_text, confidence) := (tc : str * Q) in
  parsed_data <- parse_receipt_text raw_text ;;
  Ok {| merchant := f_merchant parsed_data;
        date := f_date parsed_data;
        total := f_total parsed_data;
        subtotal := f_subtotal parsed_data;
        tax := f_tax parsed_data;
        tip := f_tip parsed_data;
        items := map receipt_item (f_items parsed_data);
        raw_text := raw_text;
        confidence := confidence |}.

(** [POST /scan/base64]; [job_id] is the token [uuid.uuid4()] drew. *)
Definition scan_receipt_base64 {L : OCRLib} (job_id : string)
  (image_data : string -> option str) : OCRResponse :=
  match scan_body_base64 image_data with
  | Ok receipt_data =>
      {| success := true; job_id := job_id;
         data := Some receipt_data; error := None |}
  | Raise e =>
      {| success := false; job_id := job_id;
         data := None; error := Some (exn_str e) |}
  end.

(** Two request bodies for the examples. *)
Definition body_without_image : string -> option str := fun _ => None.

Definition body_with_image (v : str) : string -> option str :=
  fun key => if String.eqb key "image" then Some v else None.

(** An expression that cannot match without consuming a digit. *)
Fixpoint needs_digit (r : re) : bool :=
  match r with
  | Cls CDigit => true
  | Cat r1 r2 => needs_digit r1 || needs_digit r2
  | Alt r1 r2 => needs_digit r1 && needs_digit r2
  | Rep lo _ _ r' => (1 <=? lo) && needs_digit r'
  | Grp _ r' => needs_digit r'
  | _ => false
  end.

(** A text without a digit. *)
Definition no_digit (s : str) : Prop := forall c, In c s -> is_digit c = false.

(** An expression without its first [n] factors. *)
Fixpoint drop_cat (n : nat) (r : re) : re :=
  match n, r with
  | S n', Cat _ r2 => drop_cat n' r2
  | _, _ => r
  end.

(** A chain without the pattern of rank [i]. *)
Fixpoint without (i : nat) (patterns : list re) : list re :=
  match i, patterns with
  | _, [] => []
  | 0, _ :: ps => ps
  | S i', p :: ps => p :: without i' ps
  end.

(** [s] stands somewhere in [text]. *)
Definition piece (s text : str) : Prop :=
  exists before after, text = before ++ s ++ after.

(** No white space at either end. *)
Definition trimmed (s : str) : Prop :=
  forall c t, s = c :: t \/ s = t ++ [c] -> is_space c = false.

(** Lower-casing a text, a match and a result. *)
Definition lower (s : str) : str := map to_lower s.

Definition lower_state (st : mstate) : mstate :=
  MState (origin st) (pos st) (lower (rest st))
         (map (fun c => (fst c, lower (snd c))) (caps st)).

Definition lower_item (it : item) : item :=
  Item (lower (item_description it)) (item_amount it).

Definition lower_fields (f : fields) : fields :=
  Fields (option_map lower (f_merchant f)) (option_map lower (f_date f))
         (f_total f) (f_subtotal f) (f_tax f) (f_tip f)
         (map lower_item (f_items f)).

(** The 256 characters. *)
Definition all_chars : list ascii := map ascii_of_nat (seq 0 256).

(** A test that does not tell a character from its lower case. *)
Definition blind_test (p : ascii -> bool) : bool :=
  forallb (fun x => Bool.eqb (p (to_lower x)) (p x)) all_chars.

(** An expression whose tests are all of that kind. *)
Fixpoint case_blind (ic : bool) (r : re) : bool :=
  match r with
  | Cat r1 r2 | Alt r1 r2 => case_blind ic r1 && case_blind ic r2
  | Rep _ _ _ r' | Grp _ r' => case_blind ic r'
  | _ => match char_test ic r with
         | Some p => blind_test p
         | None => true
         end
  end.

(** * Properties *)

(** ** The matcher *)

Lemma orelse_some {A : Type} (a b : option A) (x : A) :
  orelse a b = Some x -> a = Some x \/ b = Some x.
Proof. destruct a; simpl; intros H; [left | right]; assumption. Qed.

Lemma one_char_sound p k st fin :
  one_char p k st = Some fin ->
  exists x xs, rest st = x :: xs /\ p x = true /\ k (advance st) = Some fin.
Proof.
  unfold one_char. destruct (rest st) as [|x xs]; [discriminate|].
  destruct (p x) eqn:Hp; [|discriminate].
  intros H. exists x, xs. auto.
Qed.

Lemma rep_loop_sound ic r' g k fin
  (IH : forall k st, rmatch ic r' k st = Some fin ->
        exists st', Steps ic r' st st' /\ k st' = Some fin) :
  forall fuel lo hi st,
    rep_loop (rmatch ic r') g k fuel lo hi st = Some fin ->
    exists st', Steps ic (Rep lo hi g r') st st' /\ k st' = Some fin.
Proof.
  induction fuel as [|f IHf]; intros lo hi st H; [discriminate|].
  cbn [rep_loop] in H.
  assert (Hmore : (if hi_open hi
                   then rmatch ic r' (rep_loop (rmatch ic r') g k f (Nat.pred lo) (hi_pred hi)) st
                   else None) = Some fin ->
                  exists st', Steps ic (Rep lo hi g r') st st' /\ k st' = Some fin).
  { destruct (hi_open hi) eqn:Hopen; [|discriminate].
    intros Hm. apply IH in Hm. destruct Hm as (b & Hab & Hb).
    apply IHf in Hb. destruct Hb as (c & Hbc & Hc).
    exists c. split; [|assumption]. eapply St_RepMore; eassumption. }
  assert (Hstop : (if Nat.eqb lo 0 then k st else None) = Some fin ->
                  exists st', Steps ic (Rep lo hi g r') st st' /\ k st' = Some fin).
  { destruct (Nat.eqb lo 0) eqn:Hlo; [|discriminate].
    apply Nat.eqb_eq in Hlo. subst lo. intros Hk.
    exists st. split; [constructor | assumption]. }
  destruct g; apply orelse_some in H; destruct H; auto.
Qed.

(** Whatever the matcher answers came out of the continuation, at a state
    the expression leads to. *)
Lemma rmatch_sound ic r : forall k st fin,
  rmatch ic r k st = Some fin ->
  exists st', Steps ic r st st' /\ k st' = Some fin.
Proof.
  induction r; intros kt st fin H; cbn [rmatch] in H.
  - exists st. split; [constructor | assumption].
  - apply one_char_sound in H. destruct H as (x & xs & Hr & Hp & Hk).
    exists (advance st). split; [|assumption]. eapply St_Char; [reflexivity | eassumption | assumption].
  - apply one_char_sound in H. destruct H as (x & xs & Hr & Hp & Hk).
    exists (advance st). split; [|assumption]. eapply St_Char; [reflexivity | eassumption | assumption].
  - apply one_char_sound in H. destruct H as (x & xs & Hr & Hp & Hk).
    exists (advance st). split; [|assumption]. eapply St_Char; [reflexivity | eassumption | assumption].
  - apply one_char_sound in H. destruct H as (x & xs & Hr & Hp & Hk).
    exists (advance st). split; [|assumption]. eapply St_Char; [reflexivity | eassumption | assumption].
  - destruct (Nat.eqb (origin st + pos st) 0) eqn:Hp; [|discriminate].
    apply Nat.eqb_eq in Hp. exists st. split; [constructor; assumption | assumption].
  - exists st. destruct (rest st) as [|x [|y ys]] eqn:Hr.
    + split; [constructor; left; assumption | assumption].
    + destruct (Ascii.eqb x newline) eqn:Hx; [|discriminate].
      apply Ascii.eqb_eq in Hx. subst x.
      split; [constructor; right; assumption | assumption].
    + discriminate.
  - apply IHr1 in H. destruct H as (b & Hab & Hb).
    apply IHr2 in Hb. destruct Hb as (c & Hbc & Hc).
    exists c. split; [econstructor; eassumption | assumption].
  - apply orelse_some in H. destruct H as [H|H].
    + apply IHr1 in H. destruct H as (b & Hab & Hb).
      exists b. split; [apply St_AltL | ]; assumption.
    + apply IHr2 in H. destruct H as (b & Hab & Hb).
      exists b. split; [apply St_AltR | ]; assumption.
  - eapply rep_loop_sound; [|eassumption].
    intros kt0 st0. apply IHr.
  - apply IHr in H. destruct H as (b & Hab & Hb).
    eexists. split; [apply St_Grp; eassumption | assumption].
Qed.

Lemma search_from_sound ic r : forall s p m,
  search_from ic r p s = Some m ->
  exists pre s', s = pre ++ s' /\ match_at ic r (p + List.length pre) s' = Some m.
Proof.
  induction s as [|c s IH]; intros p m H; cbn [search_from] in H.
  - destruct (match_at ic r p []) eqn:Hm; [|discriminate].
    exists [], []. simpl. rewrite Nat.add_0_r. split; congruence.
  - destruct (match_at ic r p (c :: s)) eqn:Hm.
    + exists [], (c :: s). simpl. rewrite Nat.add_0_r. split; congruence.
    + apply IH in H. destruct H as (pre & s' & -> & H).
      exists (c :: pre), s'. simpl. split; [reflexivity|].
      rewrite Nat.add_succ_r. exact H.
Qed.

(** A match found by [re.search] went through the expression from some
    position of the subject. *)
Lemma re_search_steps ic r text m :
  re_search ic r text = Some m ->
  exists pre s', text = pre ++ s' /\
                 Steps ic r (MState (List.length pre) 0 s' []) m.
Proof.
  intros H. apply search_from_sound in H.
  destruct H as (pre & s' & Ht & H).
  exists pre, s'. split; [assumption|].
  unfold match_at in H. apply rmatch_sound in H.
  destruct H as (st' & Hs & Hk). simpl in Hs. congruence.
Qed.

Lemma re_match_steps ic r text m :
  re_match ic r text = Some m -> Steps ic r (MState 0 0 text []) m.
Proof.
  unfold re_match, match_at. intros H. apply rmatch_sound in H.
  destruct H as (st' & Hs & Hk). congruence.
Qed.

Lemma consumed_refl a : consumed a [] a.
Proof. split; simpl; [reflexivity | lia]. Qed.

Lemma consumed_trans a b c s t :
  consumed a s b -> consumed b t c -> consumed a (s ++ t) c.
Proof.
  intros [Hr1 Hp1] [Hr2 Hp2]. split.
  - rewrite Hr1, Hr2. apply app_assoc.
  - rewrite Hp2, Hp1, length_app. lia.
Qed.

Lemma consumed_set_cap a b s n t :
  consumed a s b -> consumed a s (set_cap n t b).
Proof. intros H. exact H. Qed.

Lemma consumed_firstn a s b :
  consumed a s b -> firstn (pos b - pos a) (rest a) = s.
Proof.
  intros [Hr Hp]. rewrite Hr, Hp.
  replace (pos a + List.length s - pos a) with (List.length s + 0) by lia.
  rewrite firstn_app_2. simpl. apply app_nil_r.
Qed.

(** Every step consumes a piece of the subject, in order. *)
Lemma Steps_consumed ic r a b :
  Steps ic r a b -> exists s, consumed a s b.
Proof.
  induction 1.
  - exists []. apply consumed_refl.
  - exists [x]. split; simpl.
    + rewrite H0. reflexivity.
    + lia.
  - exists []. apply consumed_refl.
  - exists []. apply consumed_refl.
  - destruct IHSteps1 as (s & Hs). destruct IHSteps2 as (t & Ht).
    exists (s ++ t). eapply consumed_trans; eassumption.
  - assumption.
  - assumption.
  - exists []. apply consumed_refl.
  - destruct IHSteps1 as (s & Hs). destruct IHSteps2 as (t & Ht).
    exists (s ++ t). eapply consumed_trans; eassumption.
  - destruct IHSteps as (s & Hs). exists s. apply consumed_set_cap. assumption.
Qed.

(** *** Inversion of [Steps] on the shape of the expression *)

Lemma Steps_cat_inv ic r1 r2 a c :
  Steps ic (Cat r1 r2) a c -> exists b, Steps ic r1 a b /\ Steps ic r2 b c.
Proof.
  intros H. inversion H; subst; try discriminate.
  eexists. split; eassumption.
Qed.

Lemma Steps_alt_inv ic r1 r2 a b :
  Steps ic (Alt r1 r2) a b -> Steps ic r1 a b \/ Steps ic r2 a b.
Proof. intros H. inversion H; subst; try discriminate; auto. Qed.

Lemma Steps_grp_inv ic n r a c :
  Steps ic (Grp n r) a c ->
  exists b, Steps ic r a b /\ c = set_cap n (firstn (pos b - pos a) (rest a)) b.
Proof.
  intros H. inversion H; subst; try discriminate.
  eexists. split; [eassumption | reflexivity].
Qed.

Lemma Steps_bol_inv ic a b :
  Steps ic Bol a b -> b = a /\ origin a + pos a = 0.
Proof. intros H. inversion H; subst; try discriminate. auto. Qed.

Lemma Steps_eol_inv ic a b :
  Steps ic Eol a b -> b = a /\ (rest a = [] \/ rest a = [newline]).
Proof. intros H. inversion H; subst; try discriminate. auto. Qed.

Lemma Steps_char_inv ic r p a b :
  char_test ic r = Some p -> Steps ic r a b ->
  exists x xs, rest a = x :: xs /\ p x = true /\ b = advance a.
Proof.
  intros Hc H. destruct r; try discriminate;
    (inversion H; subst;
     match goal with
     | Hc' : char_test _ _ = Some ?q |- _ =>
         rewrite Hc in Hc'; injection Hc' as <-; eauto
     end).
Qed.

(** A repeat of a one-character expression consumes a run of characters
    that pass its test, as many as its bounds allow, and closes no group. *)
Lemma Steps_rep_chars ic r p :
  char_test ic r = Some p ->
  forall lo hi g a b,
    Steps ic (Rep lo hi g r) a b ->
    exists s, consumed a s b /\ caps b = caps a /\ forallb p s = true /\
              lo <= List.length s /\ within (List.length s) hi.
Proof.
  intros Hc lo hi g a b H.
  remember (Rep lo hi g r) as e eqn:He.
  revert lo hi He.
  induction H; intros lo' hi' He; try discriminate.
  - subst r0. simpl in H. discriminate.
  - inversion He; subst.
    exists []. repeat split; simpl; try lia.
    destruct hi'; simpl; [lia | exact I].
  - inversion He; subst.
    destruct (Steps_char_inv Hc H0) as (x & xs & Hr & Hp & ->).
    destruct (IHSteps2 _ _ eq_refl) as (s & [Hs1 Hs2] & Hcaps & Hall & Hlo & Hhi).
    exists (x :: s). simpl in *. repeat split.
    + rewrite Hr in *. simpl in Hs1. rewrite Hs1. reflexivity.
    + simpl. lia.
    + assumption.
    + rewrite Hp, Hall. reflexivity.
    + simpl. lia.
    + destruct hi' as [[|h]|]; simpl in *; try discriminate; try lia.
Qed.

Lemma search_from_here ic r p s m :
  match_at ic r p s = Some m -> search_from ic r p s = Some m.
Proof. intros H. destruct s; cbn [search_from]; rewrite H; reflexivity. Qed.

Lemma search_from_skip ic r pre : forall p s,
  (forall i, i < List.length pre ->
             match_at ic r (p + i) (skipn i (pre ++ s)) = None) ->
  search_from ic r p (pre ++ s) = search_from ic r (p + List.length pre) s.
Proof.
  induction pre as [|c pre IH]; intros p s H.
  - simpl. rewrite Nat.add_0_r. reflexivity.
  - change ((c :: pre) ++ s) with (c :: pre ++ s). cbn [search_from].
    pose proof (H 0 (Nat.lt_0_succ _)) as H0.
    rewrite Nat.add_0_r in H0. cbn [skipn] in H0.
    change ((c :: pre) ++ s) with (c :: pre ++ s) in H0. rewrite H0.
    rewrite IH.
    + simpl List.length. rewrite Nat.add_succ_r. reflexivity.
    + intros i Hi. specialize (H (S i)). simpl in H.
      rewrite Nat.add_succ_r in H. apply H. lia.
Qed.

(** ** The matcher finds a match when there is one

    For the patterns of the service the rounds a repeat is given are
    enough: when the expression leads from a state to one where the
    continuation answers, the matcher answers. *)

Lemma orelse_answers_l {A : Type} (a b : option A) :
  a <> None -> orelse a b <> None.
Proof. destruct a; simpl; congruence. Qed.

Lemma orelse_answers_r {A : Type} (a b : option A) :
  b <> None -> orelse a b <> None.
Proof. destruct a; simpl; congruence. Qed.

Lemma orelse_answers {A : Type} (a b : option A) :
  orelse a b <> None -> a <> None \/ b <> None.
Proof. destruct a; simpl; [left; discriminate | right; assumption]. Qed.

Lemma rmatch_char ic r p k st :
  char_test ic r = Some p -> rmatch ic r k st = one_char p k st.
Proof.
  intros Hc. destruct r; try discriminate; simpl in Hc;
    injection Hc as <-; reflexivity.
Qed.

(** More rounds, or a continuation that answers more often, never lose a
    match of a repeat. *)
Lemma rep_loop_mono ic r p g k1 k2 :
  char_test ic r = Some p ->
  (forall st, answers k1 st -> answers k2 st) ->
  forall f1 f2 lo hi st,
    f1 <= f2 ->
    rep_loop (rmatch ic r) g k1 f1 lo hi st <> None ->
    rep_loop (rmatch ic r) g k2 f2 lo hi st <> None.
Proof.
  intros Hc Hk. induction f1 as [|f1 IH]; intros f2 lo hi st Hf H;
    [simpl in H; congruence|].
  destruct f2 as [|f2]; [lia|]. cbn [rep_loop] in *.
  assert (Hmore :
    (if hi_open hi
     then rmatch ic r (rep_loop (rmatch ic r) g k1 f1 (Nat.pred lo) (hi_pred hi)) st
     else None) <> None ->
    (if hi_open hi
     then rmatch ic r (rep_loop (rmatch ic r) g k2 f2 (Nat.pred lo) (hi_pred hi)) st
     else None) <> None).
  { destruct (hi_open hi); [|congruence].
    rewrite !(@rmatch_char ic r p _ _ Hc). unfold one_char.
    destruct (rest st) as [|x xs]; [congruence|].
    destruct (p x); [|congruence].
    apply IH. lia. }
  assert (Hstop : (if Nat.eqb lo 0 then k1 st else None) <> None ->
                  (if Nat.eqb lo 0 then k2 st else None) <> None).
  { destruct (Nat.eqb lo 0); [apply Hk | congruence]. }
  destruct g; apply orelse_answers in H; destruct H as [H|H];
    auto using orelse_answers_l, orelse_answers_r.
Qed.

Lemma rep_loop_complete ic r p g k :
  char_test ic r = Some p ->
  forall lo hi a b,
    Steps ic (Rep lo hi g r) a b -> answers k b ->
    rep_loop (rmatch ic r) g k (S (List.length (rest a) + lo)) lo hi a <> None.
Proof.
  intros Hc lo hi a b H.
  remember (Rep lo hi g r) as e eqn:He. revert lo hi He.
  induction H; intros lo' hi' He Hk; try discriminate.
  - subst r0. simpl in H. discriminate.
  - inversion He; subst. cbn [rep_loop Nat.eqb].
    destruct g; [apply orelse_answers_r | apply orelse_answers_l]; exact Hk.
  - inversion He; subst. clear IHSteps1.
    specialize (IHSteps2 _ _ eq_refl Hk).
    destruct (Steps_char_inv Hc H0) as (x & xs & Hr & Hp & ->).
    cbn [rep_loop]. rewrite H.
    assert (Hmore :
      rmatch ic r (rep_loop (rmatch ic r) g k (List.length (rest a) + lo')
                     (Nat.pred lo') (hi_pred hi')) a <> None).
    { rewrite (@rmatch_char ic r p _ _ Hc). unfold one_char. rewrite Hr, Hp.
      eapply (@rep_loop_mono ic r p g k k Hc); [auto | | exact IHSteps2].
      simpl. rewrite Hr. simpl. lia. }
    destruct g; [apply orelse_answers_l | apply orelse_answers_r]; exact Hmore.
Qed.

Lemma rmatch_complete ic r a b :
  Steps ic r a b -> simple ic r = true ->
  forall k, answers k b -> answers (rmatch ic r k) a.
Proof.
  unfold answers.
  induction 1; intros Hsimple k Hk.
  - exact Hk.
  - rewrite (@rmatch_char ic r p _ _ H). unfold one_char. rewrite H0, H1. exact Hk.
  - cbn [rmatch]. rewrite H. exact Hk.
  - cbn [rmatch]. destruct H as [-> | ->]; exact Hk.
  - simpl in Hsimple. apply andb_prop in Hsimple. destruct Hsimple as [S1 S2].
    cbn [rmatch]. apply (IHSteps1 S1). apply (IHSteps2 S2). exact Hk.
  - simpl in Hsimple. apply andb_prop in Hsimple. destruct Hsimple as [S1 S2].
    cbn [rmatch]. apply orelse_answers_l. apply (IHSteps S1). exact Hk.
  - simpl in Hsimple. apply andb_prop in Hsimple. destruct Hsimple as [S1 S2].
    cbn [rmatch]. apply orelse_answers_r. apply (IHSteps S2). exact Hk.
  - cbn [rmatch]. simpl in Hsimple. unfold is_char in Hsimple.
    destruct (char_test ic r) as [p|] eqn:Hc; [|discriminate].
    eapply rep_loop_complete; [exact Hc | constructor | exact Hk].
  - cbn [rmatch]. pose proof Hsimple as Hs. simpl in Hs. unfold is_char in Hs.
    destruct (char_test ic r) as [p|] eqn:Hc; [|discriminate].
    eapply rep_loop_complete; [exact Hc | | exact Hk].
    eapply St_RepMore; eassumption.
  - simpl in Hsimple. cbn [rmatch]. apply (IHSteps Hsimple). exact Hk.
Qed.

Lemma search_from_complete ic r pre : forall p s b,
  match_at ic r (p + List.length pre) s = Some b ->
  search_from ic r p (pre ++ s) <> None.
Proof.
  induction pre as [|c pre IH]; intros p s b H.
  - simpl in *. rewrite Nat.add_0_r in H.
    rewrite (@search_from_here ic r p s b H). discriminate.
  - change ((c :: pre) ++ s) with (c :: pre ++ s). cbn [search_from].
    destruct (match_at ic r p (c :: pre ++ s)); [discriminate|].
    apply (IH (S p) s b). simpl in H. rewrite Nat.add_succ_r in H. exact H.
Qed.

(** [re.search] finds a match exactly when the expression leads somewhere
    from some position of the text. *)
Theorem re_search_matches ic r text :
  simple ic r = true ->
  (re_search ic r text <> None <->
   exists pre s' b, text = pre ++ s' /\
                    Steps ic r (MState (List.length pre) 0 s' []) b).
Proof.
  intros Hs. split.
  - destruct (re_search ic r text) as [m|] eqn:E; [|congruence].
    intros _. destruct (@re_search_steps ic r text m E) as (pre & s' & Ht & H).
    exists pre, s', m. auto.
  - intros (pre & s' & b & -> & H).
    pose proof (@rmatch_complete ic r _ _ H Hs (@Some mstate)) as Hm.
    unfold answers in Hm.
    destruct (match_at ic r (List.length pre) s') as [m|] eqn:E.
    + unfold re_search. eapply search_from_complete. simpl. exact E.
    + exfalso. apply Hm; [discriminate | exact E].
Qed.

Lemma all_res_simple :
  forallb (simple true) all_res = true /\ forallb (simple false) all_res = true.
Proof. split; reflexivity. Qed.

(** ** Running the matcher on a text known in part *)

Lemma rmatch_cat ic r1 r2 k st :
  rmatch ic (Cat r1 r2) k st = rmatch ic r1 (rmatch ic r2 k) st.
Proof. reflexivity. Qed.

Lemma rmatch_grp ic g r k st :
  rmatch ic (Grp g r) k st =
  rmatch ic r (fun st' => k (set_cap g (firstn (pos st' - pos st) (rest st)) st')) st.
Proof. reflexivity. Qed.

Lemma rmatch_char_ok ic r p k o n x xs cs :
  char_test ic r = Some p -> p x = true ->
  rmatch ic r k (MState o n (x :: xs) cs) = k (MState o (S n) xs cs).
Proof.
  intros Hc Hp.
  destruct r; try discriminate; simpl in Hc; injection Hc as <-;
    cbn [rmatch]; unfold one_char; cbn [rest]; rewrite Hp; reflexivity.
Qed.

Lemma rmatch_char_fail ic r p k o n t cs :
  char_test ic r = Some p -> head_fails p t ->
  rmatch ic r k (MState o n t cs) = None.
Proof.
  intros Hc Hp.
  destruct r; try discriminate; simpl in Hc; injection Hc as <-;
    cbn [rmatch]; unfold one_char; cbn [rest];
    (destruct t as [|x t]; [reflexivity | simpl in Hp; rewrite Hp; reflexivity]).
Qed.

(** A greedy repeat of a one-character expression over a run [s] that it
    cannot extend hands the state after the run to the continuation; when
    the continuation answers there, that is the answer of the repeat. *)
Lemma rep_loop_greedy ic r p k fin :
  char_test ic r = Some p ->
  forall s fuel lo hi o n t cs,
    forallb p s = true ->
    List.length s < fuel ->
    lo <= List.length s ->
    within (List.length s) hi ->
    hi = Some (List.length s) \/ head_fails p t ->
    k (MState o (n + List.length s) t cs) = Some fin ->
    rep_loop (rmatch ic r) true k fuel lo hi (MState o n (s ++ t) cs) = Some fin.
Proof.
  intros Hc. induction s as [|x s IH];
    intros fuel lo hi o n t cs Hs Hfuel Hlo Hhi Hstop Hk;
    (destruct fuel as [|f]; [simpl in Hfuel; lia|]); cbn [rep_loop].
  - simpl in Hlo, Hk. rewrite Nat.add_0_r in Hk.
    assert (lo = 0) by lia. subst lo. cbn [Nat.eqb app]. rewrite Hk.
    destruct (hi_open hi) eqn:Ho; [|reflexivity].
    destruct Hstop as [-> | Hf]; [discriminate Ho|].
    rewrite (@rmatch_char_fail ic r p _ _ _ _ _ Hc Hf). reflexivity.
  - simpl in Hs. apply andb_prop in Hs. destruct Hs as [Hx Hs].
    simpl List.length in *.
    assert (Ho : hi_open hi = true).
    { destruct hi as [[|h]|]; simpl in *; try reflexivity. lia. }
    rewrite Ho. change ((x :: s) ++ t) with (x :: s ++ t).
    rewrite (@rmatch_char_ok ic r p _ _ _ _ _ _ Hc Hx).
    rewrite (IH f (Nat.pred lo) (hi_pred hi) o (S n) t cs); try assumption; try lia.
    + reflexivity.
    + destruct hi as [[|h]|]; simpl in *; try lia.
    + destruct Hstop as [-> | Hf]; [left; reflexivity | right; assumption].
    + rewrite <- Hk. f_equal. f_equal. lia.
Qed.

Lemma rmatch_rep_greedy ic r p k fin lo hi s o n t cs :
  char_test ic r = Some p ->
  forallb p s = true ->
  lo <= List.length s ->
  within (List.length s) hi ->
  hi = Some (List.length s) \/ head_fails p t ->
  k (MState o (n + List.length s) t cs) = Some fin ->
  rmatch ic (Rep lo hi true r) k (MState o n (s ++ t) cs) = Some fin.
Proof.
  intros Hc Hs Hlo Hhi Hstop Hk. cbn [rmatch rest].
  eapply rep_loop_greedy; try eassumption.
  rewrite length_app. lia.
Qed.

(** One step of such a run: the repeat at the head of the goal takes the
    run [run] and stops there, either at its upper bound ([at_bound]) or
    at a character its test refuses ([at_end]). *)
Ltac greedy_run run stop :=
  eapply rmatch_rep_greedy with (s := run);
  [ reflexivity | reflexivity | cbn; lia | first [exact I | cbn; lia] | stop | ].

Ltac at_bound := left; reflexivity.
Ltac at_end := right; reflexivity.

(** ** Characters *)

Ltac char_cases c :=
  destruct c as [[] [] [] [] [] [] [] []]; vm_compute; try congruence; try reflexivity.

Lemma chr_eq_dot ic x : chr_eq ic "." x = true -> x = "."%char.
Proof. revert ic. char_cases x; intros []; congruence. Qed.

Lemma plain_to_ascii c : plain c = true -> to_ascii c = c.
Proof. char_cases c. Qed.

Lemma plain_not_space c : plain c = true -> c_isspace c = false.
Proof. char_cases c. Qed.

Lemma plain_not_underscore c : plain c = true -> is_underscore c = false.
Proof. char_cases c. Qed.

Lemma digit_plain c : is_digit c = true -> plain c = true.
Proof. unfold plain. intros ->. reflexivity. Qed.

Lemma digit_not_sign c s :
  is_digit c = true -> parse_sign (c :: s) = (false, c :: s).
Proof. revert s. char_cases c. Qed.

Lemma digit_to_lower c : is_digit c = true -> to_lower c = c.
Proof. char_cases c. Qed.

Lemma digit_not_alpha c : is_digit c = true -> is_alpha c = false.
Proof. char_cases c. Qed.

Lemma digit_not_letter c x :
  is_digit c = true -> is_alpha x = true -> to_lower c <> x.
Proof.
  intros Hd Hx E. rewrite (digit_to_lower _ Hd) in E. subst x.
  rewrite (digit_not_alpha _ Hd) in Hx. discriminate.
Qed.

(** ** Strings *)

Lemma strip_by_none p s :
  forallb (fun c => negb (p c)) s = true -> strip_by p s = s.
Proof.
  intros H. unfold strip_by.
  assert (Hl : forall t, forallb (fun c => negb (p c)) t = true -> lstrip_by p t = t).
  { intros [|c t]; simpl; [reflexivity|].
    intros Ht. apply andb_prop in Ht. destruct Ht as [Hc _].
    apply negb_true_iff in Hc. rewrite Hc. reflexivity. }
  rewrite (Hl s H). rewrite Hl.
  - apply rev_involutive.
  - rewrite forallb_forall in *. intros c Hc. apply H. apply in_rev. assumption.
Qed.

Lemma forallb_impl {A : Type} (p q : A -> bool) (l : list A) :
  (forall x, p x = true -> q x = true) ->
  forallb p l = true -> forallb q l = true.
Proof.
  intros Hpq. rewrite !forallb_forall. intros H x Hx. auto.
Qed.

Lemma map_to_ascii_plain s : forallb plain s = true -> map to_ascii s = s.
Proof.
  induction s as [|c s IH]; simpl; [reflexivity|].
  intros H. apply andb_prop in H. destruct H as [Hc Hs].
  rewrite (plain_to_ascii _ Hc), (IH Hs). reflexivity.
Qed.

Lemma drop_underscores_plain s : forall prev,
  is_underscore prev = false ->
  forallb plain s = true -> drop_underscores prev s = Some s.
Proof.
  induction s as [|c s IH]; intros prev Hprev H; simpl.
  - rewrite Hprev. reflexivity.
  - simpl in H. apply andb_prop in H. destruct H as [Hc Hs].
    rewrite (plain_not_underscore _ Hc), Hprev. simpl.
    rewrite (IH c (plain_not_underscore _ Hc) Hs). reflexivity.
Qed.

Lemma span_digits_app d : forall r,
  forallb is_digit d = true ->
  match r with c :: _ => is_digit c = false | [] => True end ->
  span_digits (d ++ r) = (d, r).
Proof.
  induction d as [|c d IH]; intros r Hd Hr; simpl.
  - destruct r as [|c r]; [reflexivity|]. simpl. rewrite Hr. reflexivity.
  - simpl in Hd. apply andb_prop in Hd. destruct Hd as [Hc Hd].
    rewrite Hc, (IH r Hd Hr). reflexivity.
Qed.

Lemma span_digits_all d : forallb is_digit d = true -> span_digits d = (d, []).
Proof.
  intros H. rewrite <- (app_nil_r d) at 1. apply span_digits_app; [assumption | exact I].
Qed.

(** ** [float] on the text of an amount *)

Lemma amount_text_plain s :
  amount_text s ->
  exists c s', s = c :: s' /\ is_digit c = true /\ forallb plain s = true.
Proof.
  intros (d1 & d2 & Hne & H1 & H2 & Hs).
  destruct d1 as [|c d1]; [congruence|].
  assert (Hp1 : forallb plain (c :: d1) = true)
    by (eapply forallb_impl; [apply digit_plain | exact H1]).
  assert (Hp2 : forallb plain d2 = true)
    by (eapply forallb_impl; [apply digit_plain | exact H2]).
  simpl in H1. apply andb_prop in H1. destruct H1 as [Hc H1].
  destruct Hs as [-> | ->].
  - exists c, d1. auto.
  - exists c, (d1 ++ "."%char :: d2). repeat split; [assumption|].
    change (c :: d1 ++ "."%char :: d2) with ((c :: d1) ++ "."%char :: d2).
    rewrite forallb_app, Hp1. simpl. exact Hp2.
Qed.

Lemma parse_inf_or_nan_digit neg c s :
  is_digit c = true -> parse_inf_or_nan neg (c :: s) = None.
Proof.
  intros Hc. unfold parse_inf_or_nan, str_eqb. simpl map.
  repeat match goal with
  | |- context [list_eq_dec ascii_dec ?a ?b] =>
      destruct (list_eq_dec ascii_dec a b) as [E|_];
      [exfalso; injection E as E _;
       revert E; apply digit_not_letter; [assumption | reflexivity] |]
  end.
  reflexivity.
Qed.

Lemma parse_decimal_amount s :
  amount_text s -> exists q, parse_decimal false s = Some (Finite q).
Proof.
  intros (d1 & d2 & Hne & H1 & H2 & Hs).
  assert (Hnil : is_nil d1 = false) by (destruct d1; [congruence | reflexivity]).
  unfold parse_decimal. destruct Hs as [-> | ->].
  - rewrite (span_digits_all _ H1). rewrite Hnil. simpl. eauto.
  - rewrite (span_digits_app d1 ("."%char :: d2) H1 eq_refl).
    rewrite (span_digits_all _ H2). rewrite Hnil. simpl. eauto.
Qed.

(** [float] never refuses the text of an amount. *)
Lemma float_of_str_amount s :
  amount_text s -> exists q, float_of_str s = Ok (Finite q).
Proof.
  intros Ha.
  destruct (amount_text_plain Ha) as (c & s' & Hs & Hc & Hp).
  destruct (parse_decimal_amount Ha) as (q & Hq).
  exists q. unfold float_of_str.
  rewrite (map_to_ascii_plain _ Hp).
  rewrite strip_by_none
    by (eapply forallb_impl; [|exact Hp]; intros x Hx;
        rewrite (plain_not_space _ Hx); reflexivity).
  rewrite (drop_underscores_plain _ zero eq_refl Hp).
  unfold float_of_ascii. subst s.
  rewrite (digit_not_sign _ _ Hc), (parse_inf_or_nan_digit _ _ _ Hc), Hq.
  reflexivity.
Qed.

(** ** What the amount groups capture *)

Lemma Steps_last ic r : forall a c,
  Steps ic r a c -> exists b, Steps ic (last_of r) b c.
Proof.
  induction r; intros st fin H; try (exists st; exact H).
  simpl. apply Steps_cat_inv in H. destruct H as (b & _ & H2).
  eapply IHr2. eassumption.
Qed.

Lemma forallb_chr_dot ic s :
  forallb (chr_eq ic ".") s = true -> List.length s <= 1 ->
  s = [] \/ s = ["."%char].
Proof.
  destruct s as [|x [|y s]]; simpl; intros H Hl.
  - left. reflexivity.
  - right. rewrite andb_true_r in H. apply chr_eq_dot in H. subst. reflexivity.
  - lia.
Qed.

Lemma Steps_amount ic a b :
  Steps ic amount_re a b ->
  exists s, consumed a s b /\ caps b = caps a /\ amount_text s.
Proof.
  unfold amount_re. intros H.
  apply Steps_cat_inv in H. destruct H as (b1 & H1 & H).
  apply Steps_cat_inv in H. destruct H as (b2 & H2 & H3).
  apply (@Steps_rep_chars ic (Cls CDigit) _ eq_refl) in H1.
  apply (@Steps_rep_chars ic (Chr ".") _ eq_refl) in H2.
  apply (@Steps_rep_chars ic (Cls CDigit) _ eq_refl) in H3.
  destruct H1 as (s1 & Hc1 & Hk1 & Hd1 & Hl1 & _).
  destruct H2 as (s2 & Hc2 & Hk2 & Hd2 & _ & Hh2).
  destruct H3 as (s3 & Hc3 & Hk3 & Hd3 & _ & _).
  change (forallb is_digit s1 = true) in Hd1.
  change (forallb is_digit s3 = true) in Hd3.
  exists (s1 ++ s2 ++ s3). split; [|split].
  - eapply consumed_trans; [eassumption|].
    eapply consumed_trans; eassumption.
  - congruence.
  - simpl in Hh2. destruct (forallb_chr_dot _ _ Hd2 Hh2) as [-> | ->].
    + exists (s1 ++ s3), []. simpl. repeat split.
      * destruct s1; simpl in *; [lia | discriminate].
      * rewrite forallb_app, Hd1, Hd3. reflexivity.
      * left. reflexivity.
    + exists s1, s3. simpl in *. repeat split; try assumption.
      * destruct s1; simpl in *; [lia | discriminate].
      * right. reflexivity.
Qed.

Lemma Steps_price ic a b :
  Steps ic price_re a b ->
  exists s, consumed a s b /\ caps b = caps a /\ amount_text s.
Proof.
  unfold price_re. intros H.
  apply Steps_cat_inv in H. destruct H as (b1 & H1 & H).
  apply Steps_cat_inv in H. destruct H as (b2 & H2 & H3).
  apply (@Steps_rep_chars ic (Cls CDigit) _ eq_refl) in H1.
  apply (@Steps_char_inv ic (Chr ".") _ _ _ eq_refl) in H2.
  apply (@Steps_rep_chars ic (Cls CDigit) _ eq_refl) in H3.
  destruct H1 as (s1 & Hc1 & Hk1 & Hd1 & Hl1 & _).
  destruct H2 as (x & xs & Hr2 & Hx & ->).
  destruct H3 as (s3 & Hc3 & Hk3 & Hd3 & _ & _).
  change (forallb is_digit s1 = true) in Hd1.
  change (forallb is_digit s3 = true) in Hd3.
  apply chr_eq_dot in Hx. subst x.
  assert (Hc2 : consumed b1 ["."%char] (advance b1)).
  { split; simpl; [rewrite Hr2; reflexivity | lia]. }
  exists (s1 ++ ["."%char] ++ s3). split; [|split].
  - eapply consumed_trans; [eassumption|].
    eapply consumed_trans; eassumption.
  - simpl in *. congruence.
  - exists s1, s3. simpl in *. repeat split; try assumption.
    + destruct s1; simpl in *; [lia | discriminate].
    + right. reflexivity.
Qed.

Lemma Steps_grp_capture ic n r a c :
  Steps ic (Grp n r) a c ->
  exists b s, Steps ic r a b /\ consumed a s b /\ c = set_cap n s b.
Proof.
  intros H. apply Steps_grp_inv in H. destruct H as (b & Hs & ->).
  destruct (Steps_consumed Hs) as (s & Hc).
  exists b, s. rewrite (consumed_firstn Hc). auto.
Qed.

Lemma group_set_cap n s b : group (set_cap n s b) n = Some s.
Proof. unfold group. simpl. rewrite Nat.eqb_refl. reflexivity. Qed.

(** A pattern that ends in the amount group captures the text of an
    amount whenever it matches. *)
Lemma amount_capture r text m :
  last_of r = Grp 1 amount_re ->
  re_search true r text = Some m ->
  exists s, group m 1 = Some s /\ amount_text s.
Proof.
  intros Hl H. apply re_search_steps in H. destruct H as (pre & s' & _ & H).
  apply Steps_last in H. destruct H as (b & H). rewrite Hl in H.
  apply Steps_grp_capture in H. destruct H as (b' & s & Hs & Hc & ->).
  apply Steps_amount in Hs. destruct Hs as (s0 & Hc0 & _ & Ha).
  exists s. split; [apply group_set_cap|].
  destruct Hc as [Hr1 _], Hc0 as [Hr0 _].
  rewrite Hr1 in Hr0. apply app_inv_tail in Hr0. congruence.
Qed.

Lemma amount_res_last r : In r amount_res -> last_of r = Grp 1 amount_re.
Proof.
  unfold amount_res. simpl.
  intros H. repeat (destruct H as [<- | H]; [reflexivity|]). contradiction.
Qed.

Lemma try_float_amount m s :
  group m 1 = Some s -> amount_text s ->
  exists q, float_of_str s = Ok (Finite q) /\ try_float m = Ok (Some (Finite q)).
Proof.
  intros Hg Ha. destruct (float_of_str_amount Ha) as (q & Hq).
  exists q. split; [assumption|].
  unfold try_float. rewrite Hg. simpl. rewrite Hq. reflexivity.
Qed.

(** ** The item pattern *)

Lemma item_capture line m :
  re_match false item_re line = Some m ->
  exists d p, caps m = [(2, p); (1, d)] /\ amount_text p.
Proof.
  intros H. apply re_match_steps in H. unfold item_re in H.
  apply Steps_cat_inv in H. destruct H as (b0 & H0 & H).
  apply Steps_bol_inv in H0. destruct H0 as [-> _].
  apply Steps_cat_inv in H. destruct H as (b1 & H1 & H).
  apply Steps_grp_capture in H1. destruct H1 as (b1' & d & H1 & _ & ->).
  apply (@Steps_rep_chars false Dot _ eq_refl) in H1.
  destruct H1 as (_ & _ & Hk1 & _).
  apply Steps_cat_inv in H. destruct H as (b2 & H2 & H).
  apply (@Steps_rep_chars false (Cls CSpace) _ eq_refl) in H2.
  destruct H2 as (_ & _ & Hk2 & _).
  apply Steps_cat_inv in H. destruct H as (b3 & H3 & H).
  apply (@Steps_rep_chars false (Chr "$") _ eq_refl) in H3.
  destruct H3 as (_ & _ & Hk3 & _).
  apply Steps_cat_inv in H. destruct H as (b4 & H4 & H).
  apply Steps_grp_capture in H4. destruct H4 as (b4' & p & Hp & Hcp & ->).
  apply Steps_cat_inv in H. destruct H as (b5 & H5 & H6).
  apply (@Steps_rep_chars false (Cls CSpace) _ eq_refl) in H5.
  destruct H5 as (_ & _ & Hk5 & _).
  apply Steps_eol_inv in H6. destruct H6 as [-> _].
  apply Steps_price in Hp. destruct Hp as (p' & Hcp' & Hk4 & Ha).
  assert (p' = p).
  { destruct Hcp as [E1 _], Hcp' as [E2 _]. rewrite E2 in E1.
    apply app_inv_tail in E1. assumption. }
  subst p'. exists d, p. split; [|assumption].
  rewrite Hk5. simpl. rewrite Hk4, Hk3, Hk2. simpl. rewrite Hk1. reflexivity.
Qed.

Lemma Qltb_lt a b : Qltb a b = true <-> (a < b)%Q.
Proof.
  unfold Qltb. rewrite negb_true_iff. split.
  - intros H. apply Qnot_le_lt. intros Hle.
    apply Qle_bool_iff in Hle. congruence.
  - intros H. destruct (Qle_bool b a) eqn:E; [|reflexivity].
    apply Qle_bool_iff in E. exfalso. eapply Qlt_not_le; eassumption.
Qed.

(** The guard of the code is the guard of the specification. *)
Lemma item_ok_accepted d q : item_ok d (Finite q) = true <-> accepted (d, q).
Proof.
  unfold item_ok, accepted, float_gt. simpl.
  rewrite !andb_true_iff, Nat.ltb_lt, !Qltb_lt. tauto.
Qed.

Lemma item_step_spec acc line :
  item_step acc line = Ok (acc ++ line_items line).
Proof.
  unfold item_step, line_items, candidate.
  destruct (found (re_search true skip_re line)).
  - rewrite app_nil_r. reflexivity.
  - destruct (re_match false item_re line) as [m|] eqn:Hm.
    + destruct (item_capture _ Hm) as (d & p & Hcaps & Ha).
      unfold group. rewrite Hcaps. simpl.
      destruct (float_of_str_amount Ha) as (q & ->). simpl.
      destruct (item_ok (strip d) (Finite q)); [reflexivity|].
      rewrite app_nil_r. reflexivity.
    + rewrite app_nil_r. reflexivity.
Qed.

Lemma collect_items_spec lines : forall acc,
  collect_items acc lines = Ok (acc ++ flat_map line_items lines).
Proof.
  induction lines as [|line lines IH]; intros acc; simpl.
  - rewrite app_nil_r. reflexivity.
  - rewrite item_step_spec. simpl. rewrite IH, <- app_assoc. reflexivity.
Qed.

(** ** The amount fields *)

Lemma first_match_in ps text m :
  first_match ps text = Some m ->
  exists p, In p ps /\ re_search true p text = Some m.
Proof.
  induction ps as [|p ps IH]; simpl; [discriminate|].
  destruct (re_search true p text) as [m'|] eqn:E.
  - intros H. injection H as <-. exists p. auto.
  - intros H. destruct (IH H) as (p' & Hin & Hp'). exists p'. auto.
Qed.

Lemma capture_value_amount r text m :
  last_of r = Grp 1 amount_re ->
  re_search true r text = Some m ->
  exists s q, group m 1 = Some s /\ amount_text s /\
              float_of_str s = Ok (Finite q) /\
              capture_value m = Some (Finite q) /\
              try_float m = Ok (Some (Finite q)).
Proof.
  intros Hl H. destruct (amount_capture _ _ Hl H) as (s & Hg & Ha).
  destruct (try_float_amount _ Hg Ha) as (q & Hq & Ht).
  exists s, q. repeat split; try assumption.
  unfold capture_value. rewrite Hg, Hq. reflexivity.
Qed.

Lemma first_amount_spec ps text :
  (forall p, In p ps -> last_of p = Grp 1 amount_re) ->
  first_amount ps text = Ok (chain_value ps text).
Proof.
  unfold chain_value. induction ps as [|p ps IH]; intros Hps; simpl; [reflexivity|].
  destruct (re_search true p text) as [m|] eqn:E.
  - destruct (capture_value_amount _ _ (Hps p (or_introl eq_refl)) E)
      as (s & q & _ & _ & _ & Hv & Ht).
    rewrite Ht, Hv. reflexivity.
  - apply IH. intros p' Hp'. apply Hps. right. assumption.
Qed.

Lemma one_amount_spec p text :
  last_of p = Grp 1 amount_re ->
  one_amount p text = Ok (chain_value [p] text).
Proof.
  intros Hl. unfold one_amount, chain_value. simpl.
  destruct (re_search true p text) as [m|] eqn:E; [|reflexivity].
  destruct (capture_value_amount _ _ Hl E) as (s & q & _ & _ & _ & Hv & Ht).
  rewrite Ht, Hv. reflexivity.
Qed.

(** [parse_receipt_text] never raises, and this is what it returns. *)
Lemma parse_receipt_text_spec text :
  parse_receipt_text text =
  Ok (Fields (first_merchant (firstn 5 (text_lines text)))
             (first_date date_res text)
             (chain_value total_res text)
             (chain_value [subtotal_re] text)
             (chain_value tax_res text)
             (chain_value [tip_re] text)
             (flat_map line_items (text_lines text))).
Proof.
  unfold parse_receipt_text.
  assert (Htotal : forall p, In p total_res -> last_of p = Grp 1 amount_re).
  { intros p Hp. simpl in Hp.
    repeat (destruct Hp as [<- | Hp]; [reflexivity|]). contradiction. }
  assert (Htax : forall p, In p tax_res -> last_of p = Grp 1 amount_re).
  { intros p Hp. simpl in Hp.
    repeat (destruct Hp as [<- | Hp]; [reflexivity|]). contradiction. }
  rewrite (first_amount_spec _ text Htotal).
  rewrite (@one_amount_spec subtotal_re text eq_refl).
  rewrite (first_amount_spec _ text Htax).
  rewrite (@one_amount_spec tip_re text eq_refl).
  simpl bind.
  rewrite collect_items_spec. reflexivity.
Qed.

(** ** Priority chains *)

Lemma first_match_none ps text :
  first_match ps text = None <->
  forall p, In p ps -> re_search true p text = None.
Proof.
  induction ps as [|p ps IH]; simpl.
  - split; [intros _ p [] | reflexivity].
  - destruct (re_search true p text) as [m|] eqn:E.
    + split; [discriminate|]. intros H.
      rewrite (H p (or_introl eq_refl)) in E. discriminate.
    + rewrite IH. split.
      * intros H q [<- | Hq]; auto.
      * intros H q Hq. apply H. right. assumption.
Qed.

Lemma first_match_some ps text m :
  first_match ps text = Some m <-> exists i p, first_at ps text i p m.
Proof.
  unfold first_at. induction ps as [|p ps IH]; simpl.
  - split; [discriminate|]. intros (i & q & H & _). destruct i; discriminate.
  - destruct (re_search true p text) as [m'|] eqn:E.
    + split.
      * intros H. injection H as <-. exists 0, p. repeat split; try assumption.
        intros j q Hj. lia.
      * intros ([|i] & q & Hn & Hs & Hearlier).
        -- simpl in Hn. injection Hn as <-. congruence.
        -- specialize (Hearlier 0 p (Nat.lt_0_succ _) eq_refl). congruence.
    + rewrite IH. split.
      * intros (i & q & Hn & Hs & Hearlier). exists (S i), q.
        repeat split; try assumption.
        intros [|j] q' Hj Hq'; simpl in Hq'.
        -- injection Hq' as <-. assumption.
        -- apply (Hearlier j q'); [lia | assumption].
      * intros ([|i] & q & Hn & Hs & Hearlier); simpl in Hn.
        -- injection Hn as <-. congruence.
        -- exists i, q. repeat split; try assumption.
           intros j q' Hj Hq'. apply (Hearlier (S j) q'); [lia | assumption].
Qed.

Lemma chain_value_set ps text :
  (forall p, In p ps -> last_of p = Grp 1 amount_re) ->
  set_by_first_match (chain_value ps text) ps text.
Proof.
  intros Hps. unfold set_by_first_match, chain_value.
  destruct (first_match ps text) as [m|] eqn:E; [|reflexivity].
  destruct (first_match_in _ _ E) as (p & Hin & Hs).
  destruct (capture_value_amount _ _ (Hps p Hin) Hs)
    as (s & q & Hg & Ha & Hf & Hv & _).
  exists s, (Finite q). auto.
Qed.

Lemma first_date_spec ps text :
  first_date ps text =
  match first_match ps text with
  | Some m => group m 1
  | None => None
  end.
Proof.
  induction ps as [|p ps IH]; simpl; [reflexivity|].
  destruct (re_search true p text); [reflexivity | exact IH].
Qed.

(** ** The body of a scan *)

(** The body of a scan returns exactly when every stage returned, and
    then with the record assembled from what the stages returned. *)
Lemma scan_body_ok (L : OCRLib) (contents : exc bytes) (d : ReceiptData) :
  scan_body contents = Ok d <->
  exists text conf f,
    stages_returned L contents text conf f /\
    d = assemble text (scalar_confidence conf) f.
Proof.
  unfold scan_body, stages_returned. split.
  - destruct contents as [b|e]; cbn [bind]; [|discriminate].
    destruct (image_open b) as [img|e] eqn:H1; cbn [bind]; [|discriminate].
    destruct (if mem_string (image_mode img) ["RGBA"; "P"]%string
              then image_convert img "RGB" else Ok img) as [img'|e] eqn:H2;
      cbn [bind]; [|discriminate].
    destruct (preprocess_image img') as [p1|e] eqn:H3; cbn [bind]; [|discriminate].
    destruct (deskew_image p1) as [p2|e] eqn:H4; cbn [bind]; [|discriminate].
    unfold extract_text.
    destruct (image_to_data_conf p2) as [conf|e] eqn:H5; cbn [bind]; [|discriminate].
    destruct (image_to_string p2) as [text|e] eqn:H6; cbn [bind]; [|discriminate].
    destruct (parse_receipt_text text) as [f|e] eqn:H7; cbn [bind]; [|discriminate].
    intros E. injection E as <-.
    exists text, conf, f. split; [|reflexivity].
    exists b, img, img', p1, p2. rewrite H2. auto 10.
  - intros (text & conf & f & (b & img & img' & p1 & p2 & -> & H1 & H2 & H3 & H4 & H5 & H6 & H7) & ->).
    cbn [bind]. rewrite H1. cbn [bind]. rewrite H2. cbn [bind].
    rewrite H3. cbn [bind]. rewrite H4. cbn [bind].
    unfold extract_text. rewrite H5. cbn [bind]. rewrite H6. cbn [bind].
    rewrite H7. reflexivity.
Qed.

(** * The claims *)

(** ** The example receipt *)

(** C1. On the receipt of the specification's example the extractor
    returns the merchant, the subtotal, the tax and the two items the
    specification lists, and the total 5.75: the pattern of the total
    matches first inside the line [Subtotal 5.75]. *)
Theorem C1_joes_diner :
  parse_receipt_text joes_diner =
  Ok {| f_merchant := Some (lit "Joe's Diner");
        f_date := None;
        f_total := Some (fl 5.75);
        f_subtotal := Some (fl 5.75);
        f_tax := Some (fl 0.50);
        f_tip := None;
        f_items := [ Item (lit "Coffee") (fl 3.50);
                     Item (lit "Bagel") (fl 2.25) ] |}.
Proof. vm_compute. reflexivity. Qed.

(** Where the total of the example comes from: the match of the first
    total pattern ends at position 73, the end of the line
    [Subtotal 5.75]; the line [Total: $6.25] only starts at position 83. *)
Lemma joes_diner_total_match :
  option_map (fun m => (m_end m, group m 1))
             (re_search true (nth 0 total_res Empty) joes_diner)
  = Some (73, Some (lit "5.75")).
Proof. vm_compute. reflexivity. Qed.

(** ** The priority of the total patterns *)

(** The first total pattern matches at [Total: 10.00] and captures all of
    [10.00] when no digit follows. *)
Lemma total_match_here p c tail :
  is_digit c = false ->
  match_at true total_re p (lit "Total: 10.00" ++ c :: tail)
  = Some (MState p 12 (c :: tail) [(1, lit "10.00")]).
Proof.
  intros Hc. unfold match_at, total_re, total_res. cbn [nth].
  cbn [lit list_ascii_of_string app].
  do 5 (rewrite rmatch_cat; erewrite rmatch_char_ok; [|reflexivity|reflexivity]).
  rewrite rmatch_cat.
  greedy_run (lit ": ") at_end.
  rewrite rmatch_cat.
  greedy_run (@nil ascii) at_end.
  rewrite rmatch_grp, rmatch_cat.
  greedy_run (lit "10") at_end.
  rewrite rmatch_cat.
  greedy_run (lit ".") at_bound.
  greedy_run (lit "00") ltac:(right; exact Hc).
  reflexivity.
Qed.

Lemma tie_break_total (pre mid post : str) :
  (forall i, i < List.length pre ->
     match_at true total_re i (skipn i (tie_break_text pre mid post)) = None) ->
  (forall c mid', mid = c :: mid' -> is_digit c = false) ->
  chain_value total_res (tie_break_text pre mid post) = Some (fl 10.00).
Proof.
  intros Hpre Hmid.
  unfold chain_value.
  assert (Hm : re_search true total_re (tie_break_text pre mid post)
               = Some (MState (List.length pre) 12
                         (mid ++ lit "Grand Total: 12.00" ++ post)
                         [(1, lit "10.00")])).
  { unfold re_search.
    unfold tie_break_text at 1.
    rewrite (@search_from_skip true total_re pre 0 _ Hpre).
    apply search_from_here. destruct mid as [|c mid'].
    - exact (@total_match_here _ "G"%char
               (lit "rand Total: 12.00" ++ post) eq_refl).
    - exact (@total_match_here _ c (mid' ++ lit "Grand Total: 12.00" ++ post)
               (Hmid c mid' eq_refl)). }
  change total_res with (total_re :: tl total_res).
  cbn [first_match]. rewrite Hm. vm_compute. reflexivity.
Qed.

(** The first total pattern only matches where the keyword starts. *)
Lemma total_needs_keyword p s :
  ~ total_keyword_at s -> match_at true total_re p s = None.
Proof.
  intros H. unfold match_at, total_re, total_res. cbn [nth].
  destruct s as [|c1 [|c2 [|c3 [|c4 [|c5 s]]]]];
    repeat (rewrite rmatch_cat;
            match goal with
            | |- rmatch true (Chr _) _ (MState _ _ [] _) = None =>
                eapply rmatch_char_fail; [reflexivity | exact I]
            | |- rmatch true (Chr ?x) _ (MState _ _ (?c :: _) _) = None =>
                let E := fresh "E" in
                destruct (chr_eq true x c) eqn:E;
                [ erewrite rmatch_char_ok; [|reflexivity | exact E]
                | eapply rmatch_char_fail; [reflexivity | exact E] ]
            end); try reflexivity.
  exfalso. apply H. unfold total_keyword_at, chr_eq in *. cbn [firstn map].
  repeat match goal with
         | E : Ascii.eqb _ _ = true |- _ => apply Ascii.eqb_eq in E
         end.
  repeat match goal with
         | E : _ = to_lower ?c |- _ => rewrite <- E; clear E
         end.
  reflexivity.
Qed.

(** The same with the premise on the text alone: the keyword [total]
    starts at no earlier position. *)
Lemma tie_break_total_keyword (pre mid post : str) :
  (forall i, i < List.length pre ->
     ~ total_keyword_at (skipn i (tie_break_text pre mid post))) ->
  (forall c mid', mid = c :: mid' -> is_digit c = false) ->
  chain_value total_res (tie_break_text pre mid post) = Some (fl 10.00).
Proof.
  intros Hpre Hmid. apply tie_break_total; [|exact Hmid].
  intros i Hi. apply total_needs_keyword. apply Hpre. exact Hi.
Qed.

(** C2, as the code has it. In a text where [Total: 10.00] comes before
    [Grand Total: 12.00], the first total pattern matches at no earlier
    position, and no digit follows [Total: 10.00], the total is 10.00. *)
Theorem C2_total_before_grand_total (pre mid post : str) :
  (forall i, i < List.length pre ->
     match_at true total_re i (skipn i (tie_break_text pre mid post)) = None) ->
  (forall c mid', mid = c :: mid' -> is_digit c = false) ->
  exists f, parse_receipt_text (tie_break_text pre mid post) = Ok f /\
            f_total f = Some (fl 10.00).
Proof.
  intros Hpre Hmid.
  rewrite parse_receipt_text_spec. eexists. split; [reflexivity|].
  cbn [f_total]. apply tie_break_total; assumption.
Qed.

Lemma C2_total_before_grand_total_witness :
  exists f,
    parse_receipt_text (tie_break_text (lit "Cafe ") (lit " ") []) = Ok f /\
    f_total f = Some (fl 10.00).
Proof.
  apply C2_total_before_grand_total.
  - intros i Hi.
    do 5 (destruct i as [|i]; [vm_compute; reflexivity|]).
    simpl in Hi. lia.
  - intros c mid' E. injection E as <- _. reflexivity.
Defined.

(** A digit right after [Total: 10.00] is taken into the amount. *)
Lemma C2_counterexample :
  let text := tie_break_text (lit "Cafe ") (lit "5 ") [] in
  text = lit "Cafe Total: 10.005 Grand Total: 12.00" /\
  (forall p i, In p total_res -> i < 5 ->
               match_at true p i (skipn i text) = None) /\
  exists f, parse_receipt_text text = Ok f /\
            f_total f = Some (fl 10.005) /\ f_total f <> Some (fl 10.00).
Proof.
  cbv zeta. split; [reflexivity|]. split.
  - intros p i Hp Hi. simpl in Hp.
    repeat (destruct Hp as [<- | Hp];
            [do 5 (destruct i as [|i]; [vm_compute; reflexivity|]); lia|]).
    contradiction.
  - eexists. split; [vm_compute; reflexivity|].
    split; [reflexivity | discriminate].
Qed.

(** ** The scalar confidence *)

Lemma Zsum_positive_bounds (l : list Z) :
  Forall (fun c => (0 < c <= 100)%Z) l ->
  (0 <= Zsum l <= 100 * Z.of_nat (List.length l))%Z.
Proof.
  induction 1 as [|c l Hc _ IH]; simpl Zsum; simpl List.length; lia.
Qed.

Lemma positive_in_range (conf : list Z) :
  Forall conf_in_range conf ->
  Forall (fun c => (0 < c <= 100)%Z) (filter (fun c => (0 <? c)%Z) conf).
Proof.
  intros H. apply Forall_forall. intros c Hc.
  apply filter_In in Hc. destruct Hc as [Hin Hpos].
  rewrite Forall_forall in H. specialize (H c Hin).
  unfold conf_in_range in H. apply Z.ltb_lt in Hpos. lia.
Qed.

Lemma scalar_confidence_none (conf : list Z) :
  filter (fun c => (0 <? c)%Z) conf = [] -> scalar_confidence conf = (0 / 100)%Q.
Proof. unfold scalar_confidence. intros ->. reflexivity. Qed.

Lemma scalar_confidence_some (conf : list Z) :
  filter (fun c => (0 <? c)%Z) conf <> [] ->
  scalar_confidence conf = (positive_mean conf / 100)%Q.
Proof.
  unfold scalar_confidence, positive_mean.
  destruct (filter (fun c => (0 <? c)%Z) conf); [congruence | reflexivity].
Qed.

Lemma scalar_confidence_bounds (conf : list Z) :
  Forall conf_in_range conf ->
  (0 <= scalar_confidence conf)%Q /\ (scalar_confidence conf <= 1)%Q.
Proof.
  intros H. apply positive_in_range in H.
  destruct (filter (fun c => (0 <? c)%Z) conf) as [|c l] eqn:E.
  - rewrite (scalar_confidence_none _ E). split; discriminate.
  - rewrite scalar_confidence_some by congruence.
    unfold positive_mean. rewrite E.
    apply Zsum_positive_bounds in H.
    set (n := Z.of_nat (List.length (c :: l))) in *.
    set (t := Zsum (c :: l)) in *.
    assert (Hn : (0 < inject_Z n)%Q).
    { change (0%Q) with (inject_Z 0). rewrite <- Zlt_Qlt.
      unfold n. simpl List.length. lia. }
    assert (H100 : (0 < 100)%Q) by reflexivity.
    split.
    + apply Qle_shift_div_l; [assumption|].
      apply Qle_shift_div_l; [assumption|].
      rewrite !Qmult_0_l. change (0%Q) with (inject_Z 0).
      rewrite <- Zle_Qle. lia.
    + apply Qle_shift_div_r; [assumption|].
      apply Qle_shift_div_r; [assumption|].
      change (1 * 100)%Q with (inject_Z 100).
      rewrite <- inject_Z_mult, <- Zle_Qle. lia.
Qed.

(** C3. With the text, [extract_text] returns the scalar confidence of
    the token confidences the recogniser gave. For token confidences
    between -1 and 100 it is the mean of the positive ones over a hundred,
    and zero when none is positive; it lies between 0 and 1. The
    confidence of a successful scan is the one of the token confidences
    its recogniser returned, so it lies between 0 and 1 when the
    recogniser keeps to that range. *)
Theorem C3_scalar_confidence (L : OCRLib) (conf : list Z) :
  Forall conf_in_range conf ->
  (forall (image : Image) l,
      image_to_data_conf image = Ok l -> Forall conf_in_range l) ->
  (forall (image : Image) text,
      image_to_data_conf image = Ok conf -> image_to_string image = Ok text ->
      extract_text image = Ok (text, scalar_confidence conf)) /\
  (filter (fun c => (0 <? c)%Z) conf = [] -> (scalar_confidence conf == 0)%Q) /\
  (filter (fun c => (0 <? c)%Z) conf <> [] ->
     (scalar_confidence conf == positive_mean conf / 100)%Q) /\
  (0 <= scalar_confidence conf)%Q /\ (scalar_confidence conf <= 1)%Q /\
  (forall job contents d,
      data (scan job contents) = Some d ->
      (exists text l f,
          stages_returned L contents text l f /\
          raw_text d = text /\ confidence d = scalar_confidence l) /\
      (0 <= confidence d)%Q /\ (confidence d <= 1)%Q).
Proof.
  intros Hconf Hlib. split; [|split; [|split; [|split; [|split]]]].
  - intros image text Hc Ht. unfold extract_text.
    rewrite Hc. cbn [bind]. rewrite Ht. reflexivity.
  - intros E. rewrite (scalar_confidence_none _ E). reflexivity.
  - intros E. rewrite (scalar_confidence_some _ E). reflexivity.
  - apply scalar_confidence_bounds. assumption.
  - apply scalar_confidence_bounds. assumption.
  - intros job contents d. unfold scan.
    destruct (scan_body contents) as [d'|e] eqn:Hb; simpl; [|discriminate].
    intros Hd. injection Hd as ->. apply scan_body_ok in Hb.
    destruct Hb as (text & l & f & Hst & ->).
    split; [exists text, l, f; auto|].
    destruct Hst as (b & img & img' & p1 & p2 & _ & _ & _ & _ & _ & Hl & _).
    cbn [assemble confidence].
    apply scalar_confidence_bounds. eapply Hlib. eassumption.
Qed.

Lemma C3_scalar_confidence_witness :
  extract_text (L := example_lib None [-1; 90; 0; 80]%Z (lit "Total 5")) 0
    = Ok (lit "Total 5", scalar_confidence [-1; 90; 0; 80]%Z) /\
  (scalar_confidence [-1; 90; 0; 80]%Z == 85 / 100)%Q /\
  (forall d,
      data (scan (L := example_lib None [-1; 90; 0; 80]%Z (lit "Total 5"))
                 "job" (Ok [])) = Some d ->
      confidence d = scalar_confidence [-1; 90; 0; 80]%Z /\
      (0 <= confidence d)%Q /\ (confidence d <= 1)%Q).
Proof.
  assert (H1 : Forall conf_in_range [-1; 90; 0; 80]%Z).
  { repeat constructor; unfold conf_in_range; lia. }
  assert (H2 : forall (image : @Image (example_lib None [-1; 90; 0; 80]%Z (lit "Total 5"))) l,
             image_to_data_conf image = Ok l -> Forall conf_in_range l).
  { intros image l E. simpl in E. injection E as <-. exact H1. }
  destruct (@C3_scalar_confidence _ [-1; 90; 0; 80]%Z H1 H2)
    as (Hext & _ & Hmean & _ & _ & Hscan).
  split; [exact (Hext 0 (lit "Total 5") eq_refl eq_refl)|]. split.
  - rewrite Hmean by (simpl; discriminate). reflexivity.
  - intros d Hd. destruct (Hscan _ _ d Hd) as ((text & l & f & Hst & _ & Hc) & Hb).
    split; [|exact Hb]. rewrite Hc.
    destruct Hst as (b & img & img' & p1 & p2 & _ & _ & _ & _ & _ & Hl & _).
    simpl in Hl. injection Hl as <-. reflexivity.
Defined.

(** ** The skew corrector *)

(** *** Rounding *)

Lemma two_pos (e : Z) : (0 < 2 ^ e)%Q.
Proof. apply Qpower_0_lt. reflexivity. Qed.

Lemma two_neq : ~ (2 == 0)%Q.
Proof. discriminate. Qed.

Lemma Qlog2_spec (q : Q) :
  (0 < q)%Q -> (2 ^ Qlog2 q <= q)%Q /\ (q < 2 ^ (Qlog2 q + 1))%Q.
Proof.
  intros Hq. destruct q as [n d]. 
  assert (Hn : (0 < n)%Z) by (unfold Qlt in Hq; simpl in Hq; lia).
  unfold Qlog2. cbn [Qnum Qden].
  set (a := Z.log2 n). set (b := Z.log2 (Z.pos d)).
  assert (Ha0 : (0 <= a)%Z) by apply Z.log2_nonneg.
  assert (Hb0 : (0 <= b)%Z) by apply Z.log2_nonneg.
  destruct (Z.log2_spec n Hn) as [Ha1 Ha2]. fold a in Ha1, Ha2.
  destruct (Z.log2_spec (Z.pos d) (Pos2Z.is_pos d)) as [Hb1 Hb2].
  fold b in Hb1, Hb2.
  assert (HD : (0 < inject_Z (Z.pos d))%Q) by reflexivity.
  assert (Eq : (n # d == inject_Z n / inject_Z (Z.pos d))%Q) by apply Qmake_Qdiv.
  assert (QA1 : (2 ^ a <= inject_Z n)%Q).
  { change 2%Q with (inject_Z 2). rewrite <- Zpower_Qpower by exact Ha0.
    rewrite <- Zle_Qle. exact Ha1. }
  assert (QA2 : (inject_Z n < 2 ^ (a + 1))%Q).
  { change 2%Q with (inject_Z 2). rewrite <- Zpower_Qpower by lia.
    rewrite <- Zlt_Qlt. replace (a + 1)%Z with (Z.succ a) by lia. exact Ha2. }
  assert (QB1 : (2 ^ b <= inject_Z (Z.pos d))%Q).
  { change 2%Q with (inject_Z 2). rewrite <- Zpower_Qpower by exact Hb0.
    rewrite <- Zle_Qle. exact Hb1. }
  assert (QB2 : (inject_Z (Z.pos d) < 2 ^ (b + 1))%Q).
  { change 2%Q with (inject_Z 2). rewrite <- Zpower_Qpower by lia.
    rewrite <- Zlt_Qlt. replace (b + 1)%Z with (Z.succ b) by lia. exact Hb2. }
  assert (Hup : (n # d < 2 ^ (a - b + 1))%Q).
  { rewrite Eq. apply Qlt_shift_div_r; [exact HD|].
    eapply Qlt_le_trans; [exact QA2|].
    replace (a + 1)%Z with ((a - b + 1) + b)%Z by lia.
    rewrite (Qpower_plus _ _ _ two_neq).
    apply Qmult_le_l; [apply two_pos | exact QB1]. }
  assert (Hlo : (2 ^ (a - b - 1) <= n # d)%Q).
  { rewrite Eq. apply Qle_shift_div_l; [exact HD|].
    eapply Qle_trans; [|exact QA1].
    replace a with ((a - b - 1) + (b + 1))%Z at 2 by lia.
    rewrite (Qpower_plus _ _ _ two_neq).
    apply Qmult_le_l; [apply two_pos | apply Qlt_le_weak; exact QB2]. }
  destruct (Qle_bool (2 ^ (a - b)) (n # d)) eqn:E.
  - apply Qle_bool_iff in E. split; [exact E | exact Hup].
  - split; [exact Hlo|].
    replace (a - b - 1 + 1)%Z with (a - b)%Z by lia.
    apply Qnot_le_lt. intros H. apply Qle_bool_iff in H. congruence.
Qed.

Lemma Qlog2_le (x y : Q) :
  (0 < x)%Q -> (x <= y)%Q -> (Qlog2 x <= Qlog2 y)%Z.
Proof.
  intros Hx Hxy.
  assert (Hy : (0 < y)%Q) by (eapply Qlt_le_trans; eassumption).
  destruct (Qlog2_spec Hx) as [H1 _]. destruct (Qlog2_spec Hy) as [_ H2].
  assert (H : (2 ^ Qlog2 x < 2 ^ (Qlog2 y + 1))%Q).
  { eapply Qle_lt_trans; [exact H1|]. eapply Qle_lt_trans; eassumption. }
  apply Qpower_lt_compat_l_inv in H; [lia | reflexivity].
Qed.

Lemma Qround_even_range (q : Q) :
  (Qfloor q <= Qround_even q <= Qfloor q + 1)%Z.
Proof.
  unfold Qround_even.
  destruct (q - inject_Z (Qfloor q) ?= 1 # 2)%Q; [|lia|lia].
  destruct (Z.even (Qfloor q)); lia.
Qed.

Lemma Qround_even_le (x y : Q) :
  (x <= y)%Q -> (Qround_even x <= Qround_even y)%Z.
Proof.
  intros Hxy. pose proof (Qfloor_resp_le _ _ Hxy) as Hf.
  pose proof (Qround_even_range x) as Rx.
  pose proof (Qround_even_range y) as Ry.
  destruct (Z.eq_dec (Qfloor x) (Qfloor y)) as [E|N]; [|lia].
  unfold Qround_even. rewrite <- E.
  assert (Hr : (x - inject_Z (Qfloor x) <= y - inject_Z (Qfloor x))%Q) by lra.
  destruct (Qcompare_spec (x - inject_Z (Qfloor x)) (1 # 2)) as [Ex|Lx|Gx];
    destruct (Qcompare_spec (y - inject_Z (Qfloor x)) (1 # 2)) as [Ey|Ly|Gy];
    try lia; try lra; destruct (Z.even (Qfloor x)); lia.
Qed.

Lemma Qround_even_Z (z : Z) : Qround_even (inject_Z z) = z.
Proof.
  unfold Qround_even. rewrite Qfloor_Z.
  destruct (Qcompare_spec (inject_Z z - inject_Z z) (1 # 2)) as [E|L|G];
    [lra | reflexivity | lra].
Qed.

Section Rounding.

Variable prec : Z.
Hypothesis prec_pos : (0 < prec)%Z.

Lemma round_pos_range (q : Q) :
  (0 < q)%Q ->
  (2 ^ Qlog2 q <= round_pos prec q)%Q /\
  (round_pos prec q <= 2 ^ (Qlog2 q + 1))%Q.
Proof.
  intros Hq. destruct (Qlog2_spec Hq) as [H1 H2].
  unfold round_pos.
  destruct (Qle_bool q 0) eqn:E; [apply Qle_bool_iff in E; lra|].
  set (e := Qlog2 q) in *. set (u := (2 ^ (e - prec + 1))%Q).
  assert (Hu : (0 < u)%Q) by apply two_pos.
  assert (Elo : (2 ^ e == inject_Z (2 ^ (prec - 1)) * u)%Q).
  { unfold u. change 2%Z with (Qnum 2) at 1.
    change (inject_Z (Qnum 2 ^ (prec - 1))) with (inject_Z (2 ^ (prec - 1))).
    rewrite Zpower_Qpower by lia. change (inject_Z 2) with 2%Q.
    rewrite <- (Qpower_plus _ _ _ two_neq). 
    replace (prec - 1 + (e - prec + 1))%Z with e by lia. reflexivity. }
  assert (Ehi : (2 ^ (e + 1) == inject_Z (2 ^ prec) * u)%Q).
  { unfold u. rewrite Zpower_Qpower by lia. change (inject_Z 2) with 2%Q.
    rewrite <- (Qpower_plus _ _ _ two_neq).
    replace (prec + (e - prec + 1))%Z with (e + 1)%Z by lia. reflexivity. }
  assert (Xlo : (inject_Z (2 ^ (prec - 1)) <= q / u)%Q).
  { apply Qle_shift_div_l; [exact Hu|]. rewrite <- Elo. exact H1. }
  assert (Xhi : (q / u <= inject_Z (2 ^ prec))%Q).
  { apply Qle_shift_div_r; [exact Hu|]. rewrite <- Ehi.
    apply Qlt_le_weak. exact H2. }
  apply Qround_even_le in Xlo. apply Qround_even_le in Xhi.
  rewrite Qround_even_Z in Xlo, Xhi.
  split.
  - rewrite Elo. apply Qmult_le_r; [exact Hu|]. rewrite <- Zle_Qle. exact Xlo.
  - rewrite Ehi. apply Qmult_le_r; [exact Hu|]. rewrite <- Zle_Qle. exact Xhi.
Qed.

Lemma round_pos_nonneg (q : Q) : (0 <= round_pos prec q)%Q.
Proof.
  unfold round_pos. destruct (Qle_bool q 0) eqn:E; [apply Qle_refl|].
  assert (Hq : (0 < q)%Q).
  { apply Qnot_le_lt. intros H. apply Qle_bool_iff in H. congruence. }
  destruct (round_pos_range Hq) as [H _]. unfold round_pos in H. rewrite E in H.
  eapply Qle_trans; [|exact H]. apply Qlt_le_weak. apply two_pos.
Qed.

Lemma round_pos_le (x y : Q) :
  (x <= y)%Q -> (round_pos prec x <= round_pos prec y)%Q.
Proof.
  intros Hxy.
  destruct (Qle_bool x 0) eqn:Ex.
  { unfold round_pos at 1. rewrite Ex. apply round_pos_nonneg. }
  assert (Hx : (0 < x)%Q).
  { apply Qnot_le_lt. intros H. apply Qle_bool_iff in H. congruence. }
  assert (Hy : (0 < y)%Q) by (eapply Qlt_le_trans; eassumption).
  pose proof (Qlog2_le Hx Hxy) as Hl.
  destruct (Z.eq_dec (Qlog2 x) (Qlog2 y)) as [E|N].
  - unfold round_pos. rewrite Ex.
    destruct (Qle_bool y 0) eqn:Ey; [apply Qle_bool_iff in Ey; lra|].
    rewrite <- E. set (u := (2 ^ (Qlog2 x - prec + 1))%Q).
    assert (Hu : (0 < u)%Q) by apply two_pos.
    apply Qmult_le_r; [exact Hu|]. rewrite <- Zle_Qle.
    apply Qround_even_le. apply Qmult_le_r; [apply Qinv_lt_0_compat; exact Hu|].
    exact Hxy.
  - destruct (round_pos_range Hx) as [_ H1].
    destruct (round_pos_range Hy) as [H2 _].
    eapply Qle_trans; [exact H1|]. eapply Qle_trans; [|exact H2].
    apply Qpower_le_compat_l; [lia | discriminate].
Qed.

Lemma Qabs_syntactic (q : Q) :
  Qabs q = if Qle_bool 0 q then q else (- q)%Q.
Proof.
  destruct q as [n d]. unfold Qabs, Qle_bool, Qopp. simpl.
  rewrite Z.mul_1_r. destruct (Z.leb_spec 0 n).
  - rewrite Z.abs_eq by assumption. reflexivity.
  - rewrite Z.abs_neq by lia. reflexivity.
Qed.

(** Rounding commutes with the absolute value. *)
Lemma round_to_abs (q : Q) :
  (Qabs (round_to prec q) == round_pos prec (Qabs q))%Q.
Proof.
  rewrite (Qabs_syntactic q). unfold round_to.
  destruct (Qle_bool 0 q).
  - apply Qabs_pos. apply round_pos_nonneg.
  - rewrite Qabs_opp. apply Qabs_pos. apply round_pos_nonneg.
Qed.

Lemma round_to_nonneg (q : Q) :
  (0 <= q)%Q -> round_to prec q = round_pos prec q.
Proof.
  intros H. unfold round_to. apply Qle_bool_iff in H. rewrite H. reflexivity.
Qed.

(** Rounding keeps a bound that is itself rounded. *)
Lemma round_to_dom (x b : Q) :
  (Qabs x <= b)%Q -> (Qabs (round_to prec x) <= round_to prec b)%Q.
Proof.
  intros H. rewrite round_to_abs.
  rewrite round_to_nonneg by (eapply Qle_trans; [apply Qabs_nonneg | exact H]).
  apply round_pos_le. exact H.
Qed.

(** Rounding is monotone. *)
Lemma round_to_le (x y : Q) :
  (x <= y)%Q -> (round_to prec x <= round_to prec y)%Q.
Proof.
  intros H. unfold round_to.
  destruct (Qle_bool 0 x) eqn:Ex; destruct (Qle_bool 0 y) eqn:Ey.
  - apply round_pos_le. exact H.
  - apply Qle_bool_iff in Ex.
    assert (~ (0 <= y)%Q) by (intros Hy; apply Qle_bool_iff in Hy; congruence).
    lra.
  - pose proof (round_pos_nonneg (- x)). pose proof (round_pos_nonneg y). lra.
  - assert (Hn : (round_pos prec (- y) <= round_pos prec (- x))%Q)
      by (apply round_pos_le; lra).
    lra.
Qed.

End Rounding.

Lemma prec24 : (0 < 24)%Z. Proof. reflexivity. Qed.
Lemma prec53 : (0 < 53)%Z. Proof. reflexivity. Qed.

Lemma Qround_even_err (x : Q) :
  (Qabs (inject_Z (Qround_even x) - x) <= 1 # 2)%Q.
Proof.
  pose proof (Qfloor_le x) as Hlo. pose proof (Qlt_floor x) as Hhi.
  rewrite inject_Z_plus in Hhi. change (inject_Z 1) with 1%Q in Hhi.
  unfold Qround_even.
  destruct (Qcompare_spec (x - inject_Z (Qfloor x)) (1 # 2)) as [E|L|G].
  - destruct (Z.even (Qfloor x)); [|rewrite inject_Z_plus; change (inject_Z 1) with 1%Q];
      apply Qabs_Qle_condition; split; lra.
  - apply Qabs_Qle_condition; split; lra.
  - rewrite inject_Z_plus. change (inject_Z 1) with 1%Q.
    apply Qabs_Qle_condition; split; lra.
Qed.

Section Error.

Variable prec : Z.

Lemma round_pos_err (x : Q) (k : Z) :
  (0 <= x)%Q -> (x <= 2 ^ k)%Q ->
  (Qabs (round_pos prec x - x) <= 2 ^ (k - prec))%Q.
Proof.
  intros H0 Hk. unfold round_pos.
  destruct (Qle_bool x 0) eqn:E.
  { apply Qle_bool_iff in E. apply Qabs_Qle_condition.
    pose proof (two_pos (k - prec)). split; lra. }
  assert (Hx : (0 < x)%Q).
  { apply Qnot_le_lt. intros H. apply Qle_bool_iff in H. congruence. }
  destruct (Qlog2_spec Hx) as [H1 _]. set (e := Qlog2 x) in *.
  assert (He : (e <= k)%Z).
  { apply (Qpower_le_compat_l_inv 2); [|reflexivity].
    eapply Qle_trans; eassumption. }
  set (u := (2 ^ (e - prec + 1))%Q).
  assert (Hu : (0 < u)%Q) by apply two_pos.
  assert (Eu : (u == 2 * 2 ^ (e - prec))%Q).
  { unfold u. replace (e - prec + 1)%Z with (1 + (e - prec))%Z by lia.
    rewrite (Qpower_plus _ _ _ two_neq). reflexivity. }
  pose proof (Qround_even_err (x / u)) as Herr.
  set (K := inject_Z (Qround_even (x / u))) in *.
  assert (Ed : (K * u - x == (K - x / u) * u)%Q) by (field; lra).
  rewrite Ed, Qabs_Qmult, (Qabs_pos u) by lra.
  apply Qle_trans with ((1 # 2) * u)%Q.
  - apply Qmult_le_r; [exact Hu | exact Herr].
  - rewrite Eu.
    setoid_replace ((1 # 2) * (2 * 2 ^ (e - prec)))%Q with (2 ^ (e - prec))%Q
      by ring.
    apply Qpower_le_compat_l; [lia | discriminate].
Qed.

(** Rounding moves a number of absolute value at most [2 ^ k] by at most
    [2 ^ (k - prec)]. *)
Lemma round_to_err (x : Q) (k : Z) :
  (Qabs x <= 2 ^ k)%Q ->
  (Qabs (round_to prec x - x) <= 2 ^ (k - prec))%Q.
Proof.
  intros H. apply Qabs_Qle_condition in H. destruct H as [Hlo Hhi].
  unfold round_to. destruct (Qle_bool 0 x) eqn:E.
  - apply Qle_bool_iff in E. apply round_pos_err; assumption.
  - assert (Hx : (x < 0)%Q).
    { apply Qnot_le_lt. intros Hle. apply Qle_bool_iff in Hle. congruence. }
    assert (Hr : (Qabs (round_pos prec (- x) - - x) <= 2 ^ (k - prec))%Q)
      by (apply round_pos_err; lra).
    apply Qabs_Qle_condition in Hr. apply Qabs_Qle_condition. split; lra.
Qed.

End Error.

Lemma f32_err_512 (x : Q) :
  (Qabs x <= 512)%Q -> (Qabs (f32 x - x) <= 1 # 32768)%Q.
Proof. intros H. exact (@round_to_err 24 x 9 H). Qed.

Lemma fadd32_err (x y ex ey tx ty : Q) :
  (Qabs (x - tx) <= ex)%Q -> (Qabs (y - ty) <= ey)%Q ->
  (Qabs tx + Qabs ty + ex + ey <= 512)%Q ->
  (Qabs (fadd32 x y - (tx + ty)) <= ex + ey + (1 # 32768))%Q.
Proof.
  intros Hx Hy Hb.
  assert (Hs : (Qabs (x + y) <= 512)%Q).
  { apply Qabs_Qle_condition in Hx, Hy.
    pose proof (Qle_Qabs tx). pose proof (Qle_Qabs (- tx)).
    pose proof (Qle_Qabs ty). pose proof (Qle_Qabs (- ty)).
    rewrite Qabs_opp in *.
    apply Qabs_Qle_condition. split; lra. }
  pose proof (@f32_err_512 _ Hs) as He. unfold fadd32.
  apply Qabs_Qle_condition in Hx, Hy, He.
  apply Qabs_Qle_condition. split; lra.
Qed.

Lemma count_cons (a : Q) (l : list Q) : (count (a :: l) == count l + 1)%Q.
Proof.
  unfold count. simpl List.length.
  rewrite Nat2Z.inj_succ, <- Z.add_1_r, inject_Z_plus. reflexivity.
Qed.

Lemma count_nonneg (l : list Q) : (0 <= count l)%Q.
Proof.
  unfold count. change 0%Q with (inject_Z 0). rewrite <- Zle_Qle. lia.
Qed.

Lemma fold_fadd32_err (l : list Q) : forall s t e,
  (forall a, In a l -> (Qabs a <= 45)%Q) ->
  (Qabs (s - t) <= e)%Q ->
  (Qabs t + e + 46 * count l <= 512)%Q ->
  (Qabs (fold_left fadd32 l s - fold_left Qplus l t)
   <= e + (1 # 32768) * count l)%Q.
Proof.
  induction l as [|a l IH]; intros s t e Hl Hs Hb.
  - cbn [fold_left]. change (count []) with 0%Q. lra.
  - cbn [fold_left]. rewrite count_cons in *.
    pose proof (count_nonneg l) as Hc.
    assert (Ha : (Qabs a <= 45)%Q) by (apply Hl; left; reflexivity).
    assert (Haa : (Qabs (a - a) <= 0)%Q).
    { setoid_replace (a - a)%Q with 0%Q by ring. discriminate. }
    assert (Hstep : (Qabs (fadd32 s a - (t + a)) <= e + 0 + (1 # 32768))%Q).
    { apply fadd32_err; [exact Hs | exact Haa | lra]. }
    assert (Htri : (Qabs (t + a) <= Qabs t + Qabs a)%Q) by apply Qabs_triangle.
    eapply Qle_trans.
    + apply (IH (fadd32 s a) (t + a)%Q (e + 0 + (1 # 32768))%Q).
      * intros x Hx. apply Hl. right. exact Hx.
      * exact Hstep.
      * lra.
    + lra.
Qed.

Lemma fold_Qplus_shift (l : list Q) : forall t,
  (fold_left Qplus l t == t + fold_left Qplus l 0)%Q.
Proof.
  induction l as [|a l IH]; intros t; simpl; [ring|].
  rewrite (IH (t + a)%Q), (IH (0 + a)%Q). ring.
Qed.

(** The sum numpy computes is the sum, but for the rounding. *)
Lemma np_sum_err (l : list Q) :
  List.length l <= 10 ->
  (forall a, In a l -> (Qabs a <= 45)%Q) ->
  (Qabs (np_sum l - Qsum l) <= (1 # 32768) * count l)%Q.
Proof.
  intros Hlen Hl.
  assert (Hcount : (count l <= 10)%Q).
  { unfold count. change 10%Q with (inject_Z 10). rewrite <- Zle_Qle. lia. }
  assert (Hshort : (Qabs (fold_left fadd32 l 0%Q - Qsum l)
                    <= (1 # 32768) * count l)%Q).
  { unfold Qsum. eapply Qle_trans.
    - apply (@fold_fadd32_err l 0%Q 0%Q 0%Q Hl); [discriminate|].
      change (Qabs 0) with 0%Q. lra.
    - lra. }
  do 8 (destruct l as [|? l]; [exact Hshort|]).
  clear Hshort. cbn [np_sum].
  assert (H0 : (Qabs q <= 45)%Q) by (apply Hl; simpl; tauto).
  assert (H1 : (Qabs q0 <= 45)%Q) by (apply Hl; simpl; tauto).
  assert (H2 : (Qabs q1 <= 45)%Q) by (apply Hl; simpl; tauto).
  assert (H3 : (Qabs q2 <= 45)%Q) by (apply Hl; simpl; tauto).
  assert (H4 : (Qabs q3 <= 45)%Q) by (apply Hl; simpl; tauto).
  assert (H5 : (Qabs q4 <= 45)%Q) by (apply Hl; simpl; tauto).
  assert (H6 : (Qabs q5 <= 45)%Q) by (apply Hl; simpl; tauto).
  assert (H7 : (Qabs q6 <= 45)%Q) by (apply Hl; simpl; tauto).
  assert (Hz : forall a : Q, (Qabs (a - a) <= 0)%Q).
  { intros a. setoid_replace (a - a)%Q with 0%Q by ring. discriminate. }
  assert (Htr : forall a b : Q, (Qabs (a + b) <= Qabs a + Qabs b)%Q)
    by (intros; apply Qabs_triangle).
  pose proof (Htr q q0) as T01. pose proof (Htr q1 q2) as T23.
  pose proof (Htr q3 q4) as T45. pose proof (Htr q5 q6) as T67.
  pose proof (Htr (q + q0) (q1 + q2))%Q as T03.
  pose proof (Htr (q3 + q4) (q5 + q6))%Q as T47.
  pose proof (Htr (q + q0 + (q1 + q2)) (q3 + q4 + (q5 + q6)))%Q as T07.
  assert (E01 := @fadd32_err q q0 0 0 q q0 (Hz q) (Hz q0) ltac:(lra)).
  assert (E23 := @fadd32_err q1 q2 0 0 q1 q2 (Hz q1) (Hz q2) ltac:(lra)).
  assert (E45 := @fadd32_err q3 q4 0 0 q3 q4 (Hz q3) (Hz q4) ltac:(lra)).
  assert (E67 := @fadd32_err q5 q6 0 0 q5 q6 (Hz q5) (Hz q6) ltac:(lra)).
  assert (E03 := @fadd32_err _ _ _ _ _ _ E01 E23 ltac:(lra)).
  assert (E47 := @fadd32_err _ _ _ _ _ _ E45 E67 ltac:(lra)).
  assert (E07 := @fadd32_err _ _ _ _ _ _ E03 E47 ltac:(lra)).
  repeat rewrite count_cons in *. pose proof (count_nonneg l) as Hc.
  eapply Qle_trans.
  - assert (Es : (Qsum (q :: q0 :: q1 :: q2 :: q3 :: q4 :: q5 :: q6 :: l)
                  == fold_left Qplus l
                       (q + q0 + (q1 + q2) + (q3 + q4 + (q5 + q6))))%Q).
    { unfold Qsum. cbn [fold_left].
      rewrite (fold_Qplus_shift l (0 + q + q0 + q1 + q2 + q3 + q4 + q5 + q6)%Q),
              (fold_Qplus_shift l (q + q0 + (q1 + q2) + (q3 + q4 + (q5 + q6)))%Q).
      ring. }
    rewrite Es.
    apply (@fold_fadd32_err l _ _ _ (fun a Ha => Hl a ltac:(simpl; tauto)) E07).
    lra.
  - lra.
Qed.

(** The mean numpy computes of at most ten angles below 45 is their
    arithmetic mean, but for a rounding of less than a ten-thousandth. *)
Lemma np_mean_near (l : list Q) :
  l <> [] -> List.length l <= 10 ->
  (forall a, In a l -> (Qabs a <= 45)%Q) ->
  (Qabs (np_mean l - Qmean l) <= 1 # 16384)%Q.
Proof.
  intros Hne Hlen Hl.
  pose proof (@np_sum_err l Hlen Hl) as Hs.
  assert (Hn : (1 <= count l)%Q).
  { unfold count. change 1%Q with (inject_Z 1). rewrite <- Zle_Qle.
    destruct l; [congruence | simpl List.length; lia]. }
  assert (Hn10 : (count l <= 10)%Q).
  { unfold count. change 10%Q with (inject_Z 10). rewrite <- Zle_Qle. lia. }
  assert (Hsum : (Qabs (Qsum l) <= 45 * count l)%Q).
  { unfold Qsum. clear -Hl.
    assert (G : forall t, (Qabs (fold_left Qplus l t) <= Qabs t + 45 * count l)%Q).
    { induction l as [|a l IH]; intros t.
      - cbn [fold_left]. change (count []) with 0%Q. lra.
      - cbn [fold_left]. rewrite count_cons.
        eapply Qle_trans; [apply IH; intros x Hx; apply Hl; right; exact Hx|].
        pose proof (Qabs_triangle t a).
        assert (Qabs a <= 45)%Q by (apply Hl; left; reflexivity). lra. }
    specialize (G 0%Q). change (Qabs 0) with 0%Q in G. lra. }
  unfold np_mean, Qmean. fold (count l).
  set (n := count l) in *. set (s := np_sum l) in *. set (t := Qsum l) in *.
  assert (Hinv : (0 < / n)%Q) by (apply Qinv_lt_0_compat; lra).
  assert (Hq : (Qabs (s / n - t / n) <= 1 # 32768)%Q).
  { setoid_replace (s / n - t / n)%Q with ((s - t) * / n)%Q by (field; lra).
    rewrite Qabs_Qmult, (Qabs_pos (/ n)) by lra.
    apply Qle_shift_div_r; [lra|]. exact Hs. }
  assert (Ht : (Qabs (t / n) <= 45)%Q).
  { unfold Qdiv. rewrite Qabs_Qmult, (Qabs_pos (/ n)) by lra.
    apply Qle_shift_div_r; [lra|]. exact Hsum. }
  assert (Hsn : (Qabs (s / n) <= 64)%Q).
  { apply Qabs_Qle_condition in Hq, Ht. apply Qabs_Qle_condition. split; lra. }
  pose proof (@round_to_err 53 (s / n) 6 Hsn) as E64.
  change (2 ^ (6 - 53))%Q with (1 # 140737488355328)%Q in E64.
  assert (H64 : (Qabs (f64 (s / n)) <= 64)%Q).
  { eapply Qle_trans; [exact (@round_to_dom 53 prec53 _ _ Hsn)|].
    vm_compute. discriminate. }
  pose proof (@round_to_err 24 (f64 (s / n)) 6 H64) as E32.
  change (2 ^ (6 - 24))%Q with (1 # 262144)%Q in E32.
  fold f32 in E32. fold f64 in E64.
  apply Qabs_Qle_condition in Hq, E64, E32.
  apply Qabs_Qle_condition. split; lra.
Qed.

(** *** The corrector *)

Lemma candidate_angles_length (lines : list (Q * Q)) :
  List.length (candidate_angles lines) <= 10.
Proof.
  unfold candidate_angles.
  eapply Nat.le_trans; [apply filter_length_le|].
  rewrite length_map, length_firstn. apply Nat.le_min_l.
Qed.

Lemma In_firstn_nth_error {A : Type} (x : A) : forall n l,
  In x (firstn n l) <-> exists i, i < n /\ nth_error l i = Some x.
Proof.
  induction n as [|n IH]; intros l.
  - simpl. split; [contradiction | intros (i & Hi & _); lia].
  - destruct l as [|y l]; simpl.
    + split; [contradiction | intros (i & _ & Hi); destruct i; discriminate].
    + rewrite IH. split.
      * intros [-> | (i & Hi & Hx)].
        -- exists 0. split; [lia | reflexivity].
        -- exists (S i). split; [lia | exact Hx].
      * intros (i & Hi & Hx). destruct i as [|i]; simpl in Hx.
        -- left. congruence.
        -- right. exists i. split; [lia | exact Hx].
Qed.

(** The candidate angles are those of the first ten lines that are less
    than 45 degrees off. *)
Lemma candidate_angles_spec (lines : list (Q * Q)) (a : Q) :
  In a (candidate_angles lines) <->
  exists i line, i < 10 /\ nth_error lines i = Some line /\
                 a = line_angle line /\ (Qabs a < 45)%Q.
Proof.
  unfold candidate_angles. rewrite filter_In, in_map_iff, Qltb_lt. split.
  - intros [(line & <- & Hin) Hlt].
    apply In_firstn_nth_error in Hin. destruct Hin as (i & Hi & Hn).
    exists i, line. auto.
  - intros (i & line & Hi & Hn & -> & Hlt). split; [|assumption].
    exists line. split; [reflexivity|].
    apply In_firstn_nth_error. exists i. auto.
Qed.

Lemma deskew_image_detected (L : OCRLib) (image : Image) img_array edges lines :
  np_array image = Ok img_array ->
  Canny img_array 50 150 3 = Ok edges ->
  HoughLines edges 1 (np_pi / 180) 200 = Ok lines ->
  deskew_image image =
  if negb (is_nil (detected_angles lines)) then
    if Qltb (1 # 2) (Qabs (np_mean (detected_angles lines)))
    then image_rotate image (np_mean (detected_angles lines)) 255 true
    else Ok image
  else Ok image.
Proof.
  intros H1 H2 H3. unfold deskew_image.
  rewrite H1. cbn [bind]. rewrite H2. cbn [bind]. rewrite H3. cbn [bind].
  destruct lines as [ls|]; reflexivity.
Qed.

(** C4. Once the lines are detected, the skew corrector returns its input
    as it is when no candidate angle survives or when the mean of the
    candidates is at most half a degree off, and otherwise returns what
    the rotation by that mean gives, with the canvas expanded and the
    border filled with 255; the candidates are the angles of the first ten
    lines that are less than 45 degrees off. The mean is the one numpy
    computes in single precision: it is within 1/16384 of the arithmetic
    mean of the candidates, so the input comes back when their arithmetic
    mean is at most 1/2 - 1/16384 off and is rotated when it is more than
    1/2 + 1/16384 off. *)
Theorem C4_deskew_image (L : OCRLib) (image : Image) img_array edges lines :
  np_array image = Ok img_array ->
  Canny img_array 50 150 3 = Ok edges ->
  HoughLines edges 1 (np_pi / 180) 200 = Ok lines ->
  let angles := detected_angles lines in
  (angles = [] -> deskew_image image = Ok image) /\
  ((Qabs (np_mean angles) <= 1 # 2)%Q -> deskew_image image = Ok image) /\
  (angles <> [] -> (1 # 2 < Qabs (np_mean angles))%Q ->
   deskew_image image = image_rotate image (np_mean angles) 255 true) /\
  (deskew_image image <> Ok image ->
   angles <> [] /\ (1 # 2 < Qabs (np_mean angles))%Q) /\
  (forall a, In a angles <->
     exists ls i line, lines = Some ls /\ i < 10 /\
       nth_error ls i = Some line /\ a = line_angle line /\ (Qabs a < 45)%Q) /\
  (angles <> [] -> (Qabs (np_mean angles - Qmean angles) <= 1 # 16384)%Q) /\
  (angles <> [] -> (Qabs (Qmean angles) <= (1 # 2) - (1 # 16384))%Q ->
   deskew_image image = Ok image) /\
  (angles <> [] -> ((1 # 2) + (1 # 16384) < Qabs (Qmean angles))%Q ->
   deskew_image image = image_rotate image (np_mean angles) 255 true).
Proof.
  intros H1 H2 H3 angles.
  assert (Hnear : angles <> [] ->
                  (Qabs (np_mean angles - Qmean angles) <= 1 # 16384)%Q).
  { intros Hne. unfold angles, detected_angles in *.
    destruct lines as [ls|]; [|congruence].
    apply np_mean_near; [exact Hne | apply candidate_angles_length|].
    intros a Ha. apply candidate_angles_spec in Ha.
    destruct Ha as (_ & _ & _ & _ & _ & Ha). apply Qlt_le_weak. exact Ha. }
  pose proof (@deskew_image_detected L image img_array edges lines H1 H2 H3) as Hd.
  fold angles in Hd.
  assert (Hlevel : (Qabs (np_mean angles) <= 1 # 2)%Q ->
                   deskew_image image = Ok image).
  { intros Hle. rewrite Hd.
    destruct (Qltb (1 # 2) (Qabs (np_mean angles))) eqn:E.
    + apply Qltb_lt in E. exfalso. eapply Qlt_not_le; eassumption.
    + destruct (negb (is_nil angles)); reflexivity. }
  assert (Hrot : angles <> [] -> (1 # 2 < Qabs (np_mean angles))%Q ->
                 deskew_image image
                 = image_rotate image (np_mean angles) 255 true).
  { intros Hne Hlt. rewrite Hd.
    apply Qltb_lt in Hlt. rewrite Hlt.
    destruct angles; [congruence | reflexivity]. }
  split; [|split; [|split; [|split; [|split; [|split; [|split]]]]]];
    [| | | | |exact Hnear| |].
  - intros E. rewrite Hd, E. reflexivity.
  - intros Hle. rewrite Hd.
    destruct (Qltb (1 # 2) (Qabs (np_mean angles))) eqn:E.
    + apply Qltb_lt in E. exfalso. eapply Qlt_not_le; eassumption.
    + destruct (negb (is_nil angles)); reflexivity.
  - intros Hne Hlt. rewrite Hd.
    apply Qltb_lt in Hlt. rewrite Hlt.
    destruct angles; [congruence | reflexivity].
  - intros Hneq. rewrite Hd in Hneq.
    destruct angles as [|a l] eqn:Ea; [cbn in Hneq; congruence|].
    split; [discriminate|].
    cbn [is_nil negb] in Hneq.
    destruct (Qltb (1 # 2) (Qabs (np_mean (a :: l)))) eqn:E; [|congruence].
    apply Qltb_lt. exact E.
  - intros a. unfold angles, detected_angles. destruct lines as [ls|].
    + rewrite candidate_angles_spec. split.
      * intros (i & line & H). exists ls, i, line. tauto.
      * intros (ls' & i & line & E & H). injection E as <-. exists i, line. exact H.
    + split; [contradiction | intros (ls' & _ & _ & E & _); discriminate].
  - intros Hne Hle. apply Hlevel. specialize (Hnear Hne).
    apply Qabs_Qle_condition in Hnear, Hle. apply Qabs_Qle_condition.
    split; lra.
  - intros Hne Hlt. apply (Hrot Hne). specialize (Hnear Hne).
    apply Qabs_Qle_condition in Hnear.
    destruct (Qlt_le_dec (1 # 2) (Qabs (np_mean angles))) as [G|G]; [exact G|].
    exfalso. apply Qabs_Qle_condition in G.
    assert (Hq : (Qabs (Qmean angles) <= (1 # 2) + (1 # 16384))%Q)
      by (apply Qabs_Qle_condition; split; lra).
    lra.
Qed.

Lemma C4_deskew_image_witness :
  deskew_image (L := example_lib (Some level_lines) [] []) 0 = Ok 0 /\
  deskew_image (L := example_lib (Some tilted_lines) [] []) 0 = Ok 1 /\
  deskew_image (L := example_lib None [] []) 0 = Ok 0.
Proof.
  pose proof (@C4_deskew_image (example_lib (Some level_lines) [] []) 0 0 0
                (Some level_lines) eq_refl eq_refl eq_refl) as Hlevel.
  pose proof (@C4_deskew_image (example_lib (Some tilted_lines) [] []) 0 0 0
                (Some tilted_lines) eq_refl eq_refl eq_refl) as Htilted.
  pose proof (@C4_deskew_image (example_lib None [] []) 0 0 0
                None eq_refl eq_refl eq_refl) as Hnone.
  cbv zeta in Hlevel, Htilted, Hnone.
  destruct Hlevel as (_ & Hlevel & _).
  destruct Htilted as (_ & _ & Htilted & _).
  destruct Hnone as (Hnone & _).
  split; [|split].
  - apply Hlevel. vm_compute. discriminate.
  - apply Htilted.
    + vm_compute. discriminate.
    + vm_compute. reflexivity.
  - apply Hnone. reflexivity.
Defined.

(** The angles and their mean are those of single precision. The line at
    the [np.float32] nearest to a quarter of pi has the angle -45 and is
    no candidate; the lines at 86, 88, 90 and 94 degrees have the mean
    angle -0.5000019 and the image is rotated. *)
Lemma single_precision_thresholds :
  (line_angle (10, f32 (np_pi / 4)) == -45)%Q /\
  candidate_angles [(10, f32 (np_pi / 4))%Q] = [] /\
  map Qred (candidate_angles half_degree_lines)
    = [ -4; - (262145 # 131072); 0; 4 ]%Q /\
  (np_mean (candidate_angles half_degree_lines) == - (262145 # 524288))%Q /\
  deskew_image (L := example_lib (Some half_degree_lines) [] []) 0 = Ok 1.
Proof. vm_compute. repeat split; reflexivity. Qed.

(** ** The items *)

(** A line that holds no summary keyword and ends in an amount has a
    candidate: the description of the match, trimmed, and its amount. *)
Lemma candidate_of_match line m :
  found (re_search true skip_re line) = false ->
  re_match false item_re line = Some m ->
  exists d p q,
    group m 1 = Some d /\ group m 2 = Some p /\ amount_text p /\
    float_of_str p = Ok (Finite q) /\ candidate line = Some (strip d, q).
Proof.
  intros Hskip Hm. destruct (item_capture _ Hm) as (d & p & Hcaps & Ha).
  destruct (float_of_str_amount Ha) as (q & Hq).
  exists d, p, q. unfold candidate, group.
  rewrite Hskip, Hm. unfold group. rewrite Hcaps. simpl. rewrite Hq. auto.
Qed.

Lemma line_items_in line it :
  In it (line_items line) ->
  exists d q, candidate line = Some (d, q) /\ it = Item d (Finite q) /\
              accepted (d, q).
Proof.
  unfold line_items. destruct (candidate line) as [[d q]|]; [|contradiction].
  destruct (item_ok d (Finite q)) eqn:E; [|contradiction].
  intros [<- | []]. exists d, q.
  split; [reflexivity | split; [reflexivity | apply item_ok_accepted; exact E]].
Qed.

Lemma line_items_accepted line d q :
  candidate line = Some (d, q) ->
  line_items line = [Item d (Finite q)] <-> accepted (d, q).
Proof.
  intros Hc. unfold line_items. rewrite Hc. rewrite <- item_ok_accepted.
  destruct (item_ok d (Finite q)); split; congruence.
Qed.

(** C5. The items are what the retained lines contribute, in the order of
    the lines. A line that holds no summary keyword and matches the item
    pattern contributes its candidate if and only if the trimmed
    description is longer than 2 characters and the amount lies strictly
    between 0 and 10000, and nothing otherwise; a line that holds a
    summary keyword is not matched and contributes nothing. The
    candidates of [Receipt # 15000.00] and of [AB 3.00] are not accepted. *)
Theorem C5_items_guard (text : str) :
  exists f, parse_receipt_text text = Ok f /\
    f_items f = flat_map line_items (text_lines text) /\
    (forall line m,
       In line (text_lines text) ->
       found (re_search true skip_re line) = false ->
       re_match false item_re line = Some m ->
       exists d p q,
         group m 1 = Some d /\ group m 2 = Some p /\
         float_of_str p = Ok (Finite q) /\
         (line_items line = [Item (strip d) (Finite q)] <->
          accepted (strip d, q)) /\
         (line_items line = [] <-> ~ accepted (strip d, q)) /\
         (In (Item (strip d) (Finite q)) (f_items f) <->
          accepted (strip d, q))) /\
    (forall it, In it (f_items f) ->
       exists line d q, In line (text_lines text) /\
         candidate line = Some (d, q) /\ it = Item d (Finite q) /\
         accepted (d, q)) /\
    (forall line, found (re_search true skip_re line) = true ->
                  line_items line = []) /\
    line_items (lit "Coffee 3.50") = [Item (lit "Coffee") (fl 3.50)] /\
    candidate (lit "Receipt # 15000.00") = Some (lit "Receipt #", 15000%Q) /\
    ~ accepted (lit "Receipt #", 15000%Q) /\
    item_step [] (lit "Receipt # 15000.00") = Ok [] /\
    candidate (lit "AB 3.00") = Some (lit "AB", 3%Q) /\
    ~ accepted (lit "AB", 3%Q) /\
    item_step [] (lit "AB 3.00") = Ok [].
Proof.
  rewrite parse_receipt_text_spec. eexists. split; [reflexivity|].
  cbn [f_items]. split; [reflexivity|].
  split; [|split; [|split]].
  - intros line m Hin Hskip Hm.
    destruct (candidate_of_match _ Hskip Hm) as (d & p & q & H1 & H2 & _ & Hq & Hc).
    exists d, p, q.
    split; [exact H1|]. split; [exact H2|]. split; [exact Hq|].
    split; [apply line_items_accepted; exact Hc|]. split; split.
    + intros Hn Ha. apply (line_items_accepted _ Hc) in Ha. congruence.
    + intros Hn. unfold line_items. rewrite Hc.
      destruct (item_ok (strip d) (Finite q)) eqn:E; [|reflexivity].
      apply item_ok_accepted in E. contradiction.
    + intros Hi. apply in_flat_map in Hi. destruct Hi as (line' & _ & Hi).
      apply line_items_in in Hi.
      destruct Hi as (d' & q' & _ & E & Ha). injection E as -> ->. exact Ha.
    + intros Ha. apply in_flat_map. exists line. split; [assumption|].
      apply (line_items_accepted _ Hc) in Ha. rewrite Ha. left. reflexivity.
  - intros it Hi. apply in_flat_map in Hi. destruct Hi as (line & Hl & Hi).
    apply line_items_in in Hi. destruct Hi as (d & q & Hc & E & Ha).
    exists line, d, q. auto.
  - intros line Hskip. unfold line_items, candidate. rewrite Hskip. reflexivity.
  - repeat split; try (vm_compute; reflexivity).
    + intros (_ & _ & H). vm_compute in H. discriminate.
    + intros (H & _). vm_compute in H. apply Nat.lt_irrefl in H. assumption.
Qed.

Lemma C5_items_guard_witness :
  exists f,
    parse_receipt_text (unlines ["Coffee 3.50"; "AB 3.00"; "Cash 5.00"]%string) = Ok f /\
    f_items f = [Item (lit "Coffee") (fl 3.50)].
Proof.
  destruct (C5_items_guard (unlines ["Coffee 3.50"; "AB 3.00"; "Cash 5.00"]%string))
    as (f & Hf & Hitems & _).
  exists f. split; [exact Hf|]. rewrite Hitems. vm_compute. reflexivity.
Defined.

(** ** The date *)

Lemma Steps_origin ic r a b : Steps ic r a b -> origin b = origin a.
Proof. induction 1; simpl; congruence. Qed.

(** A date pattern that matches captures, in its first group, the piece
    of the text the match covers. *)
Lemma date_capture p text m :
  In p date_res -> re_search true p text = Some m ->
  exists s before after,
    group m 1 = Some s /\ text = before ++ s ++ after /\
    List.length before = origin m.
Proof.
  intros Hp H. apply re_search_steps in H.
  destruct H as (pre & s' & -> & H).
  assert (Hg : exists body, p = Grp 1 body).
  { simpl in Hp. repeat (destruct Hp as [<- | Hp]; [eexists; reflexivity|]).
    contradiction. }
  destruct Hg as (body & ->).
  apply Steps_grp_capture in H. destruct H as (b & s & Hs & [Hr _] & ->).
  apply Steps_origin in Hs. simpl in Hr, Hs.
  exists s, pre, (rest b). rewrite group_set_cap. simpl. rewrite Hs, Hr. auto.
Qed.

(** C6. The date is what the first of the four date patterns that matches
    somewhere in the text captured, a piece of the text taken as it
    stands; it is unset exactly when none of the four matches. The text
    [02/30/2024] is stored as the date although no such day exists. *)
Theorem C6_date_first_family (text : str) :
  date_res = map re_compile date_patterns /\
  exists f, parse_receipt_text text = Ok f /\
    (f_date f = None <->
     forall p, In p date_res -> re_search true p text = None) /\
    (forall i p m, first_at date_res text i p m ->
       exists s before after,
         f_date f = Some s /\ group m 1 = Some s /\
         text = before ++ s ++ after /\ List.length before = origin m) /\
    (forall s, f_date f = Some s ->
       exists i p m, first_at date_res text i p m /\ group m 1 = Some s) /\
    exists g, parse_receipt_text (lit "02/30/2024") = Ok g /\
              f_date g = Some (lit "02/30/2024").
Proof.
  split; [reflexivity|].
  rewrite parse_receipt_text_spec. eexists. split; [reflexivity|].
  cbn [f_date]. rewrite first_date_spec.
  split; [|split; [|split]].
  - rewrite <- first_match_none.
    destruct (first_match date_res text) as [m|] eqn:E; [|tauto].
    split; [|discriminate]. intros Hg.
    destruct (first_match_in _ _ E) as (p & Hp & Hs).
    destruct (@date_capture p text m Hp Hs) as (s & _ & _ & Hg' & _). congruence.
  - intros i p m H.
    assert (E : first_match date_res text = Some m)
      by (apply first_match_some; eauto).
    rewrite E. destruct H as (Hn & Hs & _).
    destruct (@date_capture p text m (nth_error_In _ _ Hn) Hs)
      as (s & before & after & Hg & Ht & Hl).
    exists s, before, after. auto.
  - intros s Hs.
    destruct (first_match date_res text) as [m|] eqn:E; [|discriminate].
    apply first_match_some in E. destruct E as (i & p & H).
    exists i, p, m. auto.
  - eexists. split; [vm_compute; reflexivity | reflexivity].
Qed.

Lemma C6_date_first_family_witness :
  exists f,
    parse_receipt_text (lit "Paid 2024-2-1") = Ok f /\
    f_date f = Some (lit "2024-2-1").
Proof.
  destruct (C6_date_first_family (lit "Paid 2024-2-1"))
    as (_ & f & Hf & _ & Hfirst & _).
  exists f. split; [exact Hf|].
  destruct (Hfirst 1 (nth 1 date_res Empty)
              (MState 5 8 [] [(1, lit "2024-2-1")]))
    as (s & before & after & Hd & Hg & _).
  - split; [reflexivity|]. split; [vm_compute; reflexivity|].
    intros j q Hj Hq. destruct j as [|j]; [|lia].
    injection Hq as <-. vm_compute. reflexivity.
  - rewrite Hd, <- Hg. reflexivity.
Defined.

(** The first family also matches inside a date that begins with the
    year: of [2024-02-01] it captures [24-02-01]. *)
Lemma year_first_date_cut :
  first_date date_res (lit "2024-02-01") = Some (lit "24-02-01").
Proof. vm_compute. reflexivity. Qed.

(** ** The scan *)

(** C7. A scan returns one response, which carries the job identifier and
    is either a success with the record and no error, or a failure with
    the description of the exception and no record. It is a success
    exactly when every stage returned, with the record assembled from
    what they returned; so an exception in any stage gives the failure.
    The endpoint returns that response for every allowed content type. *)
Theorem C7_scan_outcome (L : OCRLib) (job : string) (contents : exc bytes)
  (file : UploadFile) :
  let r := scan job contents in
  job_id r = job /\
  ((success r = true /\ error r = None /\
    exists d, data r = Some d /\ scan_body contents = Ok d) \/
   (success r = false /\ data r = None /\
    exists e, error r = Some (exn_str e) /\ scan_body contents = Raise e)) /\
  (forall d, data r = Some d <->
     exists text conf f,
       stages_returned L contents text conf f /\
       d = assemble text (scalar_confidence conf) f) /\
  (mem_string (content_type file) allowed_types = true ->
   scan_receipt job file = Ok (scan job (file_read file))).
Proof.
  cbv zeta. unfold scan.
  split; [|split; [|split]].
  - destruct (scan_body contents); reflexivity.
  - destruct (scan_body contents) as [d|e]; [left | right]; cbn; eauto.
  - intros d. rewrite <- scan_body_ok.
    destruct (scan_body contents) as [d'|e]; cbn; split; congruence.
  - intros H. unfold scan_receipt. rewrite H. reflexivity.
Qed.

Lemma C7_scan_outcome_witness :
  scan_receipt (L := broken_lib) "job-1" (example_upload "image/png")
  = Ok {| success := false; job_id := "job-1"; data := None;
          error := Some "cannot identify image file"%string |}.
Proof.
  refine (eq_trans
    (proj2 (proj2 (proj2
       (@C7_scan_outcome broken_lib "job-1" (Ok [])
          (example_upload "image/png")))) eq_refl) _).
  reflexivity.
Defined.

Lemma scan_receipt_refuses (L : OCRLib) (job : string) (file : UploadFile) :
  mem_string (content_type file) allowed_types = false ->
  scan_receipt job file = Raise (HTTPException 400 invalid_type_detail).
Proof. intros H. unfold scan_receipt. rewrite H. reflexivity. Qed.

(** ** A scan that reads nothing *)

Lemma scalar_confidence_blank (conf : list Z) :
  (forall c, In c conf -> (c <= 0)%Z) -> scalar_confidence conf = (0 / 100)%Q.
Proof.
  intros H. apply scalar_confidence_none.
  induction conf as [|c conf IH]; simpl; [reflexivity|].
  destruct (0 <? c)%Z eqn:E.
  - apply Z.ltb_lt in E. specialize (H c (or_introl eq_refl)). lia.
  - apply IH. intros c' Hc'. apply H. right. assumption.
Qed.

(** C8, as the code has it. When every stage returns and the recognised
    text is empty, the scan is a success whose record has no merchant,
    date, total, subtotal, tax or tip, no items and the empty text; its
    confidence is the scalar confidence of the token confidences, which is
    zero when none of them is positive. *)
Theorem C8_empty_text (L : OCRLib) (job : string) (contents : exc bytes)
  (conf : list Z) (f : fields) :
  stages_returned L contents [] conf f ->
  scan job contents =
  {| success := true; job_id := job;
     data := Some {| merchant := None; date := None; total := None;
                     subtotal := None; tax := None; tip := None;
                     items := []; raw_text := [];
                     confidence := scalar_confidence conf |};
     error := None |} /\
  ((forall c, In c conf -> (c <= 0)%Z) -> (scalar_confidence conf == 0)%Q).
Proof.
  intros H. split.
  - assert (Hf : f = Fields None None None None None None []).
    { destruct H as (b & img & img' & p1 & p2 & _ & _ & _ & _ & _ & _ & _ & Hp).
      vm_compute in Hp. congruence. }
    assert (Hb : scan_body contents = Ok (assemble [] (scalar_confidence conf) f)).
    { apply scan_body_ok. exists [], conf, f. auto. }
    unfold scan. rewrite Hb, Hf. reflexivity.
  - intros Hc. rewrite (scalar_confidence_blank _ Hc). reflexivity.
Qed.

Lemma C8_empty_text_witness :
  scan (L := example_lib None [-1; -1]%Z []) "job-2" (Ok []) =
  {| success := true; job_id := "job-2";
     data := Some {| merchant := None; date := None; total := None;
                     subtotal := None; tax := None; tip := None;
                     items := []; raw_text := [];
                     confidence := scalar_confidence [-1; -1]%Z |};
     error := None |} /\
  (scalar_confidence [-1; -1]%Z == 0)%Q.
Proof.
  assert (H : stages_returned (example_lib None [-1; -1]%Z []) (Ok [])
                [] [-1; -1]%Z (Fields None None None None None None [])).
  { exists [], 0, 0, 0, 0. repeat split. }
  destruct (@C8_empty_text _ "job-2" _ _ _ H) as [H1 H2].
  split; [exact H1|].
  apply H2. intros c [<- | [<- | []]]; lia.
Defined.

(** The recognised text can be empty while a token confidence is
    positive: the confidence of the record is then not zero. *)
Lemma C8_counterexample :
  exists d,
    scan (L := example_lib None [50]%Z []) "job-3" (Ok []) =
    {| success := true; job_id := "job-3"; data := Some d; error := None |} /\
    raw_text d = [] /\
    (confidence d == 1 # 2)%Q /\ ~ (confidence d == 0)%Q.
Proof.
  eexists. split; [reflexivity|]. cbn [raw_text confidence].
  split; [reflexivity|]. split; [reflexivity | discriminate].
Qed.

(** ** The amount fields never fall back *)

Lemma patterns_parse :
  forallb (fun p => found_re (re_parse p))
    ([phone_pattern; address_pattern] ++ date_patterns ++ total_patterns
     ++ [subtotal_pattern] ++ tax_patterns
     ++ [tip_pattern; item_pattern; skip_pattern]) = true.
Proof. vm_compute. reflexivity. Qed.

(** C9. Whatever one of the patterns of the total, the subtotal, the tax
    and the tip captures is the text of an amount, and [float] reads it:
    the [ValueError] branch is never taken. So the extractor returns, and
    each of the four fields holds the value captured by the first pattern
    of its chain that matches, and is unset exactly when none matches. *)
Theorem C9_amount_captures_parse (text : str) :
  amount_res = map re_compile (total_patterns ++ [subtotal_pattern]
                               ++ tax_patterns ++ [tip_pattern]) /\
  (forall p m, In p amount_res -> re_search true p text = Some m ->
     exists s q, group m 1 = Some s /\ amount_text s /\
                 py_float (Some s) = Ok (Finite q) /\
                 try_float m = Ok (Some (Finite q))) /\
  exists f, parse_receipt_text text = Ok f /\
    set_by_first_match (f_total f) total_res text /\
    set_by_first_match (f_subtotal f) [subtotal_re] text /\
    set_by_first_match (f_tax f) tax_res text /\
    set_by_first_match (f_tip f) [tip_re] text /\
    (f_total f = None <-> first_match total_res text = None) /\
    (f_subtotal f = None <-> re_search true subtotal_re text = None) /\
    (f_tax f = None <-> first_match tax_res text = None) /\
    (f_tip f = None <-> re_search true tip_re text = None).
Proof.
  split; [reflexivity|]. split.
  - intros p m Hp Hs.
    destruct (@capture_value_amount p text m (@amount_res_last p Hp) Hs)
      as (s & q & Hg & Ha & Hf & _ & Ht).
    exists s, q. auto.
  - rewrite parse_receipt_text_spec. eexists. split; [reflexivity|].
    cbn [f_total f_subtotal f_tax f_tip].
    assert (Hin : forall ps, incl ps amount_res ->
                  forall p, In p ps -> last_of p = Grp 1 amount_re).
    { intros ps Hi p Hp. apply (@amount_res_last p). apply Hi. assumption. }
    assert (H1 : incl total_res amount_res)
      by (intros p Hp; simpl in *; tauto).
    assert (H2 : incl [subtotal_re] amount_res)
      by (intros p Hp; simpl in *; tauto).
    assert (H3 : incl tax_res amount_res)
      by (intros p Hp; simpl in *; tauto).
    assert (H4 : incl [tip_re] amount_res)
      by (intros p Hp; simpl in *; tauto).
    pose proof (@chain_value_set total_res text (Hin _ H1)) as S1.
    pose proof (@chain_value_set [subtotal_re] text (Hin _ H2)) as S2.
    pose proof (@chain_value_set tax_res text (Hin _ H3)) as S3.
    pose proof (@chain_value_set [tip_re] text (Hin _ H4)) as S4.
    assert (Hnone : forall ps, set_by_first_match (chain_value ps text) ps text ->
                    (chain_value ps text = None <-> first_match ps text = None)).
    { intros ps. unfold set_by_first_match.
      destruct (first_match ps text) as [m|].
      - intros (s & v & _ & _ & _ & ->). split; discriminate.
      - intros ->. tauto. }
    assert (Hone : forall p, first_match [p] text = None <->
                             re_search true p text = None).
    { intros p. simpl. destruct (re_search true p text); split; congruence. }
    repeat split; try assumption; try (apply Hnone; assumption);
      try (rewrite <- Hone; apply Hnone; assumption);
      try (rewrite <- Hone; intros H; apply Hnone; assumption).
Qed.

Lemma C9_amount_captures_parse_witness :
  exists f,
    parse_receipt_text (lit "Sales Tax: $1.5 Tip 2.") = Ok f /\
    f_tax f = Some (fl 1.5) /\ f_tip f = Some (fl 2) /\ f_total f = None.
Proof.
  destruct (C9_amount_captures_parse (lit "Sales Tax: $1.5 Tip 2."))
    as (_ & _ & f & Hf & _ & _ & Htax & Htip & Htotal & _).
  exists f. split; [exact Hf|].
  unfold set_by_first_match in Htax, Htip.
  split; [|split].
  - destruct Htax as (s & v & Hg & _ & Hv & ->).
    vm_compute in Hg. injection Hg as <-. vm_compute in Hv.
    injection Hv as <-. reflexivity.
  - destruct Htip as (s & v & Hg & _ & Hv & ->).
    vm_compute in Hg. injection Hg as <-. vm_compute in Hv.
    injection Hv as <-. reflexivity.
  - apply Htotal. vm_compute. reflexivity.
Defined.

(** ** A date without a month name *)

(** The month of the third date pattern is any three word characters. *)
Lemma month_any_word p a b c :
  is_word a = true -> is_word b = true -> is_word c = true ->
  match_at true month_first_re p ([a; b; c] ++ lit " 45, 2024")
  = Some (MState p 12 [] [(1, [a; b; c] ++ lit " 45, 2024")]).
Proof.
  intros Ha Hb Hc. unfold match_at, month_first_re, date_res. cbn [nth].
  rewrite rmatch_grp, rmatch_cat.
  eapply rmatch_rep_greedy with (s := [a; b; c]);
    [reflexivity | cbn; rewrite Ha, Hb, Hc; reflexivity
     | cbn; lia | cbn; lia | left; reflexivity |].
  rewrite rmatch_cat.
  greedy_run (lit " ") at_end.
  rewrite rmatch_cat.
  greedy_run (lit "45") at_bound.
  rewrite rmatch_cat.
  greedy_run (lit ",") at_bound.
  rewrite rmatch_cat.
  greedy_run (lit " ") at_end.
  greedy_run (lit "2024") at_bound.
  reflexivity.
Qed.

(** C10. The text [123 45, 2024] has no letter in it and neither numeric
    date pattern matches it, yet the third pattern, whose month is any
    three word characters, matches and the date is the whole text. *)
Theorem C10_numeric_month :
  let text := lit "123 45, 2024" in
  forallb (fun c => negb (is_alpha c)) text = true /\
  re_search true (nth 0 date_res Empty) text = None /\
  re_search true (nth 1 date_res Empty) text = None /\
  option_map (fun m => group m 1) (re_search true month_first_re text)
    = Some (Some text) /\
  (exists f, parse_receipt_text text = Ok f /\ f_date f = Some text) /\
  forall a b c p,
    is_word a = true -> is_word b = true -> is_word c = true ->
    option_map (fun m => group m 1)
      (match_at true month_first_re p ([a; b; c] ++ lit " 45, 2024"))
    = Some (Some ([a; b; c] ++ lit " 45, 2024")).
Proof.
  cbv zeta. repeat split; try (vm_compute; reflexivity).
  - eexists. split; [vm_compute; reflexivity | reflexivity].
  - intros a b c p Ha Hb Hc. rewrite (@month_any_word p a b c Ha Hb Hc). reflexivity.
Qed.

Lemma C10_numeric_month_witness :
  option_map (fun m => group m 1)
    (match_at true month_first_re 0 (lit "9_7 45, 2024"))
  = Some (Some (lit "9_7 45, 2024")).
Proof.
  exact (proj2 (proj2 (proj2 (proj2 (proj2 C10_numeric_month))))
           "9"%char "_"%char "7"%char 0 eq_refl eq_refl eq_refl).
Defined.

(** * Further properties *)

(** ** More on the scalar confidence *)

Lemma Zsum_ge_length (l : list Z) :
  Forall (fun c => (0 < c)%Z) l -> (Z.of_nat (List.length l) <= Zsum l)%Z.
Proof.
  induction 1 as [|c l Hc _ IH]; simpl Zsum; simpl List.length; lia.
Qed.

Lemma filter_positive_all (conf : list Z) :
  Forall (fun c => (0 < c)%Z) (filter (fun c => (0 <? c)%Z) conf).
Proof.
  apply Forall_forall. intros c Hc. apply filter_In in Hc.
  destruct Hc as [_ Hc]. apply Z.ltb_lt. exact Hc.
Qed.

Lemma scalar_confidence_floor (conf : list Z) :
  filter (fun c => (0 <? c)%Z) conf <> [] ->
  (1 # 100 <= scalar_confidence conf)%Q.
Proof.
  intros Hne. rewrite (scalar_confidence_some _ Hne).
  unfold positive_mean.
  pose proof (Zsum_ge_length (filter_positive_all conf)) as Hsum.
  destruct (filter (fun c => (0 <? c)%Z) conf) as [|c l] eqn:E; [congruence|].
  set (n := Z.of_nat (List.length (c :: l))) in *.
  set (t := Zsum (c :: l)) in *.
  assert (Hn : (0 < inject_Z n)%Q).
  { change (0%Q) with (inject_Z 0). rewrite <- Zlt_Qlt.
    unfold n. simpl List.length. lia. }
  apply Qle_shift_div_l; [reflexivity|].
  apply Qle_shift_div_l; [assumption|].
  setoid_replace ((1 # 100) * 100 * inject_Z n)%Q with (inject_Z n)
    by (unfold Qeq; simpl; lia).
  rewrite <- Zle_Qle. exact Hsum.
Qed.

Lemma scalar_confidence_nonneg (conf : list Z) : (0 <= scalar_confidence conf)%Q.
Proof.
  destruct (filter (fun c => (0 <? c)%Z) conf) as [|c l] eqn:E.
  - rewrite (scalar_confidence_none _ E). discriminate.
  - apply Qle_trans with (1 # 100)%Q; [discriminate|].
    apply scalar_confidence_floor. congruence.
Qed.

Lemma scalar_confidence_zero (conf : list Z) :
  (scalar_confidence conf == 0)%Q <-> forall c, In c conf -> (c <= 0)%Z.
Proof.
  pose proof (scalar_confidence_floor conf) as Hpos. split.
  - intros Hz c Hc. destruct (Z.ltb_spec 0 c) as [Hlt|]; [|assumption].
    exfalso. assert (Hne : filter (fun c => (0 <? c)%Z) conf <> []).
    { intros E. assert (Hin : In c (filter (fun c => (0 <? c)%Z) conf)).
      { apply filter_In. split; [assumption|]. apply Z.ltb_lt. exact Hlt. }
      rewrite E in Hin. contradiction. }
    specialize (Hpos Hne). rewrite Hz in Hpos.
    unfold Qle in Hpos. simpl in Hpos. lia.
  - intros H. rewrite (scalar_confidence_blank _ H). reflexivity.
Qed.

(** X1. The confidence [extract_text] returns with the text is zero
    exactly when the recogniser gave no token a positive confidence; as
    soon as one token has a positive confidence, it is at least a
    hundredth. *)
Theorem extract_text_confidence (L : OCRLib) (image : Image) (conf : list Z)
  (text : str) :
  image_to_data_conf image = Ok conf -> image_to_string image = Ok text ->
  exists c, extract_text image = Ok (text, c) /\
    ((c == 0)%Q <-> forall x, In x conf -> (x <= 0)%Z) /\
    ((exists x, In x conf /\ (0 < x)%Z) -> (1 # 100 <= c)%Q).
Proof.
  intros Hc Ht. exists (scalar_confidence conf). split; [|split].
  - unfold extract_text. rewrite Hc. cbn [bind]. rewrite Ht. reflexivity.
  - apply scalar_confidence_zero.
  - intros (x & Hx & Hlt). apply scalar_confidence_floor. intros E.
    assert (Hin : In x (filter (fun c => (0 <? c)%Z) conf)).
    { apply filter_In. split; [assumption|]. apply Z.ltb_lt. exact Hlt. }
    rewrite E in Hin. contradiction.
Qed.

Lemma extract_text_confidence_witness :
  exists c,
    extract_text (L := example_lib None [-1; 0; 1]%Z (lit "Tea")) 0
      = Ok (lit "Tea", c) /\ (1 # 100 <= c)%Q.
Proof.
  destruct (@extract_text_confidence (example_lib None [-1; 0; 1]%Z (lit "Tea"))
              0 [-1; 0; 1]%Z (lit "Tea") eq_refl eq_refl) as (c & Hc & _ & Hpos).
  exists c. split; [exact Hc|]. apply Hpos.
  exists 1%Z. split; [simpl; tauto | lia].
Defined.

(** X2. Tokens without a positive confidence count for nothing, wherever they
    stand. *)
Theorem scalar_confidence_ignores (l1 l2 : list Z) (c : Z) :
  (c <= 0)%Z ->
  scalar_confidence (l1 ++ c :: l2) = scalar_confidence (l1 ++ l2).
Proof.
  intros Hc. unfold scalar_confidence.
  rewrite !filter_app. cbn [filter].
  destruct (Z.ltb_spec 0 c) as [Hlt|_]; [lia | reflexivity].
Qed.

Lemma scalar_confidence_ignores_witness :
  scalar_confidence ([90] ++ (-1) :: [80])%Z = scalar_confidence ([90] ++ [80])%Z.
Proof. apply scalar_confidence_ignores. lia. Defined.

(** ** More on the skew corrector *)

Lemma f32_below_45 (z : Q) :
  (Qabs (f32 z) < 45)%Q -> (Qabs (f32 z) <= below_45)%Q.
Proof.
  unfold f32. rewrite (round_to_abs prec24). set (w := Qabs z).
  intros H. destruct (Qle_bool w 0) eqn:Ew.
  { unfold round_pos. rewrite Ew. discriminate. }
  assert (Hw : (0 < w)%Q).
  { apply Qnot_le_lt. intros Hle. apply Qle_bool_iff in Hle. congruence. }
  destruct (round_pos_range prec24 Hw) as [Hlo Hhi].
  assert (He : (Qlog2 w < 6)%Z).
  { apply (Qpower_lt_compat_l_inv 2); [|reflexivity].
    eapply Qle_lt_trans; [exact Hlo|]. eapply Qlt_le_trans; [exact H|].
    discriminate. }
  destruct (Z.eq_dec (Qlog2 w) 5) as [E|N].
  - unfold round_pos in *. rewrite Ew in *. rewrite E in *.
    change (2 ^ (5 - 24 + 1))%Q with (1 # 262144)%Q in *.
    set (k := Qround_even (w / (1 # 262144))) in *.
    unfold Qlt in H. unfold Qle, below_45. simpl in *. lia.
  - eapply Qle_trans; [exact Hhi|].
    apply Qle_trans with (2 ^ 5)%Q; [|discriminate].
    apply Qpower_le_compat_l; [lia | discriminate].
Qed.

Lemma fadd32_dom (x y bx b_y : Q) :
  (Qabs x <= bx)%Q -> (Qabs y <= b_y)%Q ->
  (Qabs (fadd32 x y) <= fadd32 bx b_y)%Q.
Proof.
  intros Hx Hy. apply (round_to_dom prec24).
  eapply Qle_trans; [apply Qabs_triangle|]. lra.
Qed.

Lemma fold_fadd32_dom (b : Q) (l : list Q) : forall s bs,
  (Qabs s <= bs)%Q -> (forall a, In a l -> (Qabs a <= b)%Q) ->
  (Qabs (fold_left fadd32 l s)
   <= fold_left fadd32 (repeat b (List.length l)) bs)%Q.
Proof.
  induction l as [|a l IH]; intros s bs Hs Hl; simpl; [exact Hs|].
  apply IH.
  - apply fadd32_dom; [exact Hs | apply Hl; left; reflexivity].
  - intros x Hx. apply Hl. right. exact Hx.
Qed.

Lemma np_sum_dom (b : Q) (l : list Q) :
  (forall a, In a l -> (Qabs a <= b)%Q) ->
  (Qabs (np_sum l) <= np_sum (repeat b (List.length l)))%Q.
Proof.
  intros Hl.
  assert (Hshort : (Qabs (fold_left fadd32 l 0%Q)
                    <= fold_left fadd32 (repeat b (List.length l)) 0%Q)%Q).
  { apply fold_fadd32_dom; [discriminate | exact Hl]. }
  do 8 (destruct l as [|? l]; [exact Hshort|]).
  clear Hshort. cbn [np_sum List.length repeat].
  apply fold_fadd32_dom.
  - repeat apply fadd32_dom; apply Hl; simpl; tauto.
  - intros x Hx. apply Hl. simpl. tauto.
Qed.

Lemma np_mean_dom (b : Q) (l : list Q) :
  l <> [] -> (forall a, In a l -> (Qabs a <= b)%Q) ->
  (Qabs (np_mean l) <= np_mean (repeat b (List.length l)))%Q.
Proof.
  intros Hne Hl. unfold np_mean. rewrite repeat_length.
  set (n := inject_Z (Z.of_nat (List.length l))).
  assert (Hn : (0 < n)%Q).
  { unfold n. change 0%Q with (inject_Z 0). rewrite <- Zlt_Qlt.
    destruct l; [congruence | simpl List.length; lia]. }
  apply (round_to_dom prec24). apply (round_to_dom prec53).
  unfold Qdiv. rewrite Qabs_Qmult.
  rewrite (Qabs_pos (/ n)) by (apply Qlt_le_weak, Qinv_lt_0_compat; exact Hn).
  apply Qmult_le_r; [apply Qinv_lt_0_compat; exact Hn|].
  apply np_sum_dom. exact Hl.
Qed.

(** The mean of at most ten single-precision numbers below 45 in absolute
    value is below 45 in absolute value. *)
Lemma np_mean_bound (l : list Q) :
  l <> [] -> List.length l <= 10 ->
  (forall a, In a l -> (Qabs a <= below_45)%Q) ->
  (Qabs (np_mean l) < 45)%Q.
Proof.
  intros Hne Hlen Hl.
  eapply Qle_lt_trans; [exact (@np_mean_dom below_45 l Hne Hl)|].
  destruct l as [|a l]; [congruence|]. clear Hne Hl. simpl List.length in *.
  remember (List.length l) as n eqn:En. clear En.
  do 10 (destruct n as [|n]; [vm_compute; reflexivity|]).
  lia.
Qed.

Lemma candidate_angles_bound (lines : list (Q * Q)) (a : Q) :
  In a (candidate_angles lines) -> (Qabs a <= below_45)%Q.
Proof.
  intros H. apply candidate_angles_spec in H.
  destruct H as (_ & line & _ & _ & -> & H).
  apply f32_below_45. exact H.
Qed.

(** X3. Once the lines are detected, the skew corrector either returns its
    input or what the rotation gives for an angle that is more than half
    a degree and less than 45 degrees off. *)
Theorem deskew_rotation_bounds (L : OCRLib) (image : Image) img_array edges lines :
  np_array image = Ok img_array ->
  Canny img_array 50 150 3 = Ok edges ->
  HoughLines edges 1 (np_pi / 180) 200 = Ok lines ->
  deskew_image image = Ok image \/
  exists angle,
    deskew_image image = image_rotate image angle 255 true /\
    (1 # 2 < Qabs angle)%Q /\ (Qabs angle < 45)%Q.
Proof.
  intros H1 H2 H3.
  rewrite (@deskew_image_detected L image img_array edges lines H1 H2 H3).
  destruct (detected_angles lines) as [|a l] eqn:E; [left; reflexivity|].
  cbn [is_nil negb].
  destruct (Qltb (1 # 2) (Qabs (np_mean (a :: l)))) eqn:Hlt; [|left; reflexivity].
  right. exists (np_mean (a :: l)). split; [reflexivity|].
  split; [apply Qltb_lt; exact Hlt|].
  unfold detected_angles in E. destruct lines as [ls|]; [|discriminate].
  rewrite <- E. apply np_mean_bound.
  - rewrite E. discriminate.
  - apply candidate_angles_length.
  - intros x Hx. apply (candidate_angles_bound ls). exact Hx.
Qed.

Lemma deskew_rotation_bounds_witness :
  exists angle,
    deskew_image (L := example_lib (Some tilted_lines) [] []) 0 = Ok 1 /\
    (1 # 2 < Qabs angle)%Q /\ (Qabs angle < 45)%Q.
Proof.
  destruct (@deskew_rotation_bounds (example_lib (Some tilted_lines) [] []) 0 0 0
              (Some tilted_lines) eq_refl eq_refl eq_refl)
    as [H | (angle & H & Hb)].
  - vm_compute in H. discriminate H.
  - exists angle. split; [reflexivity | exact Hb].
Defined.

(** ** The base64 endpoint *)

Lemma mem_string_In (x : string) (l : list string) :
  mem_string x l = true <-> In x l.
Proof.
  unfold mem_string. rewrite existsb_exists. split.
  - intros (y & Hy & E). apply String.eqb_eq in E. subst y. exact Hy.
  - intros H. exists x. split; [exact H | apply String.eqb_refl].
Qed.

(** Before the first base64 digit the decoder passes over every other
    character, the padding character included. *)
Lemma a2b_base64_no_digit (s : str) :
  (forall c, In c s -> b64_value c = None) ->
  a2b_base64 s 0 0%N 0 [] = Ok [].
Proof.
  induction s as [|c s IH]; intros H; [reflexivity|].
  cbn [a2b_base64]. destruct (Ascii.eqb c "=").
  - cbn [Nat.leb andb]. apply IH. intros x Hx. apply H. right. exact Hx.
  - rewrite (H c (or_introl eq_refl)). apply IH.
    intros x Hx. apply H. right. exact Hx.
Qed.

Lemma b64decode_not_ascii (s : str) (c : ascii) :
  In c s -> (128 <= code c)%N ->
  b64decode s
  = Raise (ValueError "string argument should contain only ASCII characters").
Proof.
  intros Hin Hc. unfold b64decode.
  destruct (forallb (fun c => (code c <? 128)%N) s) eqn:E; [|reflexivity].
  rewrite forallb_forall in E. specialize (E c Hin).
  apply N.ltb_lt in E. lia.
Qed.

Lemma b64decode_no_digit (s : str) :
  (forall c, In c s -> (code c < 128)%N /\ b64_value c = None) ->
  b64decode s = Ok [].
Proof.
  intros H. unfold b64decode.
  replace (forallb (fun c => (code c <? 128)%N) s) with true.
  - apply a2b_base64_no_digit. intros c Hc. apply (H c Hc).
  - symmetry. apply forallb_forall. intros c Hc. apply N.ltb_lt. apply (H c Hc).
Qed.

(** X5. The base64 endpoint never refuses a request. Its [try] block
    answers what the one of the upload endpoint answers on the bytes the
    entry [image] decodes to. A body without the entry, or with an entry
    of ASCII characters none of which is a base64 digit, is answered as an
    upload of no bytes; an entry with a character outside ASCII is
    answered with the failure that carries the decoder's message. *)
Theorem scan_receipt_base64_response (L : OCRLib) (job : string)
  (image_data : string -> option str) (file : UploadFile) :
  scan_receipt_base64 job image_data
    = scan job (b64decode (dict_get image_data "image" [])) /\
  job_id (scan_receipt_base64 job image_data) = job /\
  (image_data "image"%string = None ->
   scan_receipt_base64 job image_data = scan job (Ok [])) /\
  (forall v,
     image_data "image"%string = Some v ->
     (forall c, In c v -> (code c < 128)%N /\ b64_value c = None) ->
     scan_receipt_base64 job image_data = scan job (Ok [])) /\
  (forall v c,
     image_data "image"%string = Some v -> In c v -> (128 <= code c)%N ->
     scan_receipt_base64 job image_data
     = {| success := false; job_id := job; data := None;
          error := Some "string argument should contain only ASCII characters"%string |}) /\
  (In (content_type file) allowed_types ->
   file_read file = b64decode (dict_get image_data "image" []) ->
   scan_receipt job file = Ok (scan_receipt_base64 job image_data)).
Proof.
  assert (Hsame : scan_receipt_base64 job image_data
                  = scan job (b64decode (dict_get image_data "image" []))).
  { unfold scan_receipt_base64, scan, scan_body_base64, scan_body.
    destruct (b64decode (dict_get image_data "image" [])); reflexivity. }
  split; [exact Hsame|]. rewrite Hsame. split; [|split; [|split; [|split]]].
  - unfold scan. destruct (scan_body _); reflexivity.
  - intros H. unfold dict_get. rewrite H. reflexivity.
  - intros v Hv Hall. unfold dict_get. rewrite Hv.
    rewrite (b64decode_no_digit _ Hall). reflexivity.
  - intros v c Hv Hin Hc. unfold dict_get. rewrite Hv.
    rewrite (b64decode_not_ascii _ _ Hin Hc). reflexivity.
  - intros Hin Hread. rewrite <- Hread.
    unfold scan_receipt. apply mem_string_In in Hin. rewrite Hin. reflexivity.
Qed.

Lemma scan_receipt_base64_response_witness :
  scan_receipt_base64 (L := example_lib None [] []) "job-5"
    (body_with_image (lit "!"))
  = scan (L := example_lib None [] []) "job-5" (Ok []) /\
  scan_receipt_base64 (L := example_lib None [] []) "job-5"
    (body_with_image [ascii_of_N 233])
  = {| success := false; job_id := "job-5"; data := None;
       error := Some "string argument should contain only ASCII characters"%string |} /\
  scan_receipt (L := example_lib None [] []) "job-5" (example_upload "image/png")
  = Ok (scan_receipt_base64 (L := example_lib None [] []) "job-5"
          body_without_image).
Proof.
  pose proof (@scan_receipt_base64_response (example_lib None [] [])
                "job-5" (body_with_image (lit "!"))
                (example_upload "image/png")) as H1.
  pose proof (@scan_receipt_base64_response (example_lib None [] [])
                "job-5" (body_with_image [ascii_of_N 233])
                (example_upload "image/png")) as H2.
  pose proof (@scan_receipt_base64_response (example_lib None [] [])
                "job-5" body_without_image
                (example_upload "image/png")) as H3.
  destruct H1 as (_ & _ & _ & H1 & _). destruct H2 as (_ & _ & _ & _ & H2 & _).
  destruct H3 as (_ & _ & _ & _ & _ & H3).
  split; [|split].
  - apply (H1 (lit "!") eq_refl).
    intros c [<- | []]. split; [reflexivity | reflexivity].
  - apply (H2 [ascii_of_N 233] (ascii_of_N 233) eq_refl);
      [left; reflexivity | vm_compute; discriminate].
  - apply H3; [simpl; tauto | reflexivity].
Defined.

(** ** The value of an amount *)

Lemma digits_value_nonneg (s : str) : forall acc,
  (0 <= acc)%Z -> (0 <= digits_value acc s)%Z.
Proof.
  induction s as [|c s IH]; intros acc H; cbn [digits_value]; [exact H|].
  apply IH. pose proof (N2Z.is_nonneg (code c - 48)). lia.
Qed.

Lemma decimal_nonneg (m e : Z) : (0 <= m)%Z -> (0 <= decimal m e)%Q.
Proof.
  intros H. unfold decimal. rewrite Qred_correct.
  destruct (0 <=? e)%Z eqn:E.
  - change (0%Q) with (inject_Z 0). rewrite <- Zle_Qle.
    apply Z.mul_nonneg_nonneg; [exact H|]. apply Z.pow_nonneg. lia.
  - unfold Qle. simpl. lia.
Qed.

(** [float] on the text of an amount is the decimal parser on it. *)
Lemma float_of_str_plain (s : str) :
  amount_text s ->
  float_of_str s = match parse_decimal false s with
                   | Some v => Ok v
                   | None => Raise (ValueError "could not convert string to float")
                   end.
Proof.
  intros Ha. destruct (amount_text_plain Ha) as (c & s' & Hs & Hc & Hp).
  unfold float_of_str.
  rewrite (map_to_ascii_plain _ Hp).
  rewrite strip_by_none
    by (eapply forallb_impl; [|exact Hp]; intros x Hx;
        rewrite (plain_not_space _ Hx); reflexivity).
  rewrite (drop_underscores_plain _ zero eq_refl Hp).
  unfold float_of_ascii. subst s.
  rewrite (digit_not_sign _ _ Hc), (parse_inf_or_nan_digit _ _ _ Hc).
  reflexivity.
Qed.

Lemma is_nil_false {A : Type} (l : list A) : l <> [] -> is_nil l = false.
Proof. destruct l; [congruence | reflexivity]. Qed.

Lemma parse_decimal_digits (d : str) :
  d <> [] -> forallb is_digit d = true ->
  parse_decimal false d = Some (Finite (decimal (digits_value 0 d) 0)).
Proof.
  intros Hne Hd. unfold parse_decimal.
  rewrite (span_digits_all _ Hd), (is_nil_false Hne). simpl.
  rewrite app_nil_r. reflexivity.
Qed.

Lemma parse_decimal_point (d1 d2 : str) :
  d1 <> [] -> forallb is_digit d1 = true -> forallb is_digit d2 = true ->
  parse_decimal false (d1 ++ "."%char :: d2)
  = Some (Finite (decimal (digits_value 0 (d1 ++ d2))
                          (- Z.of_nat (List.length d2)))).
Proof.
  intros Hne H1 H2. unfold parse_decimal.
  rewrite (span_digits_app d1 ("."%char :: d2) H1 eq_refl).
  rewrite (span_digits_all _ H2), (is_nil_false Hne). reflexivity.
Qed.

(** The float of the text of an amount is finite and not negative. *)
Lemma float_of_str_amount_nonneg (s : str) :
  amount_text s -> exists q, float_of_str s = Ok (Finite q) /\ (0 <= q)%Q.
Proof.
  intros Ha. rewrite (float_of_str_plain Ha).
  destruct Ha as (d1 & d2 & Hne & H1 & H2 & [-> | ->]).
  - rewrite (parse_decimal_digits Hne H1). eexists. split; [reflexivity|].
    apply decimal_nonneg. apply digits_value_nonneg. lia.
  - rewrite (parse_decimal_point _ Hne H1 H2). eexists. split; [reflexivity|].
    apply decimal_nonneg. apply digits_value_nonneg. lia.
Qed.

Lemma chain_value_nonneg (ps : list re) (text : str) :
  (forall p, In p ps -> last_of p = Grp 1 amount_re) ->
  not_negative (chain_value ps text).
Proof.
  intros Hps. pose proof (@chain_value_set ps text Hps) as H.
  unfold set_by_first_match in H.
  destruct (first_match ps text) as [m|].
  - destruct H as (s & v & _ & Ha & Hv & ->).
    destruct (float_of_str_amount_nonneg Ha) as (q & Hq & Hpos).
    rewrite Hq in Hv. injection Hv as <-. exact Hpos.
  - rewrite H. exact I.
Qed.

Lemma amount_res_incl (ps : list re) :
  incl ps amount_res -> forall p, In p ps -> last_of p = Grp 1 amount_re.
Proof. intros Hi p Hp. apply (@amount_res_last p). apply Hi. exact Hp. Qed.

(** X6. The total, the subtotal, the tax and the tip are each unset or an
    amount that is not negative and not a NaN: the patterns capture no
    sign and no letter. *)
Theorem amount_fields_not_negative (text : str) :
  exists f, parse_receipt_text text = Ok f /\
    not_negative (f_total f) /\ not_negative (f_subtotal f) /\
    not_negative (f_tax f) /\ not_negative (f_tip f).
Proof.
  rewrite parse_receipt_text_spec. eexists. split; [reflexivity|].
  cbn [f_total f_subtotal f_tax f_tip].
  repeat split; apply chain_value_nonneg; apply amount_res_incl;
    intros p Hp; simpl in *; tauto.
Qed.

(** ** The amount of an item *)

Lemma Steps_price_shape ic a b :
  Steps ic price_re a b ->
  exists d1 d2, consumed a (d1 ++ "."%char :: d2) b /\ caps b = caps a /\
    d1 <> [] /\ forallb is_digit d1 = true /\
    forallb is_digit d2 = true /\ List.length d2 = 2.
Proof.
  unfold price_re. intros H.
  apply Steps_cat_inv in H. destruct H as (b1 & H1 & H).
  apply Steps_cat_inv in H. destruct H as (b2 & H2 & H3).
  apply (@Steps_rep_chars ic (Cls CDigit) _ eq_refl) in H1.
  apply (@Steps_char_inv ic (Chr ".") _ _ _ eq_refl) in H2.
  apply (@Steps_rep_chars ic (Cls CDigit) _ eq_refl) in H3.
  destruct H1 as (s1 & Hc1 & Hk1 & Hd1 & Hl1 & _).
  destruct H2 as (x & xs & Hr2 & Hx & ->).
  destruct H3 as (s3 & Hc3 & Hk3 & Hd3 & Hlo3 & Hhi3).
  change (forallb is_digit s1 = true) in Hd1.
  change (forallb is_digit s3 = true) in Hd3.
  apply chr_eq_dot in Hx. subst x.
  assert (Hc2 : consumed b1 ["."%char] (advance b1)).
  { split; simpl; [rewrite Hr2; reflexivity | lia]. }
  exists s1, s3. split; [|split; [|split; [|split; [|split]]]].
  - change (s1 ++ "."%char :: s3) with (s1 ++ ["."%char] ++ s3).
    eapply consumed_trans; [eassumption|].
    eapply consumed_trans; eassumption.
  - simpl in *. congruence.
  - destruct s1; simpl in *; [lia | discriminate].
  - exact Hd1.
  - exact Hd3.
  - simpl in Hhi3. lia.
Qed.

Lemma item_match_shape line m :
  re_match false item_re line = Some m ->
  exists d ws dollar d1 d2 ws' fin,
    line = d ++ ws ++ dollar ++ (d1 ++ "."%char :: d2) ++ ws' ++ fin /\
    caps m = [(2, d1 ++ "."%char :: d2); (1, d)] /\
    (ws <> [] /\ forallb is_space ws = true) /\
    (dollar = [] \/ dollar = ["$"%char]) /\
    (d1 <> [] /\ forallb is_digit d1 = true /\
     forallb is_digit d2 = true /\ List.length d2 = 2) /\
    forallb is_space ws' = true /\ (fin = [] \/ fin = [newline]).
Proof.
  intros H. apply re_match_steps in H. unfold item_re in H.
  apply Steps_cat_inv in H. destruct H as (b0 & H0 & H).
  apply Steps_bol_inv in H0. destruct H0 as [-> _].
  apply Steps_cat_inv in H. destruct H as (b1 & H1 & H).
  apply Steps_grp_capture in H1. destruct H1 as (b1' & d & H1 & [Hrd _] & ->).
  apply (@Steps_rep_chars false Dot _ eq_refl) in H1.
  destruct H1 as (_ & _ & Hk1 & _).
  apply Steps_cat_inv in H. destruct H as (b2 & H2 & H).
  apply (@Steps_rep_chars false (Cls CSpace) _ eq_refl) in H2.
  destruct H2 as (ws & [Hrw _] & Hk2 & Hws & Hlw & _).
  apply Steps_cat_inv in H. destruct H as (b3 & H3 & H).
  apply (@Steps_rep_chars false (Chr "$") _ eq_refl) in H3.
  destruct H3 as (dl & [Hrl _] & Hk3 & Hdl & _ & Hhl).
  apply Steps_cat_inv in H. destruct H as (b4 & H4 & H).
  apply Steps_grp_capture in H4. destruct H4 as (b4' & p & Hp & Hcp & ->).
  apply Steps_cat_inv in H. destruct H as (b5 & H5 & H6).
  apply (@Steps_rep_chars false (Cls CSpace) _ eq_refl) in H5.
  destruct H5 as (ws' & [Hrw' _] & Hk5 & Hws' & _).
  apply Steps_eol_inv in H6. destruct H6 as [-> Hfin].
  apply Steps_price_shape in Hp.
  destruct Hp as (d1 & d2 & Hcp' & Hk4 & Hne & Hd1 & Hd2 & Hl).
  assert (p = d1 ++ "."%char :: d2).
  { destruct Hcp as [E1 _], Hcp' as [E2 _]. rewrite E2 in E1.
    apply app_inv_tail in E1. symmetry. assumption. }
  subst p. destruct Hcp as [Hrp _].
  exists d, ws, dl, d1, d2, ws', (rest b5).
  split; [|split; [|split; [|split; [|split; [|split]]]]].
  - simpl in Hrd, Hrw, Hrw'. rewrite Hrd, Hrw, Hrl, Hrp, Hrw'. reflexivity.
  - rewrite Hk5. simpl. rewrite Hk4, Hk3, Hk2. simpl. rewrite Hk1. reflexivity.
  - split; [destruct ws; simpl in *; [lia | discriminate] | exact Hws].
  - destruct dl as [|x [|y t]]; [left; reflexivity | right | simpl in Hhl; lia].
    cbn [forallb] in Hdl. rewrite andb_true_r in Hdl.
    change (Ascii.eqb "$" x = true) in Hdl.
    apply Ascii.eqb_eq in Hdl. rewrite Hdl. reflexivity.
  - auto.
  - exact Hws'.
  - exact Hfin.
Qed.

(** An item of the result, with the line it was read from. *)
Lemma item_of_line text it :
  In it (flat_map line_items (text_lines text)) ->
  exists line m d p q,
    In line (text_lines text) /\
    found (re_search true skip_re line) = false /\
    re_match false item_re line = Some m /\
    caps m = [(2, p); (1, d)] /\
    float_of_str p = Ok (Finite q) /\
    it = Item (strip d) (Finite q) /\ accepted (strip d, q).
Proof.
  intros Hit. apply in_flat_map in Hit. destruct Hit as (line & Hl & Hit).
  apply line_items_in in Hit. destruct Hit as (d' & q & Hc & -> & Ha).
  unfold candidate in Hc.
  destruct (found (re_search true skip_re line)) eqn:Hskip; [discriminate|].
  destruct (re_match false item_re line) as [m|] eqn:Hm; [|discriminate].
  destruct (item_match_shape _ Hm) as (d & ws & dl & d1 & d2 & ws' & fin & _ & Hcaps & _).
  unfold group in Hc. rewrite Hcaps in Hc. simpl in Hc.
  destruct (float_of_str (d1 ++ "."%char :: d2)) as [[q'| |]|] eqn:Hf;
    try discriminate.
  injection Hc as <- <-.
  exists line, m, d, (d1 ++ "."%char :: d2), q'. auto 10.
Qed.

Lemma decimal_cents (m : Z) : (decimal m (-2) == m # 100)%Q.
Proof. unfold decimal. rewrite Qred_correct. reflexivity. Qed.

(** X7. The amount of an item is what [float] reads from digits, a point
    and exactly two digits; these digits, read without the point, are a
    number of cents that is more than none and less than a million. *)
Theorem item_amounts_cents (text : str) :
  exists f, parse_receipt_text text = Ok f /\
    forall it, In it (f_items f) ->
      exists d1 d2 cents,
        float_of_str (d1 ++ "."%char :: d2) = Ok (item_amount it) /\
        (d1 <> [] /\ forallb is_digit d1 = true) /\
        (forallb is_digit d2 = true /\ List.length d2 = 2) /\
        digits_value 0 (d1 ++ d2) = cents /\ (0 < cents < 1000000)%Z.
Proof.
  rewrite parse_receipt_text_spec. eexists. split; [reflexivity|].
  cbn [f_items]. intros it Hit.
  destruct (item_of_line _ _ Hit) as (line & m & d & p & q & _ & _ & Hm & Hcaps & Hf & -> & Ha).
  destruct (item_match_shape _ Hm)
    as (d0 & ws & dl & d1 & d2 & ws' & fin & _ & Hcaps' & _ & _ & (Hne & H1 & H2 & Hl) & _).
  rewrite Hcaps in Hcaps'. injection Hcaps' as -> ->.
  exists d1, d2, (digits_value 0 (d1 ++ d2)).
  split; [exact Hf|]. split; [auto|]. split; [auto|]. split; [reflexivity|].
  assert (Hat : amount_text (d1 ++ "."%char :: d2)).
  { exists d1, d2. auto. }
  rewrite (float_of_str_plain Hat), (parse_decimal_point _ Hne H1 H2), Hl in Hf.
  injection Hf as <-.
  destruct Ha as (_ & Hlo & Hhi). cbn [snd] in Hlo, Hhi.
  change (- Z.of_nat 2)%Z with (-2)%Z in Hlo, Hhi.
  rewrite decimal_cents in Hlo, Hhi.
  unfold Qlt in Hlo, Hhi. simpl in Hlo, Hhi. lia.
Qed.

Lemma item_amounts_cents_witness :
  exists f d1 d2,
    parse_receipt_text (lit "Coffee 3.50") = Ok f /\
    f_items f = [Item (lit "Coffee") (fl 3.50)] /\
    float_of_str (d1 ++ "."%char :: d2) = Ok (fl 3.50) /\
    (0 < digits_value 0 (d1 ++ d2) < 1000000)%Z.
Proof.
  destruct (item_amounts_cents (lit "Coffee 3.50")) as (f & Hf & H).
  assert (E : f_items f = [Item (lit "Coffee") (fl 3.50)]).
  { vm_compute in Hf. injection Hf as <-. reflexivity. }
  destruct (H (Item (lit "Coffee") (fl 3.50)))
    as (d1 & d2 & cents & Hq & _ & _ & Hc & Hb).
  { rewrite E. left. reflexivity. }
  exists f, d1, d2. split; [exact Hf|]. split; [exact E|].
  split; [exact Hq|]. rewrite Hc. exact Hb.
Defined.

(** ** A text without digits *)

Lemma Steps_needs_digit ic r a b :
  Steps ic r a b -> needs_digit r = true ->
  exists s, consumed a s b /\ existsb is_digit s = true.
Proof.
  induction 1; intros Hn; try discriminate.
  - destruct r; try discriminate. destruct k; try discriminate.
    simpl in H. injection H as <-.
    exists [x]. split.
    + split; simpl; [rewrite H0; reflexivity | lia].
    + simpl. simpl in H1. rewrite H1. reflexivity.
  - simpl in Hn. apply orb_prop in Hn.
    destruct (Steps_consumed H) as (s1 & Hs1).
    destruct (Steps_consumed H0) as (s2 & Hs2).
    destruct Hn as [Hn | Hn].
    + destruct (IHSteps1 Hn) as (s & Hs & Hd).
      exists (s ++ s2). split; [eapply consumed_trans; eassumption|].
      rewrite existsb_app, Hd. reflexivity.
    + destruct (IHSteps2 Hn) as (s & Hs & Hd).
      exists (s1 ++ s). split; [eapply consumed_trans; eassumption|].
      rewrite existsb_app, Hd. apply orb_true_r.
  - simpl in Hn. apply andb_prop in Hn. apply IHSteps. tauto.
  - simpl in Hn. apply andb_prop in Hn. apply IHSteps. tauto.
  - simpl in Hn. apply andb_prop in Hn. destruct Hn as [_ Hn].
    destruct (IHSteps1 Hn) as (s & Hs & Hd).
    destruct (Steps_consumed H1) as (s2 & Hs2).
    exists (s ++ s2). split; [eapply consumed_trans; eassumption|].
    rewrite existsb_app, Hd. reflexivity.
  - simpl in Hn. destruct (IHSteps Hn) as (s & Hs & Hd).
    exists s. split; [apply consumed_set_cap; exact Hs | exact Hd].
Qed.

Lemma no_digit_existsb (s : str) :
  no_digit s -> existsb is_digit s = true -> False.
Proof.
  intros H E. apply existsb_exists in E. destruct E as (c & Hc & Hd).
  rewrite (H c Hc) in Hd. discriminate.
Qed.

Lemma match_no_digit ic r p s :
  needs_digit r = true -> no_digit s -> match_at ic r p s = None.
Proof.
  intros Hn Hs. destruct (match_at ic r p s) as [m|] eqn:E; [|reflexivity].
  exfalso. unfold match_at in E. apply rmatch_sound in E.
  destruct E as (st' & Hst & _).
  destruct (Steps_needs_digit Hst Hn) as (t & [Hr _] & Hd).
  simpl in Hr. apply (@no_digit_existsb t); [|exact Hd].
  intros c Hc. apply Hs. rewrite Hr. apply in_or_app. left. exact Hc.
Qed.

Lemma search_no_digit ic r text :
  needs_digit r = true -> no_digit text -> re_search ic r text = None.
Proof.
  intros Hn Hs. destruct (re_search ic r text) as [m|] eqn:E; [|reflexivity].
  exfalso. apply search_from_sound in E. destruct E as (pre & s' & -> & E).
  rewrite (@match_no_digit ic r _ s' Hn) in E; [discriminate|].
  intros c Hc. apply Hs. apply in_or_app. right. exact Hc.
Qed.

(** What stripping and splitting leave was in the text. *)

Lemma lstrip_by_incl p s c : In c (lstrip_by p s) -> In c s.
Proof.
  induction s as [|x s IH]; simpl; [tauto|].
  destruct (p x); [intros H; right; apply IH; exact H | simpl; tauto].
Qed.

Lemma strip_by_incl p s c : In c (strip_by p s) -> In c s.
Proof.
  unfold strip_by. intros H. apply in_rev in H.
  apply lstrip_by_incl in H. apply in_rev in H.
  apply lstrip_by_incl in H. exact H.
Qed.

Lemma split_incl sep s : forall l c, In l (split sep s) -> In c l -> In c s.
Proof.
  induction s as [|x s IH]; intros l c Hl Hc; simpl in Hl.
  - destruct Hl as [<- | []]. contradiction.
  - destruct (Ascii.eqb x sep).
    + destruct Hl as [<- | Hl]; [contradiction|]. right. eapply IH; eassumption.
    + destruct (split sep s) as [|l0 ls] eqn:E.
      * destruct Hl as [<- | []]. destruct Hc as [<- | []]. left. reflexivity.
      * destruct Hl as [<- | Hl].
        -- destruct Hc as [<- | Hc]; [left; reflexivity|].
           right. apply (IH l0 c); [left; reflexivity | exact Hc].
        -- right. apply (IH l c); [right; exact Hl | exact Hc].
Qed.

Lemma text_lines_incl text line c :
  In line (text_lines text) -> In c line -> In c text.
Proof.
  unfold text_lines. intros Hl Hc. apply filter_In in Hl. destruct Hl as [Hl _].
  apply in_map_iff in Hl. destruct Hl as (l & <- & Hl).
  apply strip_by_incl in Hc. apply (split_incl _ _ _ c) in Hl; [|exact Hc].
  apply strip_by_incl in Hl. exact Hl.
Qed.

Lemma flat_map_nil {A B : Type} (f : A -> list B) (l : list A) :
  (forall x, In x l -> f x = []) -> flat_map f l = [].
Proof.
  induction l as [|x l IH]; intros H; simpl; [reflexivity|].
  rewrite (H x (or_introl eq_refl)), IH; [reflexivity|].
  intros y Hy. apply H. right. exact Hy.
Qed.

Lemma line_items_no_digit line : no_digit line -> line_items line = [].
Proof.
  intros H. unfold line_items, candidate.
  destruct (found (re_search true skip_re line)); [reflexivity|].
  unfold re_match. rewrite (@match_no_digit false item_re 0 line eq_refl H).
  reflexivity.
Qed.

Lemma chain_no_digit ps text :
  (forall p, In p ps -> needs_digit p = true) -> no_digit text ->
  first_match ps text = None.
Proof.
  intros Hps Hn. apply first_match_none. intros p Hp.
  apply search_no_digit; [apply Hps; exact Hp | exact Hn].
Qed.

(** X8. From a text without a digit the extractor takes no date, no total, no
    subtotal, no tax, no tip and no item. *)
Theorem no_digit_no_amounts (text : str) :
  no_digit text ->
  exists f, parse_receipt_text text = Ok f /\
    f_date f = None /\ f_total f = None /\ f_subtotal f = None /\
    f_tax f = None /\ f_tip f = None /\ f_items f = [].
Proof.
  intros Hn. rewrite parse_receipt_text_spec. eexists. split; [reflexivity|].
  cbn [f_date f_total f_subtotal f_tax f_tip f_items].
  assert (Hall : forall ps, incl ps (date_res ++ amount_res) ->
                            first_match ps text = None).
  { intros ps Hi. apply chain_no_digit; [|exact Hn].
    intros p Hp. apply Hi in Hp. simpl in Hp.
    repeat (destruct Hp as [<- | Hp]; [reflexivity|]). contradiction. }
  rewrite first_date_spec. unfold chain_value.
  rewrite !Hall by (intros p Hp; simpl in *; tauto).
  repeat split.
  apply flat_map_nil. intros line Hl. apply line_items_no_digit.
  intros c Hc. apply Hn. eapply text_lines_incl; eassumption.
Qed.

Lemma no_digit_no_amounts_witness :
  exists f,
    parse_receipt_text (unlines ["Thank you!"; "Total: n/a"]%string) = Ok f /\
    f_date f = None /\ f_total f = None /\ f_subtotal f = None /\
    f_tax f = None /\ f_tip f = None /\ f_items f = [].
Proof.
  apply no_digit_no_amounts.
  intros c Hc. simpl in Hc.
  repeat (destruct Hc as [<- | Hc]; [reflexivity|]). contradiction.
Defined.

(** ** A pattern that ends in another *)

Lemma Steps_pos_le ic r a b : Steps ic r a b -> pos a <= pos b.
Proof. intros H. destruct (Steps_consumed H) as (s & _ & Hp). lia. Qed.

(** A derivation does not depend on where the attempt started, only on the
    position in the text and on what is left of it. *)
Lemma Steps_reframe ic r a b :
  Steps ic r a b ->
  forall a', rest a' = rest a -> origin a' + pos a' = origin a + pos a ->
  exists b', Steps ic r a' b' /\ rest b' = rest b /\
             pos b' + pos a = pos b + pos a'.
Proof.
  induction 1; intros a' Hr Ho.
  - exists a'. split; [constructor|]. split; [assumption | lia].
  - exists (advance a'). split.
    + eapply St_Char; [eassumption | rewrite Hr; eassumption | assumption].
    + simpl. rewrite Hr. split; [reflexivity | lia].
  - exists a'. split; [constructor; lia|]. split; [assumption | lia].
  - exists a'. split; [constructor; rewrite Hr; assumption|].
    split; [assumption | lia].
  - destruct (IHSteps1 a' Hr Ho) as (b' & Hs1 & Hr1 & Hp1).
    pose proof (Steps_origin H) as Ho1. pose proof (Steps_origin Hs1) as Ho1'.
    destruct (IHSteps2 b' Hr1) as (c' & Hs2 & Hr2 & Hp2); [lia|].
    exists c'. split; [econstructor; eassumption|]. split; [assumption | lia].
  - destruct (IHSteps a' Hr Ho) as (b' & Hs & Hr' & Hp).
    exists b'. split; [apply St_AltL; assumption|]. tauto.
  - destruct (IHSteps a' Hr Ho) as (b' & Hs & Hr' & Hp).
    exists b'. split; [apply St_AltR; assumption|]. tauto.
  - exists a'. split; [constructor|]. split; [assumption | lia].
  - destruct (IHSteps1 a' Hr Ho) as (b' & Hs1 & Hr1 & Hp1).
    pose proof (Steps_origin H0) as Ho1. pose proof (Steps_origin Hs1) as Ho1'.
    destruct (IHSteps2 b' Hr1) as (c' & Hs2 & Hr2 & Hp2); [lia|].
    exists c'. split; [eapply St_RepMore; eassumption|].
    split; [assumption | lia].
  - destruct (IHSteps a' Hr Ho) as (b' & Hs & Hr' & Hp).
    exists (set_cap n (firstn (pos b' - pos a') (rest a')) b').
    split; [constructor; assumption|]. simpl. tauto.
Qed.

Lemma Steps_drop_cat ic n : forall r a b,
  Steps ic r a b ->
  exists a' s, Steps ic (drop_cat n r) a' b /\ consumed a s a' /\
               origin a' = origin a.
Proof.
  induction n as [|n IH]; intros r a b H.
  - exists a, []. simpl. split; [exact H|]. split; [apply consumed_refl | reflexivity].
  - destruct r; try (exists a, []; simpl; split; [exact H|];
                     split; [apply consumed_refl | reflexivity]).
    destruct (Steps_cat_inv H) as (m & H1 & H2).
    destruct (Steps_consumed H1) as (s1 & Hs1).
    destruct (IH _ _ _ H2) as (a' & s2 & H3 & Hs2 & Ho).
    exists a', (s1 ++ s2). simpl. split; [exact H3|]. split.
    + eapply consumed_trans; eassumption.
    + rewrite Ho. apply (Steps_origin H1).
Qed.

(** Where a pattern matches, the pattern it ends in matches too, further
    on in the text. *)
Lemma search_drop_cat ic n r text :
  simple ic (drop_cat n r) = true ->
  re_search ic r text <> None -> re_search ic (drop_cat n r) text <> None.
Proof.
  intros Hsimple Hf.
  destruct (re_search ic r text) as [m|] eqn:E; [clear Hf | congruence].
  destruct (@re_search_steps ic r text m E) as (pre & s' & -> & H).
  destruct (@Steps_drop_cat ic n _ _ _ H) as (a' & s & H' & [Hr Hp] & Ho).
  simpl in Hr, Hp, Ho.
  destruct (@Steps_reframe ic _ _ _ H'
              (MState (List.length (pre ++ s)) 0 (rest a') []))
    as (b' & Hb & _); [reflexivity | simpl; rewrite length_app; lia |].
  apply (@re_search_matches ic (drop_cat n r) (pre ++ s') Hsimple).
  exists (pre ++ s), (rest a'), b'. split; [|exact Hb].
  rewrite Hr, app_assoc. reflexivity.
Qed.

Lemma first_match_without p q ps text :
  (re_search true q text <> None -> re_search true p text <> None) ->
  first_match (p :: q :: ps) text = first_match (p :: ps) text.
Proof.
  intros H. cbn [first_match].
  destruct (re_search true p text) as [m|]; [reflexivity|].
  destruct (re_search true q text) as [m|]; [|reflexivity].
  exfalso. apply H; [discriminate | reflexivity].
Qed.

(** X9. The pattern of the subtotal ends in the first pattern of the total,
    so a text that sets the subtotal sets the total. *)
Theorem subtotal_sets_total (text : str) :
  exists f, parse_receipt_text text = Ok f /\
            (f_subtotal f <> None -> f_total f <> None).
Proof.
  rewrite parse_receipt_text_spec. eexists. split; [reflexivity|].
  cbn [f_subtotal f_total]. intros Hsub.
  assert (Hs : re_search true subtotal_re text <> None).
  { intros E. apply Hsub. unfold chain_value, first_match. rewrite E. reflexivity. }
  apply (@search_drop_cat true 4 subtotal_re text eq_refl) in Hs.
  change (drop_cat 4 subtotal_re) with total_re in Hs.
  pose proof (@chain_value_set total_res text) as Hset.
  unfold set_by_first_match in Hset.
  destruct (first_match total_res text) as [m|] eqn:E.
  - destruct Hset as (s & v & _ & _ & _ & ->).
    + intros p Hp. apply amount_res_last. unfold amount_res.
      apply in_or_app. left. exact Hp.
    + discriminate.
  - exfalso. apply Hs. rewrite first_match_none in E. apply E. left. reflexivity.
Qed.

Lemma subtotal_sets_total_witness :
  exists f, parse_receipt_text (lit "Subtotal 5.75") = Ok f /\
            f_subtotal f = Some (fl 5.75) /\ f_total f <> None.
Proof.
  destruct (subtotal_sets_total (lit "Subtotal 5.75")) as (f & Hf & H).
  exists f. split; [exact Hf|].
  assert (E : f_subtotal f = Some (fl 5.75)).
  { vm_compute in Hf. injection Hf as <-. reflexivity. }
  split; [exact E|]. apply H. rewrite E. discriminate.
Defined.

(** X10. The patterns [grand total] and [sales tax] never decide their field:
    each ends in the first pattern of its chain, which then matches too
    and is tried before it. *)
Theorem second_patterns_dead (text : str) :
  exists f, parse_receipt_text text = Ok f /\
            f_total f = chain_value (without 1 total_res) text /\
            f_tax f = chain_value (without 1 tax_res) text.
Proof.
  rewrite parse_receipt_text_spec. eexists. split; [reflexivity|].
  cbn [f_total f_tax]. unfold chain_value. split.
  - change total_res with
      (total_re :: nth 1 total_res Empty :: skipn 2 total_res).
    change (without 1 (total_re :: nth 1 total_res Empty
                         :: skipn 2 total_res))
      with (total_re :: skipn 2 total_res).
    rewrite first_match_without; [reflexivity|].
    apply (@search_drop_cat true 6 (nth 1 total_res Empty) text eq_refl).
  - change tax_res with
      (nth 0 tax_res Empty :: nth 1 tax_res Empty :: skipn 2 tax_res).
    change (without 1 (nth 0 tax_res Empty :: nth 1 tax_res Empty
                         :: skipn 2 tax_res))
      with (nth 0 tax_res Empty :: skipn 2 tax_res).
    rewrite first_match_without; [reflexivity|].
    apply (@search_drop_cat true 6 (nth 1 tax_res Empty) text eq_refl).
Qed.

(** ** The retained lines *)

Lemma lstrip_by_split p s :
  exists pre, s = pre ++ lstrip_by p s /\ forallb p pre = true.
Proof.
  induction s as [|x s (pre & IH & Hp)]; simpl.
  - exists []. auto.
  - destruct (p x) eqn:E.
    + exists (x :: pre). simpl. rewrite E, Hp. split; [f_equal; exact IH | reflexivity].
    + exists []. auto.
Qed.

Lemma lstrip_by_head p s c t : lstrip_by p s = c :: t -> p c = false.
Proof.
  induction s as [|x s IH]; simpl; [discriminate|].
  destruct (p x) eqn:E; [exact IH|]. intros H. injection H as <- _. exact E.
Qed.

Lemma forallb_rev {A : Type} (p : A -> bool) (l : list A) :
  forallb p l = true -> forallb p (rev l) = true.
Proof.
  rewrite !forallb_forall. intros H x Hx. apply H. apply in_rev. exact Hx.
Qed.

(** What [strip] leaves, and what it takes away. *)
Lemma strip_by_split p s :
  exists pre post, s = pre ++ strip_by p s ++ post /\
                   forallb p pre = true /\ forallb p post = true /\
                   lstrip_by p s = strip_by p s ++ post.
Proof.
  unfold strip_by.
  destruct (lstrip_by_split p s) as (pre & Hs & Hpre).
  destruct (lstrip_by_split p (rev (lstrip_by p s))) as (q & Hq & Hpq).
  exists pre, (rev q).
  assert (E : lstrip_by p s = rev (lstrip_by p (rev (lstrip_by p s))) ++ rev q).
  { rewrite <- rev_app_distr, <- Hq, rev_involutive. reflexivity. }
  split; [rewrite <- E; exact Hs|].
  split; [exact Hpre|]. split; [apply forallb_rev; exact Hpq | exact E].
Qed.

Lemma strip_by_trimmed p s c t :
  strip_by p s = c :: t \/ strip_by p s = t ++ [c] -> p c = false.
Proof.
  intros [H | H].
  - destruct (strip_by_split p s) as (_ & post & _ & _ & _ & E).
    rewrite H in E. simpl in E. eapply lstrip_by_head. exact E.
  - unfold strip_by in H. apply (f_equal (@rev ascii)) in H.
    rewrite rev_involutive, rev_app_distr in H. simpl in H.
    eapply lstrip_by_head. exact H.
Qed.

Lemma piece_trans a b c : piece a b -> piece b c -> piece a c.
Proof.
  intros (p1 & q1 & ->) (p2 & q2 & ->).
  exists (p2 ++ p1), (q1 ++ q2). rewrite <- !app_assoc. reflexivity.
Qed.

Lemma strip_piece s : piece (strip s) s.
Proof.
  destruct (strip_by_split is_space s) as (pre & post & H & _).
  exists pre, post. exact H.
Qed.

Lemma split_join sep s :
  exists l0 ls, split sep s = l0 :: ls /\ s = l0 ++ flat_map (cons sep) ls.
Proof.
  induction s as [|x s (l0 & ls & E & IH)]; simpl.
  - exists [], []. auto.
  - destruct (Ascii.eqb x sep) eqn:Ex.
    + apply Ascii.eqb_eq in Ex. subst x.
      exists [], (split sep s). split; [reflexivity|].
      rewrite E. simpl. f_equal. exact IH.
    + rewrite E. exists (x :: l0), ls. split; [reflexivity|].
      simpl. f_equal. exact IH.
Qed.

Lemma flat_map_piece sep (ls : list str) l :
  In l ls -> piece l (flat_map (cons sep) ls).
Proof.
  induction ls as [|x ls IH]; intros H; [contradiction|].
  destruct H as [-> | H].
  - exists [sep], (flat_map (cons sep) ls). reflexivity.
  - apply (@piece_trans _ (flat_map (cons sep) ls)); [apply IH; exact H|].
    exists (sep :: x), []. simpl. rewrite app_nil_r. reflexivity.
Qed.

Lemma split_piece sep s l : In l (split sep s) -> piece l s.
Proof.
  destruct (split_join sep s) as (l0 & ls & E & Hs). rewrite E.
  intros [<- | H].
  - exists [], (flat_map (cons sep) ls). exact Hs.
  - apply (@piece_trans _ (flat_map (cons sep) ls));
      [apply flat_map_piece; exact H|].
    exists l0, []. rewrite app_nil_r. exact Hs.
Qed.

Lemma split_no_sep sep s : forall l, In l (split sep s) -> ~ In sep l.
Proof.
  induction s as [|x s IH]; intros l Hl; simpl in Hl.
  - destruct Hl as [<- | []]. intros [].
  - destruct (Ascii.eqb x sep) eqn:Ex.
    + destruct Hl as [<- | Hl]; [intros [] | apply IH; exact Hl].
    + apply Ascii.eqb_neq in Ex.
      destruct (split sep s) as [|l0 ls].
      * destruct Hl as [<- | []]. intros [E | []]. congruence.
      * destruct Hl as [<- | Hl].
        -- intros [E | Hin]; [congruence|].
           apply (IH l0 (or_introl eq_refl)). exact Hin.
        -- apply IH. right. exact Hl.
Qed.

(** A retained line is a piece of the text, not empty, without a line
    break and without white space at its ends. *)
Lemma text_lines_line text line :
  In line (text_lines text) ->
  line <> [] /\ piece line text /\ trimmed line /\ ~ In newline line.
Proof.
  unfold text_lines. intros H. apply filter_In in H. destruct H as [H Hne].
  apply in_map_iff in H. destruct H as (l & <- & Hl).
  split; [|split; [|split]].
  - destruct (strip l); [discriminate | congruence].
  - apply (@piece_trans _ l); [apply strip_piece|].
    apply (@piece_trans _ (strip text)); [|apply strip_piece].
    eapply split_piece. exact Hl.
  - intros c t Hc. eapply strip_by_trimmed. exact Hc.
  - intros Hin. apply strip_by_incl in Hin.
    exact (split_no_sep _ _ _ Hl Hin).
Qed.

Lemma first_merchant_some lines m :
  first_merchant lines = Some m -> In m lines /\ merchant_line m = true.
Proof.
  induction lines as [|l lines IH]; simpl; [discriminate|].
  destruct (merchant_line l) eqn:E.
  - intros H. injection H as <-. auto.
  - intros H. destruct (IH H). auto.
Qed.

Lemma firstn_incl {A : Type} (n : nat) (l : list A) (x : A) :
  In x (firstn n l) -> In x l.
Proof.
  intros H. rewrite <- (firstn_skipn n l). apply in_or_app. left. exact H.
Qed.

(** X11. The merchant is one of the first five retained lines: a piece of the
    text of more than two characters, without a line break, without
    white space at its ends, that holds a character other than a digit
    and a space. *)
Theorem merchant_is_line (text : str) :
  exists f, parse_receipt_text text = Ok f /\
    forall m, f_merchant f = Some m ->
      In m (firstn 5 (text_lines text)) /\
      piece m text /\ 2 < List.length m /\
      ~ In newline m /\ trimmed m /\
      exists c, In c m /\ c <> " "%char /\ is_digit c = false.
Proof.
  rewrite parse_receipt_text_spec. eexists. split; [reflexivity|].
  cbn [f_merchant]. intros m Hm.
  apply first_merchant_some in Hm. destruct Hm as [Hin Hml].
  pose proof (firstn_incl _ _ _ Hin) as Hin'.
  destruct (@text_lines_line text m Hin') as (Hne & Hp & Ht & Hnl).
  unfold merchant_line in Hml.
  apply andb_prop in Hml. destruct Hml as [_ Hml].
  apply andb_prop in Hml. destruct Hml as [Hlen Hdig].
  apply Nat.ltb_lt in Hlen. apply negb_true_iff in Hdig.
  repeat (split; [assumption|]).
  unfold isdigit in Hdig.
  destruct (remove_char " " m) as [|x xs] eqn:Er.
  - exfalso. destruct m as [|c t]; [congruence|].
    assert (Hc : is_space c = false) by (apply (Ht c t); left; reflexivity).
    unfold remove_char in Er. simpl in Er.
    destruct (Ascii.eqb c " ") eqn:Ec; [|discriminate].
    apply Ascii.eqb_eq in Ec. subst c. discriminate.
  - assert (Ef : forallb is_py_digit (x :: xs) = false) by exact Hdig.
    rewrite <- Er in Ef. clear Hdig.
    + assert (Hex : existsb (fun c => negb (is_py_digit c)) (remove_char " " m) = true).
      { clear -Ef. induction (remove_char " " m) as [|y l IH]; simpl in *;
          [discriminate|].
        destruct (is_py_digit y); simpl in *; [apply IH; exact Ef | reflexivity]. }
      apply existsb_exists in Hex. destruct Hex as (c & Hc & Hd).
      unfold remove_char in Hc. apply filter_In in Hc. destruct Hc as [Hc Hsp].
      exists c. split; [exact Hc|]. split.
      * intros ->. discriminate.
      * apply negb_true_iff in Hd. unfold is_py_digit in Hd.
        apply orb_false_iff in Hd. destruct Hd as [Hd _].
        apply orb_false_iff in Hd. tauto.
Qed.

Lemma merchant_is_line_witness :
  exists f, parse_receipt_text joes_diner = Ok f /\
    f_merchant f = Some (lit "Joe's Diner") /\
    piece (lit "Joe's Diner") joes_diner /\ trimmed (lit "Joe's Diner").
Proof.
  destruct (merchant_is_line joes_diner) as (f & Hf & H).
  exists f. split; [exact Hf|].
  assert (E : f_merchant f = Some (lit "Joe's Diner")).
  { vm_compute in Hf. injection Hf as <-. reflexivity. }
  split; [exact E|]. destruct (H _ E) as (_ & Hp & _ & _ & Ht & _). auto.
Defined.

(** X12. An item is read from one retained line without a summary keyword: the
    line is a text whose trimmed form is the description, then white
    space, an optional dollar sign, and the amount written with two
    decimals, which ends the line. *)
Theorem item_is_line (text : str) :
  exists f, parse_receipt_text text = Ok f /\
    forall it, In it (f_items f) ->
      exists line d ws dollar p,
        In line (text_lines text) /\
        found (re_search true skip_re line) = false /\
        line = d ++ ws ++ dollar ++ p /\
        item_description it = strip d /\
        (ws <> [] /\ forallb is_space ws = true) /\
        (dollar = [] \/ dollar = lit "$") /\
        float_of_str p = Ok (item_amount it) /\
        piece (item_description it) text /\ trimmed (item_description it).
Proof.
  rewrite parse_receipt_text_spec. eexists. split; [reflexivity|].
  cbn [f_items]. intros it Hit.
  destruct (item_of_line _ _ Hit)
    as (line & m & d & p & q & Hl & Hskip & Hm & Hcaps & Hf & -> & Ha).
  destruct (item_match_shape _ Hm)
    as (d0 & ws & dl & d1 & d2 & ws' & fin & Hline & Hcaps' & Hws & Hdl & _ & Hws' & Hfin).
  rewrite Hcaps in Hcaps'. injection Hcaps' as -> ->.
  destruct (@text_lines_line text line Hl) as (_ & Hpl & Htl & Hnl).
  assert (Efin : fin = []).
  { destruct Hfin as [-> | ->]; [reflexivity|]. exfalso. apply Hnl.
    rewrite Hline. repeat (apply in_or_app; right). left. reflexivity. }
  subst fin. rewrite app_nil_r in Hline.
  assert (Ews : ws' = []).
  { destruct ws' as [|x l] using rev_ind; [reflexivity|]. exfalso.
    clear IHl. rewrite forallb_app in Hws'. apply andb_prop in Hws'.
    destruct Hws' as [_ Hx]. simpl in Hx. rewrite andb_true_r in Hx.
    rewrite (Htl x (d0 ++ ws ++ dl ++ (d1 ++ "."%char :: d2) ++ l)) in Hx;
      [discriminate|].
    right. rewrite Hline, <- !app_assoc. reflexivity. }
  subst ws'. rewrite app_nil_r in Hline.
  exists line, d0, ws, dl, (d1 ++ "."%char :: d2).
  cbn [item_description item_amount].
  repeat (split; [assumption || reflexivity|]).
  split; [|intros c t Hc; eapply strip_by_trimmed; exact Hc].
  apply (@piece_trans _ d0); [apply strip_piece|].
  apply (@piece_trans _ line); [|exact Hpl].
  exists [], (ws ++ dl ++ d1 ++ "."%char :: d2). exact Hline.
Qed.

Lemma item_is_line_witness :
  exists f line d ws dollar p,
    parse_receipt_text (lit "Coffee  $3.50") = Ok f /\
    f_items f = [Item (lit "Coffee") (fl 3.50)] /\
    line = d ++ ws ++ dollar ++ p /\ lit "Coffee" = strip d /\
    float_of_str p = Ok (fl 3.50).
Proof.
  destruct (item_is_line (lit "Coffee  $3.50")) as (f & Hf & H).
  assert (E : f_items f = [Item (lit "Coffee") (fl 3.50)]).
  { vm_compute in Hf. injection Hf as <-. reflexivity. }
  destruct (H (Item (lit "Coffee") (fl 3.50)))
    as (line & d & ws & dollar & p & _ & _ & Hl & Hd & _ & _ & Hp & _).
  { rewrite E. left. reflexivity. }
  exists f, line, d, ws, dollar, p. auto 10.
Defined.

(** ** The record of a successful scan *)

(** X13. Whatever the libraries return, the record of a successful scan is the
    one the extractor gives for its raw text; its confidence is not
    negative, its amounts are unset or not negative and not a NaN, and
    every item carries a description of more than two characters and an
    amount strictly between 0 and 10000. *)
Theorem scan_record_sound (L : OCRLib) (job : string) (contents : exc bytes)
  (d : ReceiptData) :
  data (scan job contents) = Some d ->
  (exists f, parse_receipt_text (raw_text d) = Ok f /\
             d = assemble (raw_text d) (confidence d) f) /\
  (0 <= confidence d)%Q /\
  (not_negative (total d) /\ not_negative (subtotal d) /\
   not_negative (tax d) /\ not_negative (tip d)) /\
  forall it, In it (items d) ->
    2 < List.length (description it) /\
    exists q, amount it = Some (Finite q) /\ (0 < q)%Q /\ (q < 10000)%Q.
Proof.
  unfold scan. destruct (scan_body contents) as [d'|e] eqn:Hb; [|discriminate].
  cbn [data]. intros Hd. injection Hd as ->.
  apply scan_body_ok in Hb. destruct Hb as (text & conf & f & Hst & ->).
  destruct Hst as (b & img & img' & p1 & p2 & _ & _ & _ & _ & _ & _ & _ & Hf).
  cbn [assemble raw_text confidence total subtotal tax tip items].
  split; [exists f; split; [exact Hf | reflexivity]|].
  split; [apply scalar_confidence_nonneg|].
  rewrite parse_receipt_text_spec in Hf. injection Hf as <-.
  cbn [f_total f_subtotal f_tax f_tip f_items]. split.
  - repeat split; apply chain_value_nonneg; apply amount_res_incl;
      intros p Hp; simpl in *; tauto.
  - intros it Hit. apply in_map_iff in Hit. destruct Hit as (i & <- & Hi).
    apply in_flat_map in Hi. destruct Hi as (line & _ & Hi).
    apply line_items_in in Hi. destruct Hi as (dd & q & _ & -> & Hl & Hlo & Hhi).
    cbn [receipt_item description amount item_description item_amount].
    split; [exact Hl|]. exists q. auto.
Qed.

Lemma scan_record_sound_witness :
  exists d,
    data (scan (L := example_lib None [90]%Z joes_diner) "job-6" (Ok [])) = Some d /\
    (0 <= confidence d)%Q /\ not_negative (total d).
Proof.
  destruct (scan_body (L := example_lib None [90]%Z joes_diner) (Ok []))
    as [d|e] eqn:E; [|vm_compute in E; discriminate].
  exists d.
  assert (Hd : data (scan (L := example_lib None [90]%Z joes_diner) "job-6" (Ok []))
               = Some d) by (unfold scan; rewrite E; reflexivity).
  destruct (scan_record_sound _ _ _ Hd) as (_ & Hc & (Ht & _) & _). auto.
Defined.

(** ** The case of the letters *)

Lemma in_all_chars (x : ascii) : In x all_chars.
Proof.
  unfold all_chars. rewrite <- (ascii_nat_embedding x).
  apply in_map. apply in_seq. pose proof (nat_ascii_bounded x). lia.
Qed.

Lemma blind_test_spec p x : blind_test p = true -> p (to_lower x) = p x.
Proof.
  unfold blind_test. rewrite forallb_forall. intros H.
  apply Bool.eqb_prop. apply H. apply in_all_chars.
Qed.

Lemma lower_newline x : Ascii.eqb (to_lower x) newline = Ascii.eqb x newline.
Proof. char_cases x. Qed.

Lemma lower_blank x : Ascii.eqb (to_lower x) " " = Ascii.eqb x " ".
Proof. char_cases x. Qed.

Lemma lower_is_space x : is_space (to_lower x) = is_space x.
Proof. char_cases x. Qed.

Lemma lower_is_py_digit x : is_py_digit (to_lower x) = is_py_digit x.
Proof. char_cases x. Qed.

Lemma lower_plain x : plain x = true -> to_lower x = x.
Proof. char_cases x. Qed.

Lemma lower_amount_text s : amount_text s -> lower s = s.
Proof.
  intros Ha. destruct (amount_text_plain Ha) as (_ & _ & _ & _ & Hp).
  clear Ha. induction s as [|c s IH]; simpl in *; [reflexivity|].
  apply andb_prop in Hp. destruct Hp as [Hc Hs].
  rewrite (@lower_plain _ Hc). f_equal. apply IH. exact Hs.
Qed.

Lemma lower_advance st : advance (lower_state st) = lower_state (advance st).
Proof.
  unfold advance, lower_state, lower. simpl.
  destruct (rest st); reflexivity.
Qed.

Lemma lower_set_cap n d st st' :
  set_cap n (firstn d (rest (lower_state st))) (lower_state st')
  = lower_state (set_cap n (firstn d (rest st)) st').
Proof.
  unfold set_cap, lower_state, lower. simpl. rewrite firstn_map. reflexivity.
Qed.

Lemma one_char_lower p k k' st :
  (forall x, p (to_lower x) = p x) ->
  (forall st', k' (lower_state st') = option_map lower_state (k st')) ->
  one_char p k' (lower_state st) = option_map lower_state (one_char p k st).
Proof.
  intros Hp Hk. unfold one_char. simpl.
  destruct (rest st) as [|x xs] eqn:E; simpl; [reflexivity|].
  rewrite Hp. destruct (p x); [|reflexivity].
  rewrite <- Hk, <- lower_advance. unfold advance, lower_state. simpl.
  rewrite E. reflexivity.
Qed.

Lemma orelse_map {A B : Type} (f : A -> B) (a b : option A) :
  orelse (option_map f a) (option_map f b) = option_map f (orelse a b).
Proof. destruct a; reflexivity. Qed.

Lemma rep_loop_lower step g k k' :
  (forall c c' st,
      (forall st', c' (lower_state st') = option_map lower_state (c st')) ->
      step c' (lower_state st) = option_map lower_state (step c st)) ->
  (forall st', k' (lower_state st') = option_map lower_state (k st')) ->
  forall fuel lo hi st,
    rep_loop step g k' fuel lo hi (lower_state st)
    = option_map lower_state (rep_loop step g k fuel lo hi st).
Proof.
  intros Hstep Hk. induction fuel as [|f IH]; intros lo hi st; [reflexivity|].
  cbn [rep_loop].
  assert (Hmore :
    (if hi_open hi
     then step (rep_loop step g k' f (Nat.pred lo) (hi_pred hi)) (lower_state st)
     else None)
    = option_map lower_state
        (if hi_open hi
         then step (rep_loop step g k f (Nat.pred lo) (hi_pred hi)) st
         else None)).
  { destruct (hi_open hi); [|reflexivity]. apply Hstep. intros st'. apply IH. }
  assert (Hstop :
    (if Nat.eqb lo 0 then k' (lower_state st) else None)
    = option_map lower_state (if Nat.eqb lo 0 then k st else None)).
  { destruct (Nat.eqb lo 0); [apply Hk | reflexivity]. }
  rewrite Hmore, Hstop. destruct g; apply orelse_map.
Qed.

(** On the lower-cased text a case-blind expression takes the matcher
    through the lower-cased states. *)
Lemma rmatch_lower ic r :
  case_blind ic r = true ->
  forall k k' st,
    (forall st', k' (lower_state st') = option_map lower_state (k st')) ->
    rmatch ic r k' (lower_state st) = option_map lower_state (rmatch ic r k st).
Proof.
  induction r as [| c | | c | neg its | | | r1 IH1 r2 IH2 | r1 IH1 r2 IH2
                  | lo hi g r IH | n r IH]; intros Hb k k' st Hk.
  - apply Hk.
  - apply one_char_lower; [|exact Hk].
    intros x. exact (@blind_test_spec _ x Hb).
  - apply one_char_lower; [|exact Hk].
    intros x. exact (@blind_test_spec _ x Hb).
  - apply one_char_lower; [|exact Hk].
    intros x. exact (@blind_test_spec _ x Hb).
  - apply one_char_lower; [|exact Hk].
    intros x. exact (@blind_test_spec _ x Hb).
  - cbn [rmatch]. simpl origin. simpl pos.
    destruct (Nat.eqb (origin st + pos st) 0); [apply Hk | reflexivity].
  - cbn [rmatch]. simpl rest. unfold lower.
    destruct (rest st) as [|x [|y t]] eqn:E; simpl; [| |reflexivity].
    + rewrite <- Hk. unfold lower_state, lower. rewrite E. reflexivity.
    + rewrite lower_newline. destruct (Ascii.eqb x newline); [|reflexivity].
      rewrite <- Hk. unfold lower_state, lower. rewrite E. reflexivity.
  - simpl in Hb. apply andb_prop in Hb. destruct Hb as [Hb1 Hb2].
    cbn [rmatch]. apply (IH1 Hb1). intros st'. apply (IH2 Hb2). exact Hk.
  - simpl in Hb. apply andb_prop in Hb. destruct Hb as [Hb1 Hb2].
    cbn [rmatch]. rewrite (IH1 Hb1 k k' st Hk), (IH2 Hb2 k k' st Hk).
    apply orelse_map.
  - simpl in Hb. cbn [rmatch].
    replace (List.length (rest (lower_state st))) with (List.length (rest st))
      by (unfold lower_state, lower; simpl; rewrite length_map; reflexivity).
    apply rep_loop_lower; [|exact Hk].
    intros c c' st0 Hc. apply (IH Hb). exact Hc.
  - simpl in Hb. cbn [rmatch]. apply (IH Hb).
    intros st'. change (pos (lower_state st)) with (pos st).
    change (pos (lower_state st')) with (pos st').
    rewrite lower_set_cap. apply Hk.
Qed.

Lemma match_at_lower ic r p s :
  case_blind ic r = true ->
  match_at ic r p (lower s) = option_map lower_state (match_at ic r p s).
Proof.
  intros Hb. unfold match_at.
  change (MState p 0 (lower s) []) with (lower_state (MState p 0 s [])).
  apply (@rmatch_lower ic r Hb). reflexivity.
Qed.

Lemma search_from_lower ic r :
  case_blind ic r = true ->
  forall s p, search_from ic r p (lower s)
              = option_map lower_state (search_from ic r p s).
Proof.
  intros Hb. induction s as [|c s IH]; intros p.
  - change (lower []) with (@nil ascii). cbn [search_from].
    change (@nil ascii) with (lower []) at 1. rewrite (@match_at_lower ic r _ _ Hb).
    destruct (match_at ic r p []); reflexivity.
  - change (lower (c :: s)) with (to_lower c :: lower s). cbn [search_from].
    change (to_lower c :: lower s) with (lower (c :: s)).
    rewrite (@match_at_lower ic r _ _ Hb).
    destruct (match_at ic r p (c :: s)); [reflexivity | apply IH].
Qed.

Lemma re_search_lower ic r s :
  case_blind ic r = true ->
  re_search ic r (lower s) = option_map lower_state (re_search ic r s).
Proof. intros Hb. apply search_from_lower. exact Hb. Qed.

Lemma found_map {A B : Type} (f : A -> B) (m : option A) :
  match option_map f m with Some _ => true | None => false end
  = match m with Some _ => true | None => false end.
Proof. destruct m; reflexivity. Qed.

Lemma group_lower m n : group (lower_state m) n = option_map lower (group m n).
Proof.
  unfold group, lower_state. simpl.
  induction (caps m) as [|[i s] l IH]; simpl; [reflexivity|].
  destruct (Nat.eqb n i); [reflexivity | exact IH].
Qed.

Lemma first_match_lower ps text :
  forallb (case_blind true) ps = true ->
  first_match ps (lower text) = option_map lower_state (first_match ps text).
Proof.
  induction ps as [|p ps IH]; simpl; [reflexivity|].
  intros H. apply andb_prop in H. destruct H as [Hp Hps].
  rewrite (@re_search_lower true p text Hp).
  destruct (re_search true p text); [reflexivity | apply IH; exact Hps].
Qed.

Lemma chain_value_lower ps text :
  forallb (case_blind true) ps = true ->
  (forall p, In p ps -> last_of p = Grp 1 amount_re) ->
  chain_value ps (lower text) = chain_value ps text.
Proof.
  intros Hb Hl. unfold chain_value. rewrite (@first_match_lower ps text Hb).
  destruct (first_match ps text) as [m|] eqn:E; [|reflexivity].
  destruct (first_match_in _ _ E) as (p & Hp & Hs).
  destruct (@capture_value_amount p text m (Hl p Hp) Hs) as (s & q & Hg & Ha & _).
  simpl. unfold capture_value. rewrite group_lower, Hg. simpl.
  rewrite (@lower_amount_text _ Ha). reflexivity.
Qed.

(** Lines *)

Lemma lstrip_by_map (f : ascii -> ascii) p s :
  (forall x, p (f x) = p x) ->
  lstrip_by p (map f s) = map f (lstrip_by p s).
Proof.
  intros H. induction s as [|x s IH]; simpl; [reflexivity|].
  rewrite H. destruct (p x); [exact IH | reflexivity].
Qed.

Lemma strip_lower s : strip (lower s) = lower (strip s).
Proof.
  unfold strip, strip_by, lower.
  rewrite (@lstrip_by_map to_lower is_space _ lower_is_space), <- map_rev,
          (@lstrip_by_map to_lower is_space _ lower_is_space), <- map_rev.
  reflexivity.
Qed.

Lemma split_lower s : split newline (lower s) = map lower (split newline s).
Proof.
  induction s as [|x s IH]; simpl; [reflexivity|].
  rewrite lower_newline. destruct (Ascii.eqb x newline).
  - simpl. f_equal. exact IH.
  - fold (lower s). rewrite IH. destruct (split newline s); reflexivity.
Qed.

Lemma text_lines_lower text : text_lines (lower text) = map lower (text_lines text).
Proof.
  unfold text_lines. rewrite strip_lower, split_lower, map_map.
  induction (split newline (strip text)) as [|l ls IH]; simpl; [reflexivity|].
  rewrite strip_lower.
  replace (is_nil (lower (strip l))) with (is_nil (strip l))
    by (destruct (strip l); reflexivity).
  destruct (is_nil (strip l)); simpl; [exact IH | f_equal; exact IH].
Qed.

Lemma isdigit_lower s :
  isdigit (remove_char " " (lower s)) = isdigit (remove_char " " s).
Proof.
  assert (E : remove_char " " (lower s) = lower (remove_char " " s)).
  { unfold remove_char, lower. induction s as [|x s IH]; simpl; [reflexivity|].
    rewrite lower_blank. destruct (Ascii.eqb x " "); simpl; [exact IH|].
    f_equal. exact IH. }
  rewrite E. generalize (remove_char " " s). intros t.
  unfold isdigit, lower. destruct t as [|x t]; [reflexivity|].
  change (map to_lower (x :: t)) with (to_lower x :: map to_lower t).
  cbn [forallb]. rewrite lower_is_py_digit. f_equal.
  induction t as [|y t IH]; simpl; [reflexivity|].
  rewrite lower_is_py_digit, IH. reflexivity.
Qed.

Lemma all_res_case_blind :
  (case_blind false phone_re = true /\ case_blind false item_re = true) /\
  (case_blind true address_re = true /\ case_blind true skip_re = true) /\
  forallb (case_blind true) date_res = true /\
  forallb (case_blind true) amount_res = true.
Proof. vm_compute. auto. Qed.

Lemma merchant_line_lower line : merchant_line (lower line) = merchant_line line.
Proof.
  unfold merchant_line, found.
  destruct all_res_case_blind as ((Hphone & _) & (Haddr & _) & _).
  rewrite (@re_search_lower false phone_re line Hphone),
          (@re_search_lower true address_re line Haddr), !found_map.
  rewrite isdigit_lower. unfold lower. rewrite length_map. reflexivity.
Qed.

Lemma first_merchant_lower lines :
  first_merchant (map lower lines) = option_map lower (first_merchant lines).
Proof.
  induction lines as [|l lines IH]; simpl; [reflexivity|].
  rewrite merchant_line_lower. destruct (merchant_line l); [reflexivity | exact IH].
Qed.

Lemma line_items_lower line :
  line_items (lower line) = map lower_item (line_items line).
Proof.
  destruct all_res_case_blind as ((_ & Hitem) & (_ & Hskip) & _).
  unfold line_items, candidate, found, re_match.
  rewrite (@re_search_lower true skip_re line Hskip), found_map.
  destruct (re_search true skip_re line); [reflexivity|].
  rewrite (@match_at_lower false item_re 0 line Hitem).
  destruct (match_at false item_re 0 line) as [m|] eqn:Hm; [|reflexivity].
  destruct (@item_capture line m Hm) as (d & p & Hcaps & Ha).
  simpl option_map. cbv beta iota. rewrite !group_lower. unfold group. rewrite Hcaps. simpl.
  rewrite (@lower_amount_text _ Ha), strip_lower.
  destruct (float_of_str p) as [[q| |]|]; try reflexivity.
  unfold item_ok, lower. rewrite length_map.
  destruct ((2 <? List.length (strip d)) && float_gt (Finite q) (fl 0)
            && float_lt (Finite q) (fl 10000)); reflexivity.
Qed.

Lemma flat_map_lower lines :
  flat_map line_items (map lower lines)
  = map lower_item (flat_map line_items lines).
Proof.
  induction lines as [|l lines IH]; simpl; [reflexivity|].
  rewrite line_items_lower, IH, map_app. reflexivity.
Qed.

(** X14. The extractor does not look at the case of the letters: on the
    lower-cased text it returns the same amounts, and the merchant, the
    date and the descriptions in lower case. *)
Theorem lower_case_equivariant (text : str) :
  exists f, parse_receipt_text text = Ok f /\
            parse_receipt_text (lower text) = Ok (lower_fields f).
Proof.
  rewrite !parse_receipt_text_spec. eexists. split; [reflexivity|].
  destruct all_res_case_blind as (_ & _ & Hdate & Hamount).
  assert (Hsub : forall ps, incl ps amount_res ->
                 chain_value ps (lower text) = chain_value ps text).
  { intros ps Hi. apply chain_value_lower.
    - apply forallb_forall. intros p Hp.
      rewrite forallb_forall in Hamount. apply Hamount. apply Hi. exact Hp.
    - apply amount_res_incl. exact Hi. }
  unfold lower_fields. cbn [f_merchant f_date f_total f_subtotal f_tax f_tip f_items].
  rewrite text_lines_lower, firstn_map, first_merchant_lower, flat_map_lower.
  rewrite !first_date_spec, (@first_match_lower date_res text Hdate).
  rewrite !Hsub by (intros p Hp; simpl in Hp |- *; tauto).
  f_equal. f_equal.
  destruct (first_match date_res text) as [m|]; [apply group_lower | reflexivity].
Qed.
